(** * bandit-sim.js: Track-and-Stop simulator, shallow embedding

    The JavaScript numbers of the simulator are modelled as follows.
    Pull and success counters are integers ([Z]).  Every other number
    (mean estimates, divergences, weights, allocations, random draws) is a
    binary64 value in the source and a real number ([R]) here: the
    general theorems reason in exact arithmetic, rounding is not modelled.
    JavaScript comparisons of numbers become the boolean tests [Rltb],
    [Rleb] and [Rgtb].  A [TypeError] of the source (a property read on
    [undefined]) is the [None] of an [option].

    The module [Binary64] repeats the part of the allocator that uses only
    [+ - * /], comparisons and [Math.max] over primitive binary64 floats,
    whose operations round as the JavaScript ones do; it evaluates that
    code bit for bit on given arms.  It also holds [klBern] with
    [Math.log] as a parameter, and the real value [toR] of a binary64
    number, to compare what the code computes with the exact value.

    Besides the simulator the file embeds the duration estimator
    (estimator.js, module [Estimator]) and the data generator of the static
    charts (ner-charts.js, module [NerCharts]), over the same exact
    arithmetic; [Math.round] is [mathRound]. *)

From Stdlib Require Import Reals List ZArith Lia Lra Bool.
From Stdlib Require Import PrimFloat Uint63 SpecFloat FloatOps.
From Stdlib Require Import Sorted.
Import ListNotations.

#[local] Set Warnings "-inexact-float".

Open Scope R_scope.

(** ** Numbers *)

Definition Rltb (x y : R) : bool := if Rlt_dec x y then true else false.
Definition Rleb (x y : R) : bool := if Rle_dec x y then true else false.
Definition Rgtb (x y : R) : bool := Rltb y x.

(** ** Config *)

Definition DEFAULT_RATES : list R := [0.55; 0.45; 0.72; 0.48].
Definition DELTA : R := 0.05.
Definition MAX_STEPS : Z := 5000.
Definition CHART_SAMPLE : Z := 15.

(** ** Arm class

    [name] and [color] are presentation data looked up from [idx]; they
    are left out. *)

Record Arm : Type := mkArm {
  idx : nat;
  trueRate : R;
  pulls : Z;
  successes : Z
}.

(** [new Arm(idx)]; [DEFAULT_RATES[idx]] is [undefined] past the table,
    which no comparison [Math.random() < undefined] satisfies. *)
Definition newArm (i : nat) : Arm :=
  mkArm i (nth i DEFAULT_RATES 0) 0 0.

(** [get mean()] *)
Definition mean (a : Arm) : R :=
  if (pulls a =? 0)%Z then 0.5 else IZR (successes a) / IZR (pulls a).

(** [pull()], with the value [u] of its [Math.random()] call. *)
Definition pull (u : R) (a : Arm) : Arm * bool :=
  let p := (pulls a + 1)%Z in
  if Rltb u (trueRate a)
  then (mkArm (idx a) (trueRate a) p (successes a + 1)%Z, true)
  else (mkArm (idx a) (trueRate a) p (successes a), false).

(** [reset()] *)
Definition reset (a : Arm) : Arm := mkArm (idx a) (trueRate a) 0 0.

(** The data-model invariant of an arm. *)
Definition valid (a : Arm) : Prop := (0 <= successes a <= pulls a)%Z.

(** [Array.prototype.reduce] with the index passed to the callback. *)
Fixpoint reduce_from {A B : Type} (f : B -> A -> nat -> B)
    (i : nat) (l : list A) (acc : B) : B :=
  match l with
  | [] => acc
  | x :: l' => reduce_from f (S i) l' (f acc x i)
  end.

Definition reduce {A B : Type} (f : B -> A -> nat -> B) (l : list A) (init : B) : B :=
  reduce_from f 0 l init.

Definition totalPulls (arms : list Arm) : Z :=
  reduce (fun s a _ => (s + pulls a)%Z) arms 0%Z.

(** [a.mean > arms[b].mean]; the read [arms[b]] is always in range (see
    [bestArmIdx_lt]), the [None] branch stands for the unreachable
    [undefined]. *)
Definition beats (arms : list Arm) (a : Arm) (b : nat) : bool :=
  match nth_error arms b with
  | Some ab => Rgtb (mean a) (mean ab)
  | None => false
  end.

(** The callback of the reduction in [bestArmIdx]. *)
Definition bestStep (arms : list Arm) (b : nat) (a : Arm) (i : nat) : nat :=
  if beats arms a b then i else b.

Definition bestArmIdx (arms : list Arm) : nat :=
  reduce (bestStep arms) arms 0%nat.


(** ** Algorithm: math *)

(** KL divergence between two Bernoulli distributions *)
Definition klBern (p q : R) : R :=
  let p := Rmax 1e-9 (Rmin (1 - 1e-9) p) in
  let q := Rmax 1e-9 (Rmin (1 - 1e-9) q) in
  p * ln (p / q) + (1 - p) * ln ((1 - p) / (1 - q)).

(** Generalized Likelihood Ratio Test statistic for arm_i vs arm_j *)
Definition glrtStat (arm_i arm_j : Arm) : R :=
  if ((pulls arm_i <? 1) || (pulls arm_j <? 1))%Z then 0
  else if Rleb (mean arm_i) (mean arm_j) then 0
  else IZR (pulls arm_i) * klBern (mean arm_i) (mean arm_j) +
       IZR (pulls arm_j) * klBern (mean arm_j) (mean arm_i).

(** The stopping threshold with the error tolerance as a parameter;
    [Math.E] is [exp 1]. *)
Definition stoppingThresholdAt (delta : R) (t : R) : R :=
  ln ((ln (t + exp 1) + 1) / delta).

(** Anytime-valid stopping threshold, at the configured [DELTA]. *)
Definition stoppingThreshold (t : R) : R := stoppingThresholdAt DELTA t.

(** ** Algorithm: allocation (Track-and-Stop) *)

(** [Math.min(...xs)]: [None] is the [Infinity] of an empty argument
    list. *)
Fixpoint mathMin (xs : list Z) : option Z :=
  match xs with
  | [] => None
  | x :: xs' =>
      match mathMin xs' with
      | None => Some x
      | Some m => Some (Z.min x m)
      end
  end.

(** [m < n] for [m] a result of [mathMin]; [Infinity < n] is false. *)
Definition ltNum (m : option Z) (n : Z) : bool :=
  match m with
  | Some m => (m <? n)%Z
  | None => false
  end.

Definition minPulls (arms : list Arm) : option Z := mathMin (map pulls arms).

(** [Array.prototype.map] with the index passed to the callback. *)
Fixpoint map_from {A B : Type} (f : A -> nat -> B) (i : nat) (l : list A) : list B :=
  match l with
  | [] => []
  | x :: l' => f x i :: map_from f (S i) l'
  end.

Definition mapi {A B : Type} (f : A -> nat -> B) (l : list A) : list B :=
  map_from f 0 l.

(** [w[i] = v] for [i] in range; the source only assigns in range. *)
Fixpoint assign {A : Type} (l : list A) (i : nat) (v : A) : list A :=
  match l, i with
  | [], _ => []
  | _ :: l', O => v :: l'
  | x :: l', S i' => x :: assign l' i' v
  end.

(** The number a weight entry denotes in an arithmetic expression:
    [null] converts to 0. *)
Definition num (v : option R) : R :=
  match v with
  | Some x => x
  | None => 0
  end.

Definition uniformAlloc (arms : list Arm) : list R :=
  map (fun _ => 1 / INR (length arms)) arms.

(** The weight [1/gap^2] of an arm other than the best. *)
Definition gapWeight (bestMean : R) (arm : Arm) : R :=
  let gap := Rmax (bestMean - mean arm) 0.005 in
  1 / (gap * gap).

(** The weights before normalisation: [1/gap^2] for every arm but the best
    (whose entry is [null] at first), then the sum of the others, floored at
    0.01, for the best. *)
Definition adaptiveWeights (arms : list Arm) (best : nat) (bestMean : R)
  : list (option R) :=
  let w := mapi (fun arm i =>
                   if (i =? best)%nat then None
                   else Some (gapWeight bestMean arm)) arms in
  let sumOthers := reduce (fun s v i => if (i =? best)%nat then s else s + num v) w 0 in
  assign w best (Some (Rmax sumOthers 0.01)).

(** [None] is the [TypeError] of [arms[best].mean] on an empty [arms]. *)
Definition computeAdaptiveAlloc (arms : list Arm) : option (list R) :=
  let minP := minPulls arms in
  if ltNum minP 6 then Some (uniformAlloc arms)
  else
    let best := bestArmIdx arms in
    match nth_error arms best with
    | None => None
    | Some ab =>
        let w := adaptiveWeights arms best (mean ab) in
        let total := reduce (fun s v _ => s + num v) w 0 in
        Some (map (fun v => num v / total) w)
    end.

(** The loop of [selectArm], from index [i] with running sum [cum];
    [None] when the loop runs to its end. *)
Fixpoint selectArm_loop (r : R) (alloc : list R) (cum : R) (i : nat) : option nat :=
  match alloc with
  | [] => None
  | a :: alloc' =>
      let cum := cum + a in
      if Rleb r cum then Some i else selectArm_loop r alloc' cum (S i)
  end.

(** [selectArm(alloc)], with the value [r] of its [Math.random()] call. *)
Definition selectArm (r : R) (alloc : list R) : Z :=
  match selectArm_loop r alloc 0 0 with
  | Some i => Z.of_nat i
  | None => (Z.of_nat (length alloc) - 1)%Z
  end.

(** ** Algorithm: stopping criterion *)

(** [glrtStat(arms[best], a) < thresh]; [arms[best]] is in range whenever
    the loop body runs. *)
Definition belowThreshold (arms : list Arm) (best : nat) (a : Arm) (thresh : R) : bool :=
  match nth_error arms best with
  | Some ab => Rltb (glrtStat ab a) thresh
  | None => false
  end.

(** The loop of [shouldStop] over the arms from index [i] on. *)
Fixpoint shouldStop_loop (arms : list Arm) (best : nat) (thresh : R)
    (i : nat) (rest : list Arm) : bool :=
  match rest with
  | [] => true
  | a :: rest' =>
      if (i =? best)%nat then shouldStop_loop arms best thresh (S i) rest'
      else if belowThreshold arms best a thresh then false
      else shouldStop_loop arms best thresh (S i) rest'
  end.

Definition shouldStop (arms : list Arm) : bool :=
  let t := totalPulls arms in
  let minP := minPulls arms in
  if ltNum minP 12 then false
  else
    let best := bestArmIdx arms in
    let thresh := stoppingThreshold (IZR t) in
    shouldStop_loop arms best thresh 0 arms.

(** ** The allocator over binary64 *)

Module Binary64.

(** A counter as a JavaScript number (exact for counters below 2^53). *)
Definition ofZ (z : Z) : float :=
  if (z <? 0)%Z then PrimFloat.opp (PrimFloat.of_uint63 (Uint63.of_Z (- z)))
  else PrimFloat.of_uint63 (Uint63.of_Z z).

(** [Math.max(x, y)] *)
Definition mathMax (x y : float) : float :=
  if PrimFloat.is_nan x || PrimFloat.is_nan y then PrimFloat.nan
  else if PrimFloat.ltb x y then y
  else if PrimFloat.ltb y x then x
  else if PrimFloat.is_zero x then PrimFloat.add x y
  else x.

Definition mean (a : Arm) : float :=
  if (pulls a =? 0)%Z then 0.5%float
  else PrimFloat.div (ofZ (successes a)) (ofZ (pulls a)).

Definition beats (arms : list Arm) (a : Arm) (b : nat) : bool :=
  match nth_error arms b with
  | Some ab => PrimFloat.ltb (mean ab) (mean a)
  | None => false
  end.

Definition bestArmIdx (arms : list Arm) : nat :=
  reduce (fun b a i => if beats arms a b then i else b) arms 0%nat.

Definition num (v : option float) : float :=
  match v with
  | Some x => x
  | None => 0%float
  end.

Definition uniformAlloc (arms : list Arm) : list float :=
  map (fun _ => PrimFloat.div 1%float (ofZ (Z.of_nat (length arms)))) arms.

Definition gapWeight (bestMean : float) (arm : Arm) : float :=
  let gap := mathMax (PrimFloat.sub bestMean (mean arm)) 0.005%float in
  PrimFloat.div 1%float (PrimFloat.mul gap gap).

Definition adaptiveWeights (arms : list Arm) (best : nat) (bestMean : float)
  : list (option float) :=
  let w := mapi (fun arm i =>
                   if (i =? best)%nat then None
                   else Some (gapWeight bestMean arm)) arms in
  let sumOthers :=
    reduce (fun s v i => if (i =? best)%nat then s else PrimFloat.add s (num v))
      w 0%float in
  assign w best (Some (mathMax sumOthers 0.01%float)).

Definition computeAdaptiveAlloc (arms : list Arm) : option (list float) :=
  let minP := minPulls arms in
  if ltNum minP 6 then Some (uniformAlloc arms)
  else
    let best := bestArmIdx arms in
    match nth_error arms best with
    | None => None
    | Some ab =>
        let w := adaptiveWeights arms best (mean ab) in
        let total := reduce (fun s v _ => PrimFloat.add s (num v)) w 0%float in
        Some (map (fun v => PrimFloat.div (num v) total) w)
    end.

(** [Math.min(x, y)] *)
Definition mathMin (x y : float) : float :=
  if PrimFloat.is_nan x || PrimFloat.is_nan y then PrimFloat.nan
  else if PrimFloat.ltb x y then x
  else if PrimFloat.ltb y x then y
  else if PrimFloat.is_zero x
       then PrimFloat.opp (PrimFloat.add (PrimFloat.opp x) (PrimFloat.opp y))
  else x.

(** [klBern(p, q)], with [log] for [Math.log], whose rounding the language
    leaves to the implementation. *)
Definition klBern (log : float -> float) (p q : float) : float :=
  let p := mathMax 1e-9%float (mathMin (PrimFloat.sub 1%float 1e-9%float) p) in
  let q := mathMax 1e-9%float (mathMin (PrimFloat.sub 1%float 1e-9%float) q) in
  PrimFloat.add
    (PrimFloat.mul p (log (PrimFloat.div p q)))
    (PrimFloat.mul (PrimFloat.sub 1%float p)
       (log (PrimFloat.div (PrimFloat.sub 1%float p) (PrimFloat.sub 1%float q)))).

(** The real number a binary64 value stands for (0 for the infinities and
    [NaN]). *)
Definition toR (x : float) : R :=
  match Prim2SF x with
  | S754_finite s m e =>
      let v := if (0 <=? e)%Z then IZR (Z.pos m * 2 ^ e)
               else IZR (Z.pos m) / IZR (2 ^ (- e)) in
      if s then - v else v
  | _ => 0
  end.

End Binary64.

(** ** Simulation loop *)

Inductive Mode : Type := adaptive | uniform.

(** What [showWinner] writes into the winner bar. *)
Record SimulationOutcome : Type := mkOutcome {
  winnerIndex : nat;
  outcomePulls : Z
}.

(** The global variables of the simulator.  [random] is the sequence of
    values the coming calls of [Math.random()] return; [simTimer] tells
    whether the interval timer is armed; [winnerBar] lists the outcomes
    [showWinner] has displayed, latest first. *)
Record Sim : Type := mkSim {
  simMode : Mode;
  simRunning : bool;
  simTimer : bool;
  stepsPerTick : nat;
  arms : list Arm;
  allocHistory : list (Z * list R);
  simDone : bool;
  simWinner : option nat;
  random : nat -> R;
  winnerBar : list SimulationOutcome
}.

(** [arms[i].pull()], with the value [u] of the call of [Math.random()];
    [None] when [arms[i]] is [undefined]. *)
Definition pullAt (u : R) (arms : list Arm) (i : Z) : option (list Arm) :=
  if (i <? 0)%Z then None
  else
    match nth_error arms (Z.to_nat i) with
    | None => None
    | Some a => Some (assign arms (Z.to_nat i) (fst (pull u a)))
    end.

(** The allocation [simStep] and [renderAllocBars] compute for the current
    mode. *)
Definition modeAlloc (m : Mode) (arms : list Arm) : option (list R) :=
  match m with
  | adaptive => computeAdaptiveAlloc arms
  | uniform => Some (uniformAlloc arms)
  end.

(** [simStep()]; [None] when the step throws. *)
Definition simStep (s : Sim) : option Sim :=
  match modeAlloc (simMode s) (arms s) with
  | None => None
  | Some alloc =>
      let i := selectArm (random s 0%nat) alloc in
      match pullAt (random s 1%nat) (arms s) i with
      | None => None
      | Some arms' =>
          let t := totalPulls arms' in
          let history :=
            if (t mod CHART_SAMPLE =? 0)%Z
            then allocHistory s ++ [(t, alloc)]
            else allocHistory s in
          let stop := shouldStop arms' in
          Some (mkSim (simMode s) (simRunning s) (simTimer s) (stepsPerTick s)
                  arms' history
                  (if stop then true else simDone s)
                  (if stop then Some (bestArmIdx arms') else simWinner s)
                  (fun n => random s (S (S n)))
                  (winnerBar s))
      end
  end.

(** The test that ends the loop of [runBatch] and that its last statement
    repeats. *)
Definition finished (s : Sim) : bool :=
  simDone s || (MAX_STEPS <=? totalPulls (arms s))%Z.

(** The loop of [runBatch], with [n] iterations left. *)
Fixpoint runBatch_loop (n : nat) (s : Sim) : option Sim :=
  match n with
  | O => Some s
  | S n' =>
      if finished s then Some s
      else
        match simStep s with
        | None => None
        | Some s' => runBatch_loop n' s'
        end
  end.

(** [stopSim()], the page left aside: the [renderSim()] it ends with only
    writes to the page (and throws on an empty [arms], reading
    [arms[b].name]; the runs studied below have arms). *)
Definition stopSim (s : Sim) : Sim :=
  mkSim (simMode s) false false (stepsPerTick s) (arms s) (allocHistory s)
    (simDone s) (simWinner s) (random s) (winnerBar s).

(** [showWinner()]: the winner is [simWinner], or the current best arm
    when [simWinner] is [null]. *)
Definition showWinner (s : Sim) : Sim :=
  let w := match simWinner s with
           | Some w => w
           | None => bestArmIdx (arms s)
           end in
  mkSim (simMode s) (simRunning s) (simTimer s) (stepsPerTick s) (arms s)
    (allocHistory s) (simDone s) (simWinner s) (random s)
    (mkOutcome w (totalPulls (arms s)) :: winnerBar s).

(** [runBatch()], its final [renderSim()] left aside as in [stopSim]. *)
Definition runBatch (s : Sim) : option Sim :=
  match runBatch_loop (stepsPerTick s) s with
  | None => None
  | Some s' => Some (if finished s' then showWinner (stopSim s') else s')
  end.

(** [startSim()] arms the timer on [runBatch]. *)
Definition startSim (s : Sim) : Sim :=
  mkSim (simMode s) true true (stepsPerTick s) (arms s) (allocHistory s)
    (simDone s) (simWinner s) (random s) (winnerBar s).

(** [resetSim()], the page and [renderSim()] left aside as in [stopSim]:
    the winner bar is hidden, what it showed before stays in the trace. *)
Definition resetSim (s : Sim) : Sim :=
  mkSim (simMode s) false false (stepsPerTick s) (map reset (arms s)) []
    false None (random s) (winnerBar s).

(** [pauseSim()], the page and [renderSim()] left aside as in [stopSim]. *)
Definition pauseSim (s : Sim) : Sim :=
  mkSim (simMode s) false false (stepsPerTick s) (arms s) (allocHistory s)
    (simDone s) (simWinner s) (random s) (winnerBar s).

(** [togglePlay()], the handler of the play button. *)
Definition togglePlay (s : Sim) : Sim :=
  if simDone s then resetSim s
  else if simRunning s then pauseSim s else startSim s.

(** The state the page starts in ([DOMContentLoaded]), with the values
    [rnd] the calls of [Math.random()] are going to return. *)
Definition initialSim (rnd : nat -> R) : Sim :=
  mkSim adaptive false false 15 (mapi (fun _ i => newArm i) DEFAULT_RATES) []
    false None rnd [].

(** One firing of the interval timer: [runBatch] is called while the timer
    is armed. *)
Definition tick (s : Sim) : option Sim :=
  if simTimer s then runBatch s else Some s.

(** [n] firings of the timer in a row. *)
Fixpoint ticks (n : nat) (s : Sim) : option Sim :=
  match n with
  | O => Some s
  | S n' =>
      match tick s with
      | None => None
      | Some s' => ticks n' s'
      end
  end.

(** ** Rounding *)

(** [Math.round(x)]: the integer [floor (x + 1/2)]. *)
Definition mathRound (x : R) : Z := Int_part (x + 0.5).

(** ** estimator.js: experiment duration estimator *)

Module Estimator.

Definition EST_BASE : R := 400.
Definition EST_ARMS_SCALE : R := 1.8.

(** The object [estimateDuration] returns; the three numbers are
    integers. *)
Record Estimate : Type := mkEstimate {
  adaptive : Z;
  uniform : Z;
  savings : Z
}.

(** [estimateDuration(delta, eps)], for [delta > 0] (the logarithm is
    infinite or undefined otherwise). *)
Definition estimateDuration (delta eps : R) : Estimate :=
  let deltaScale := ln (1 / delta) / ln (1 / 0.05) in
  let epsScale := if Rgtb eps 0.001 then (0.05 / eps) * 0.8 + 0.2 else 3.5 in
  let adaptRaw := EST_BASE * EST_ARMS_SCALE * deltaScale * epsScale in
  let adaptive := Z.max 80 (mathRound (adaptRaw / 50) * 50) in
  let uniform := Z.max 120 (mathRound (IZR adaptive * 1.45 / 50) * 50) in
  let savings := mathRound ((1 - IZR adaptive / IZR uniform) * 100) in
  mkEstimate adaptive uniform savings.

End Estimator.

(** ** ner-charts.js: static allocation charts *)

Module NerCharts.

(** The number of entries of [NER_VARIANTS]; labels and colours are
    presentation data and left out. *)
Definition NER_VARIANTS : nat := 4.

(** The ease-in-out curve of [makeNerData]. *)
Definition ease (t : R) : R :=
  if Rltb t 0.5 then 2 * t * t else -1 + (4 - 2 * t) * t.

Definition noise (i vi : nat) : R :=
  sin (INR i * 13.7 + INR vi * 5.3) * 0.015 + sin (INR i * 7.1 + INR vi) * 0.01.

(** The value pushed for variant [vi] at step [i], for [n >= 1] (with
    [n = 0] the source divides 0 by 0); [None] is the [NaN] that comes of an
    allocation array too short for [vi]. *)
Definition dataPoint (n : nat) (startAllocs endAllocs : list R) (i vi : nat)
  : option R :=
  match nth_error startAllocs vi, nth_error endAllocs vi with
  | Some s, Some e =>
      let t := INR i / INR n in
      let val := s + (e - s) * ease t in
      Some (Rmax 0.01 (Rmin 1 (val + noise i vi)))
  | _, _ => None
  end.

(** The body of the loop over [i], on the labels and the data arrays built
    so far. *)
Definition nerStep (n : nat) (startAllocs endAllocs : list R)
    (totalInferences : R) (i : nat)
    (acc : list R * list (list (option R))) : list R * list (list (option R)) :=
  (fst acc ++ [INR i * (totalInferences / INR n)],
   mapi (fun data vi => data ++ [dataPoint n startAllocs endAllocs i vi])
     (snd acc)).

(** The loop [for (i = 0; i <= n; i++)], from [i] with [k] iterations
    left. *)
Fixpoint nerLoop (n : nat) (startAllocs endAllocs : list R)
    (totalInferences : R) (k i : nat)
    (acc : list R * list (list (option R))) : list R * list (list (option R)) :=
  match k with
  | O => acc
  | S k' =>
      nerLoop n startAllocs endAllocs totalInferences k' (S i)
        (nerStep n startAllocs endAllocs totalInferences i acc)
  end.

(** [makeNerData(n, startAllocs, endAllocs, totalInferences)]: the labels
    and, per variant, the data. *)
Definition makeNerData (n : nat) (startAllocs endAllocs : list R)
    (totalInferences : R) : list R * list (list (option R)) :=
  nerLoop n startAllocs endAllocs totalInferences (S n) 0
    ([], map (fun _ => []) (seq 0 NER_VARIANTS)).

End NerCharts.

(** ** Controls and rendering *)

(** [setRate(i, v)]: the slider value [v], in per cent, becomes the true
    rate of arm [i]; [None] when [arms[i]] is [undefined]. *)
Definition setRate (i : nat) (v : R) (arms : list Arm) : option (list Arm) :=
  match nth_error arms i with
  | Some a => Some (assign arms i (mkArm (idx a) (v / 100) (pulls a) (successes a)))
  | None => None
  end.

(** The percentages [renderAllocBars] writes on the bars, one per arm:
    [Math.round(alloc[i] * 100)].  The allocation has an entry for every
    arm; [None] when computing it throws. *)
Definition renderAllocBars (s : Sim) : option (list Z) :=
  match modeAlloc (simMode s) (arms s) with
  | None => None
  | Some alloc => Some (mapi (fun _ i => mathRound (nth i alloc 0 * 100)) (arms s))
  end.

(** ** Vocabulary of the statements *)

(** [b] leads the first [i] arms: it is in range, no arm before [i] has a
    larger mean, and every arm before [b] has a smaller one. *)
Definition leads (arms : list Arm) (i b : nat) : Prop :=
  exists ab, nth_error arms b = Some ab /\
    (forall j a, (j < i)%nat -> nth_error arms j = Some a -> mean a <= mean ab) /\
    (forall j a, (j < b)%nat -> nth_error arms j = Some a -> mean a < mean ab).

(** The running sum the loop of [selectArm] holds after it has added the
    entries [0..j] of [alloc] to [cum]. *)
Definition cumFrom (cum : R) (alloc : list R) (j : nat) : R :=
  fold_left Rplus (firstn (S j) alloc) cum.

(** The cumulative weight of index [j]. *)
Definition cumWeight (alloc : list R) (j : nat) : R := cumFrom 0 alloc j.

(** The sum of a sequence, added from the left. *)
Definition total (l : list R) : R := fold_left Rplus l 0.

(** The state invariant of the driver between two calls: there are arms,
    [simWinner] is the best arm when [simDone] is set and [null] otherwise,
    and [simDone] is set exactly when the stopping rule holds of the arms
    as they are. *)
Definition consistent (s : Sim) : Prop :=
  arms s <> [] /\
  simWinner s = (if simDone s then Some (bestArmIdx (arms s)) else None) /\
  simDone s = shouldStop (arms s).

(** A run that goes on: not finished, timer armed, winner bar as it was
    ([shown]) when the run started. *)
Definition running (shown : list SimulationOutcome) (s : Sim) : Prop :=
  finished s = false /\ simTimer s = true /\ winnerBar s = shown.

(** A run that has ended: finished, timer cleared, and one outcome, that of
    the final state, added to the winner bar. *)
Definition ended (shown : list SimulationOutcome) (s : Sim) : Prop :=
  finished s = true /\ simTimer s = false /\ simRunning s = false /\
  winnerBar s = mkOutcome (bestArmIdx (arms s)) (totalPulls (arms s)) :: shown.


(** The clamp of [klBern]. *)
Definition clampProb (x : R) : R := Rmax 1e-9 (Rmin (1 - 1e-9) x).

(** The cumulative weight before index [i]. *)
Definition cumBefore (alloc : list R) (i : nat) : R :=
  match i with
  | O => 0
  | S j => cumWeight alloc j
  end.

(** A snapshot of the history of a simulation with [K] arms: taken at a
    multiple of [CHART_SAMPLE] pulls, holding a distribution over the [K]
    arms. *)
Definition snapshotOK (K : nat) (e : Z * list R) : Prop :=
  (fst e mod CHART_SAMPLE = 0)%Z /\
  length (snd e) = K /\
  Forall (fun x => 0 < x) (snd e) /\
  total (snd e) = 1.

(** A well-formed history: well-formed snapshots, in strictly increasing
    order of their pull counts, none later than the current count. *)
Definition historyOK (s : Sim) : Prop :=
  Forall (snapshotOK (length (arms s))) (allocHistory s) /\
  StronglySorted Z.lt (map fst (allocHistory s)) /\
  Forall (fun e => (fst e <= totalPulls (arms s))%Z) (allocHistory s).

(** Two arms with the same counters. *)
Definition sameStats (a a' : Arm) : Prop :=
  pulls a = pulls a' /\ successes a = successes a'.

(** The sum of a list of integers. *)
Definition sumZ (l : list Z) : Z := fold_right Z.add 0%Z l.
(** The arms of the page when only the first has been pulled, [k] times
    with [k] successes. *)
Definition firstArmOnly (k : Z) : list Arm :=
  [mkArm 0 0.55 k k; mkArm 1 0.45 0 0; mkArm 2 0.72 0 0; mkArm 3 0.48 0 0].

(** What holds along the run of the page on which every call of
    [Math.random()] returns 0: only the first arm is pulled, always with
    success, and the stopping rule never fires. *)
Definition zeroDraws (s : Sim) : Prop :=
  exists k, (0 <= k <= MAX_STEPS)%Z /\
    arms s = firstArmOnly k /\ simMode s = adaptive /\
    simDone s = false /\ simWinner s = None /\
    forall n, random s n = 0.

(** ** Sample inputs *)

Definition sampleAlloc : list R := [0.25; 0.25; 0.5].

(** Three arms after the warm-up; the second and third tie for the best
    mean. *)
Definition sampleArms : list Arm :=
  [mkArm 0 0.55 12 6; mkArm 1 0.45 12 9; mkArm 2 0.72 12 9].

(** The four arms of the page after six pulls each, with 0, 3, 6 and 4
    successes. *)
Definition roundingArms : list Arm :=
  [mkArm 0 0.55 6 0; mkArm 1 0.45 6 3; mkArm 2 0.72 6 6; mkArm 3 0.48 6 4].

(** The page at its start, every random draw being 0. *)
Definition sampleSim : Sim := initialSim (fun _ => 0).

(** Two arms after twelve pulls each, one always and one never
    successful. *)
Definition decidedArms : list Arm := [mkArm 0 0.55 12 12; mkArm 1 0.45 12 0].
(** Two arms in uniform mode one pull before [decidedArms], every random
    draw being 0.9: the next step selects the second arm, which fails. *)
Definition decidingSim : Sim :=
  mkSim uniform false false 15 [mkArm 0 0.55 12 12; mkArm 1 0.45 11 0] []
    false None (fun _ => 0.9) [].

(** [decidingSim] after the batch that takes that step. *)
Definition decidedSim : Sim :=
  mkSim uniform false false 15 decidedArms [] true (Some 0%nat) (fun _ => 0.9)
    [mkOutcome 0 24].

(** Two nearly equal arguments of [klBern], as the binary64 numbers the
    literals [0.5] and [0.5000000001] denote. *)
Definition nearP : float := 0.5%float.
Definition nearQ : float := 0.5000000001%float.

(** * Properties *)

(** ** Comparisons *)

Lemma Rltb_true x y : Rltb x y = true <-> x < y.
Proof. unfold Rltb; destruct (Rlt_dec x y); split; intros; try easy. Qed.

Lemma Rltb_false x y : Rltb x y = false <-> y <= x.
Proof.
  unfold Rltb; destruct (Rlt_dec x y); split; intros; try easy; lra.
Qed.

Lemma Rleb_true x y : Rleb x y = true <-> x <= y.
Proof. unfold Rleb; destruct (Rle_dec x y); split; intros; try easy. Qed.

Lemma Rleb_false x y : Rleb x y = false <-> y < x.
Proof.
  unfold Rleb; destruct (Rle_dec x y); split; intros; try easy; lra.
Qed.

Lemma Rgtb_true x y : Rgtb x y = true <-> y < x.
Proof. apply Rltb_true. Qed.

Lemma Rgtb_false x y : Rgtb x y = false <-> x <= y.
Proof. apply Rltb_false. Qed.

(** ** ArmState *)

Lemma mean_pulled (a : Arm) :
  (pulls a <> 0)%Z -> mean a = IZR (successes a) / IZR (pulls a).
Proof.
  intros Hp. unfold mean.
  destruct (Z.eqb_spec (pulls a) 0) as [E | _]; [contradiction | reflexivity].
Qed.

Lemma mean_unpulled (a : Arm) : pulls a = 0%Z -> mean a = 0.5.
Proof. intros Hp. unfold mean. rewrite Hp. reflexivity. Qed.

Lemma mean_bounds (a : Arm) : valid a -> 0 <= mean a <= 1.
Proof.
  intros [Hs Hp]. unfold mean.
  destruct (Z.eqb_spec (pulls a) 0) as [E | N]; [lra |].
  assert (Hpos : 0 < IZR (pulls a)) by (apply IZR_lt; lia).
  assert (H0 : 0 <= IZR (successes a)) by (apply IZR_le; lia).
  assert (H1 : IZR (successes a) <= IZR (pulls a)) by (apply IZR_le; lia).
  split.
  - apply Rmult_le_pos; [assumption | left; apply Rinv_0_lt_compat; assumption].
  - apply (Rmult_le_reg_r (IZR (pulls a))); [assumption |].
    unfold Rdiv. rewrite Rmult_assoc, Rinv_l by lra. lra.
Qed.

(** C9: for an arm with [0 <= successes <= pulls], the mean estimate lies
    in [[0,1]], is [successes/pulls] when [pulls > 0], and is exactly
    0.5 when [pulls = 0]. *)
Theorem mean_estimate_spec (a : Arm) :
  valid a ->
  0 <= mean a <= 1 /\
  ((0 < pulls a)%Z -> mean a = IZR (successes a) / IZR (pulls a)) /\
  (pulls a = 0%Z -> mean a = 0.5).
Proof.
  intros Hv. split; [apply mean_bounds; assumption |]. split.
  - intros Hp. apply mean_pulled. lia.
  - apply mean_unpulled.
Qed.

Lemma mean_estimate_spec_witness :
  valid (mkArm 0 0.55 12 7) /\
  0 <= mean (mkArm 0 0.55 12 7) <= 1 /\
  ((0 < 12)%Z -> mean (mkArm 0 0.55 12 7) = IZR 7 / IZR 12) /\
  (12%Z = 0%Z -> mean (mkArm 0 0.55 12 7) = 0.5).
Proof.
  split.
  - unfold valid; simpl; lia.
  - apply (mean_estimate_spec (mkArm 0 0.55 12 7)). unfold valid; simpl; lia.
Defined.

(** ** Best arm *)

Section BestArm.
Variable arms : list Arm.

Lemma leads_step (i b : nat) (x : Arm) :
  nth_error arms i = Some x -> leads arms i b ->
  leads arms (S i) (bestStep arms b x i).
Proof.
  intros Hx (ab & Hb & Hle & Hlt). unfold bestStep, beats. rewrite Hb.
  destruct (Rgtb (mean x) (mean ab)) eqn:E.
  - apply Rgtb_true in E. exists x. split; [assumption |]. split.
    + intros j a Hj Ha. destruct (Nat.eq_dec j i) as [-> | Hne].
      * rewrite Hx in Ha. injection Ha as <-. lra.
      * specialize (Hle j a ltac:(lia) Ha). lra.
    + intros j a Hj Ha. specialize (Hle j a Hj Ha). lra.
  - apply Rgtb_false in E. exists ab. split; [assumption |]. split.
    + intros j a Hj Ha. destruct (Nat.eq_dec j i) as [-> | Hne].
      * rewrite Hx in Ha. injection Ha as <-. assumption.
      * apply (Hle j a); [lia | assumption].
    + assumption.
Qed.

Lemma reduce_leads (rest : list Arm) :
  forall (pre : list Arm) (b : nat),
    arms = pre ++ rest -> leads arms (length pre) b ->
    leads arms (length arms) (reduce_from (bestStep arms) (length pre) rest b).
Proof.
  induction rest as [| x rest IH]; intros pre b Harms Hl.
  - simpl. rewrite Harms at 2. rewrite app_nil_r. assumption.
  - simpl.
    replace (S (length pre)) with (length (pre ++ [x]))
      by (rewrite length_app; simpl; lia).
    apply IH.
    + rewrite <- app_assoc. assumption.
    + rewrite length_app; simpl. rewrite Nat.add_1_r.
      apply leads_step; [| assumption].
      rewrite Harms, nth_error_app2 by lia. rewrite Nat.sub_diag. reflexivity.
Qed.

Lemma bestArmIdx_leads :
  arms <> [] -> leads arms (length arms) (bestArmIdx arms).
Proof.
  intros Hne. unfold bestArmIdx, reduce.
  apply (reduce_leads arms [] 0%nat); [reflexivity |].
  destruct (nth_error arms 0) as [a0 |] eqn:E0.
  - exists a0. split; [assumption |]. split; intros j a Hj; simpl in Hj; lia.
  - apply nth_error_None in E0. destruct arms; [contradiction | simpl in E0; lia].
Qed.
End BestArm.

Lemma bestArmIdx_lt (arms : list Arm) :
  arms <> [] -> (bestArmIdx arms < length arms)%nat.
Proof.
  intros Hne. destruct (bestArmIdx_leads arms Hne) as (ab & Hb & _).
  apply nth_error_Some. rewrite Hb. discriminate.
Qed.

(** C10: on a non-empty list of arms [bestArmIdx] returns an index in
    range whose arm has the maximal mean, and every arm at a lower index
    has a strictly smaller mean: the first arm of maximal mean wins. *)
Theorem bestArmIdx_first_max (arms : list Arm) :
  arms <> [] ->
  exists ab,
    nth_error arms (bestArmIdx arms) = Some ab /\
    (forall j a, nth_error arms j = Some a -> mean a <= mean ab) /\
    (forall j a, (j < bestArmIdx arms)%nat -> nth_error arms j = Some a ->
                 mean a < mean ab).
Proof.
  intros Hne. destruct (bestArmIdx_leads arms Hne) as (ab & Hb & Hle & Hlt).
  exists ab. split; [assumption |]. split; [| assumption].
  intros j a Ha. apply (Hle j a); [| assumption].
  apply nth_error_Some. rewrite Ha. discriminate.
Qed.

Lemma bestArmIdx_first_max_witness :
  sampleArms <> [] /\
  exists ab,
    nth_error sampleArms (bestArmIdx sampleArms) = Some ab /\
    (forall j a, nth_error sampleArms j = Some a -> mean a <= mean ab) /\
    (forall j a, (j < bestArmIdx sampleArms)%nat ->
                 nth_error sampleArms j = Some a -> mean a < mean ab).
Proof.
  split; [discriminate |].
  apply (bestArmIdx_first_max sampleArms). discriminate.
Defined.

(** ** Divergence *)

Lemma clamp_bounds (x : R) :
  1e-9 <= Rmax 1e-9 (Rmin (1 - 1e-9) x) <= 1 - 1e-9.
Proof.
  unfold Rmax, Rmin.
  destruct (Rle_dec (1 - 1e-9) x); destruct (Rle_dec _ _); lra.
Qed.

Lemma clamp_id (x : R) :
  1e-9 <= x <= 1 - 1e-9 -> Rmax 1e-9 (Rmin (1 - 1e-9) x) = x.
Proof.
  intros H. unfold Rmax, Rmin.
  destruct (Rle_dec (1 - 1e-9) x); destruct (Rle_dec _ _); lra.
Qed.

Lemma ln_le_pred (x : R) : 0 < x -> ln x <= x - 1.
Proof.
  intros Hx. pose proof (exp_ineq1_le (ln x)) as H.
  rewrite exp_ln in H by assumption. lra.
Qed.

(** Gibbs' inequality for two Bernoulli laws. *)
Lemma kl_nonneg (a b : R) :
  0 < a < 1 -> 0 < b < 1 ->
  0 <= a * ln (a / b) + (1 - a) * ln ((1 - a) / (1 - b)).
Proof.
  intros Ha Hb.
  assert (H1 : a * ln (b / a) <= b - a).
  { pose proof (ln_le_pred (b / a)) as H.
    assert (Hq : 0 < b / a) by (apply Rdiv_lt_0_compat; lra).
    specialize (H Hq).
    apply Rle_trans with (a * (b / a - 1)).
    - apply Rmult_le_compat_l; lra.
    - right. field. lra. }
  assert (H2 : (1 - a) * ln ((1 - b) / (1 - a)) <= a - b).
  { pose proof (ln_le_pred ((1 - b) / (1 - a))) as H.
    assert (Hq : 0 < (1 - b) / (1 - a)) by (apply Rdiv_lt_0_compat; lra).
    specialize (H Hq).
    apply Rle_trans with ((1 - a) * ((1 - b) / (1 - a) - 1)).
    - apply Rmult_le_compat_l; lra.
    - right. field. lra. }
  assert (E1 : ln (a / b) = - ln (b / a)).
  { unfold Rdiv. rewrite !ln_mult, !ln_Rinv; try lra;
      apply Rinv_0_lt_compat; lra. }
  assert (E2 : ln ((1 - a) / (1 - b)) = - ln ((1 - b) / (1 - a))).
  { unfold Rdiv. rewrite !ln_mult, !ln_Rinv; try lra;
      apply Rinv_0_lt_compat; lra. }
  rewrite E1, E2. lra.
Qed.

Lemma klBern_nonneg (p q : R) : 0 <= klBern p q.
Proof.
  unfold klBern.
  pose proof (clamp_bounds p). pose proof (clamp_bounds q).
  apply kl_nonneg; lra.
Qed.

Lemma klBern_same (p : R) : klBern p p = 0.
Proof.
  unfold klBern. pose proof (clamp_bounds p) as H.
  set (c := Rmax 1e-9 (Rmin (1 - 1e-9) p)) in *.
  unfold Rdiv. rewrite !Rinv_r by lra. rewrite ln_1. ring.
Qed.

(** C5, amended: in exact arithmetic [klBern p p = 0] for [p] in the open
    unit interval, and for all inputs the value of the expression of the
    function at the clamped arguments,
    [p' ln (p'/q') + (1-p') ln ((1-p')/(1-q'))], is non-negative. *)
Theorem klBern_zero_and_nonneg (p q : R) :
  (0 < p < 1 -> klBern p p = 0) /\
  (let p' := Rmax 1e-9 (Rmin (1 - 1e-9) p) in
   let q' := Rmax 1e-9 (Rmin (1 - 1e-9) q) in
   klBern p q = p' * ln (p' / q') + (1 - p') * ln ((1 - p') / (1 - q')) /\
   0 <= p' * ln (p' / q') + (1 - p') * ln ((1 - p') / (1 - q'))).
Proof.
  split.
  - intros _. apply klBern_same.
  - split; [reflexivity | apply (klBern_nonneg p q)].
Qed.

Lemma klBern_zero_and_nonneg_witness :
  0 < 0.3 < 1 /\ klBern 0.3 0.3 = 0 /\ 0 <= klBern 0.3 0.7.
Proof.
  assert (H : 0 < 0.3 < 1) by lra.
  destruct (klBern_zero_and_nonneg 0.3 0.7) as [Hz [Hf Hn]].
  split; [exact H |]. split; [exact (Hz H) |].
  rewrite Hf. exact Hn.
Defined.

(** The two quotients [klBern(0.5, 0.5000000001)] takes the logarithm of,
    as binary64 divides them. *)
Lemma nearHalf_quotients :
  Binary64.toR (PrimFloat.div nearP nearQ)
  = 9007199252939552 / 9007199254740992 /\
  Binary64.toR (PrimFloat.div (PrimFloat.sub 1 nearP) (PrimFloat.sub 1 nearQ))
  = 4503599628271216 / 4503599627370496.
Proof.
  unfold Binary64.toR.
  replace (Prim2SF (PrimFloat.div nearP nearQ))
    with (S754_finite false 9007199252939552 (-53)) by (vm_compute; reflexivity).
  replace (Prim2SF (PrimFloat.div (PrimFloat.sub 1 nearP) (PrimFloat.sub 1 nearQ)))
    with (S754_finite false 4503599628271216 (-52)) by (vm_compute; reflexivity).
  split; reflexivity.
Qed.

(** C5, as stated, fails of the value the code computes.  For [p = 0.5] and
    [q = 0.5000000001] the clamp changes nothing and the code returns
    [0.5 * log x + 0.5 * log y] for the binary64 quotients [x] of [p / q]
    and [y] of [(1 - p) / (1 - q)].  Their product is below 1 by more than
    [3e-20], so with the exact logarithm the value is below [-1.5e-20],
    and it is negative with any [Math.log] that is within [1e-21] of the
    logarithm at [x] and [y] (their logarithms are about [-2e-10] and
    [2e-10]; the two products by 0.5 are exact in binary64 and a binary64
    sum has the sign of the exact sum). *)
Lemma binary64_klBern_negative :
  (forall log,
     Binary64.klBern log nearP nearQ
     = PrimFloat.add
         (PrimFloat.mul 0.5 (log (PrimFloat.div nearP nearQ)))
         (PrimFloat.mul 0.5
            (log (PrimFloat.div (PrimFloat.sub 1 nearP) (PrimFloat.sub 1 nearQ))))) /\
  Binary64.toR 0.5 = 0.5 /\
  Binary64.toR 0.5 * ln (Binary64.toR (PrimFloat.div nearP nearQ))
  + Binary64.toR 0.5
    * ln (Binary64.toR (PrimFloat.div (PrimFloat.sub 1 nearP) (PrimFloat.sub 1 nearQ)))
  < - 1.5e-20 /\
  (forall lx ly : R,
     Rabs (lx - ln (Binary64.toR (PrimFloat.div nearP nearQ))) <= 1e-21 ->
     Rabs (ly - ln (Binary64.toR (PrimFloat.div (PrimFloat.sub 1 nearP)
                                    (PrimFloat.sub 1 nearQ)))) <= 1e-21 ->
     Binary64.toR 0.5 * lx + Binary64.toR 0.5 * ly < 0).
Proof.
  destruct nearHalf_quotients as [Ex Ey]. rewrite Ex, Ey.
  assert (Eh : Binary64.toR 0.5 = 0.5).
  { unfold Binary64.toR.
    replace (Prim2SF 0.5) with (S754_finite false 4503599627370496 (-53))
      by (vm_compute; reflexivity).
    cbv iota beta zeta.
    change (0 <=? -53)%Z with false. cbv iota.
    change (2 ^ (- -53))%Z with 9007199254740992%Z. lra. }
  rewrite Eh.
  set (x := 9007199252939552 / 9007199254740992).
  set (y := 4503599628271216 / 4503599627370496).
  assert (Hx : 0 < x) by (unfold x; lra).
  assert (Hy : 0 < y) by (unfold y; lra).
  assert (Hprod : x * y <= 1 - 4e-20) by (unfold x, y; lra).
  assert (Hln : ln x + ln y <= - 4e-20).
  { rewrite <- ln_mult by assumption.
    pose proof (ln_le_pred (x * y) (Rmult_lt_0_compat x y Hx Hy)). lra. }
  split; [intros log; reflexivity |]. split; [reflexivity |].
  split; [lra |].
  intros lx ly Hlx Hly.
  unfold Rabs in Hlx, Hly.
  destruct (Rcase_abs _) in Hlx; destruct (Rcase_abs _) in Hly; lra.
Qed.

(** ** Stopping threshold *)

Lemma exp_1_gt_1 : 1 < exp 1.
Proof. pose proof (exp_ineq1 1). lra. Qed.

Lemma ln_le_mono (x y : R) : 0 < x -> x <= y -> ln x <= ln y.
Proof.
  intros Hx [Hlt | ->]; [left; apply ln_increasing; assumption | right; reflexivity].
Qed.

Lemma log_term_pos (t : R) : 0 <= t -> 0 < ln (t + exp 1) + 1.
Proof.
  intros Ht. pose proof exp_1_gt_1.
  assert (0 < ln (t + exp 1)).
  { rewrite <- ln_1. apply ln_increasing; lra. }
  lra.
Qed.

(** C6: at a fixed [t >= 0] the stopping threshold does not grow when the
    error tolerance grows: for [0 < d1 <= d2 <= 1] its value at [d2] is
    at most its value at [d1]. *)
Theorem stoppingThreshold_antitone (t d1 d2 : R) :
  0 <= t -> 0 < d1 -> d1 <= d2 -> d2 <= 1 ->
  stoppingThresholdAt d2 t <= stoppingThresholdAt d1 t.
Proof.
  intros Ht H1 H12 H2. unfold stoppingThresholdAt.
  pose proof (log_term_pos t Ht) as HN.
  apply ln_le_mono.
  - apply Rdiv_lt_0_compat; lra.
  - unfold Rdiv. apply Rmult_le_compat_l; [lra |].
    apply Rinv_le_contravar; assumption.
Qed.

Lemma stoppingThreshold_antitone_witness :
  stoppingThresholdAt 0.10 100 <= stoppingThresholdAt 0.01 100.
Proof.
  apply (stoppingThreshold_antitone 100 0.01 0.10); lra.
Defined.

(** ** GLRT evaluator *)

(** C3: for arms [a] (best) and [b] (challenger) with
    [0 <= successes <= pulls], [glrtStat a b] is 0 when either has fewer
    than one pull or when [mean a <= mean b], and otherwise is
    [pulls a * KL(mean a, mean b) + pulls b * KL(mean b, mean a)]. *)
Theorem glrtStat_spec (a b : Arm) :
  valid a -> valid b ->
  (((pulls a < 1)%Z \/ (pulls b < 1)%Z \/ mean a <= mean b) -> glrtStat a b = 0) /\
  (~ ((pulls a < 1)%Z \/ (pulls b < 1)%Z \/ mean a <= mean b) ->
   glrtStat a b =
     IZR (pulls a) * klBern (mean a) (mean b) +
     IZR (pulls b) * klBern (mean b) (mean a)).
Proof.
  intros _ _. unfold glrtStat.
  destruct (Z.ltb_spec (pulls a) 1) as [Ha | Ha];
    destruct (Z.ltb_spec (pulls b) 1) as [Hb | Hb]; simpl;
    try (split; [reflexivity | intros H; exfalso; apply H; tauto]).
  destruct (Rleb (mean a) (mean b)) eqn:E.
  - apply Rleb_true in E.
    split; [reflexivity | intros H; exfalso; apply H; tauto].
  - apply Rleb_false in E. split; [| reflexivity].
    intros [H | [H | H]]; [lia | lia | lra].
Qed.

Lemma glrtStat_spec_witness :
  valid (mkArm 2 0.72 12 9) /\ valid (mkArm 1 0.45 12 6) /\
  ((((12 < 1)%Z \/ (12 < 1)%Z \/ mean (mkArm 2 0.72 12 9) <= mean (mkArm 1 0.45 12 6)) ->
    glrtStat (mkArm 2 0.72 12 9) (mkArm 1 0.45 12 6) = 0) /\
   (~ ((12 < 1)%Z \/ (12 < 1)%Z \/ mean (mkArm 2 0.72 12 9) <= mean (mkArm 1 0.45 12 6)) ->
    glrtStat (mkArm 2 0.72 12 9) (mkArm 1 0.45 12 6) =
      IZR 12 * klBern (mean (mkArm 2 0.72 12 9)) (mean (mkArm 1 0.45 12 6)) +
      IZR 12 * klBern (mean (mkArm 1 0.45 12 6)) (mean (mkArm 2 0.72 12 9)))).
Proof.
  assert (Ha : valid (mkArm 2 0.72 12 9)) by (unfold valid; simpl; lia).
  assert (Hb : valid (mkArm 1 0.45 12 6)) by (unfold valid; simpl; lia).
  split; [exact Ha |]. split; [exact Hb |].
  exact (glrtStat_spec _ _ Ha Hb).
Defined.

(** ** Arm selection *)

Lemma cumFrom_cons (cum a : R) (l : list R) (m : nat) :
  cumFrom cum (a :: l) (S m) = cumFrom (cum + a) l m.
Proof. reflexivity. Qed.

Lemma cumFrom_head (cum a : R) (l : list R) : cumFrom cum (a :: l) 0 = cum + a.
Proof. reflexivity. Qed.

(** What the loop returns: the first offset whose running sum reaches [r],
    or nothing when none does. *)
Lemma selectArm_loop_spec (r : R) (alloc : list R) :
  forall (cum : R) (i : nat),
    match selectArm_loop r alloc cum i with
    | Some k =>
        exists n, k = (i + n)%nat /\ (n < length alloc)%nat /\
                  r <= cumFrom cum alloc n /\
                  forall m, (m < n)%nat -> cumFrom cum alloc m < r
    | None => forall m, (m < length alloc)%nat -> cumFrom cum alloc m < r
    end.
Proof.
  induction alloc as [| a alloc IH]; intros cum i; simpl.
  - intros m Hm. lia.
  - destruct (Rleb r (cum + a)) eqn:E.
    + apply Rleb_true in E. exists 0%nat.
      repeat split; [lia | lia | rewrite cumFrom_head; assumption |].
      intros m Hm. lia.
    + apply Rleb_false in E. specialize (IH (cum + a) (S i)).
      destruct (selectArm_loop r alloc (cum + a) (S i)) as [k |].
      * destruct IH as (n & Hk & Hn & Hr & Hbefore).
        exists (S n). repeat split; [lia | lia | rewrite cumFrom_cons; assumption |].
        intros [| m] Hm; [rewrite cumFrom_head; assumption |].
        rewrite cumFrom_cons. apply Hbefore. lia.
      * intros [| m] Hm; [rewrite cumFrom_head; assumption |].
        rewrite cumFrom_cons. apply IH. lia.
Qed.

(** The index [selectArm] returns on a non-empty allocation, for any
    draw. *)
Lemma selectArm_spec (r : R) (alloc : list R) :
  alloc <> [] ->
  exists i : nat,
    selectArm r alloc = Z.of_nat i /\ (i < length alloc)%nat /\
    (forall j, (j < i)%nat -> cumWeight alloc j < r) /\
    (r <= cumWeight alloc i \/
     (i = (length alloc - 1)%nat /\
      forall j, (j < length alloc)%nat -> cumWeight alloc j < r)).
Proof.
  intros Hne. unfold selectArm, cumWeight.
  pose proof (selectArm_loop_spec r alloc 0 0) as H.
  assert (Hlen : (0 < length alloc)%nat)
    by (destruct alloc; [contradiction | simpl; lia]).
  destruct (selectArm_loop r alloc 0 0) as [k |].
  - destruct H as (n & -> & Hn & Hr & Hbefore). simpl.
    exists n. repeat split; try assumption. left. assumption.
  - exists (length alloc - 1)%nat. repeat split.
    + lia.
    + lia.
    + intros j Hj. apply H. lia.
    + right. split; [reflexivity | assumption].
Qed.

(** C7: on a non-empty allocation and a draw [r] in [[0,1)], [selectArm]
    returns an index [i] in [[0,K)], an index the allocation has, such that
    no index before [i] has a cumulative weight at or above [r], and either
    the cumulative weight of [i] is at or above [r], or no cumulative weight
    reaches [r] and [i] is the last index. *)
Theorem selectArm_first_reaching (r : R) (alloc : list R) :
  alloc <> [] -> 0 <= r < 1 ->
  exists i : nat,
    selectArm r alloc = Z.of_nat i /\
    (0 <= selectArm r alloc < Z.of_nat (length alloc))%Z /\
    nth_error alloc i <> None /\
    (forall j, (j < i)%nat -> cumWeight alloc j < r) /\
    (r <= cumWeight alloc i \/
     (i = (length alloc - 1)%nat /\
      forall j, (j < length alloc)%nat -> cumWeight alloc j < r)).
Proof.
  intros Hne _.
  destruct (selectArm_spec r alloc Hne) as (i & Hi & Hlt & Hbefore & Hat).
  exists i. split; [assumption |]. split; [rewrite Hi; lia |].
  split; [apply nth_error_Some; assumption |]. split; assumption.
Qed.

Lemma selectArm_first_reaching_witness :
  sampleAlloc <> [] /\ 0 <= 0.4 < 1 /\
  exists i : nat,
    selectArm 0.4 sampleAlloc = Z.of_nat i /\
    (0 <= selectArm 0.4%R sampleAlloc < Z.of_nat (length sampleAlloc))%Z /\
    nth_error sampleAlloc i <> None /\
    (forall j, (j < i)%nat -> cumWeight sampleAlloc j < 0.4) /\
    (0.4 <= cumWeight sampleAlloc i \/
     (i = (length sampleAlloc - 1)%nat /\
      forall j, (j < length sampleAlloc)%nat -> cumWeight sampleAlloc j < 0.4)).
Proof.
  assert (Hne : sampleAlloc <> []) by discriminate.
  assert (Hr : 0 <= 0.4 < 1) by lra.
  split; [exact Hne |]. split; [exact Hr |].
  exact (selectArm_first_reaching 0.4 sampleAlloc Hne Hr).
Defined.

(** ** Stopping rule *)

Lemma mathMin_spec (xs : list Z) :
  xs <> [] ->
  exists m, mathMin xs = Some m /\ In m xs /\ forall x, In x xs -> (m <= x)%Z.
Proof.
  induction xs as [| x xs IH]; intros Hne; [contradiction |].
  simpl. destruct xs as [| y ys].
  - simpl. exists x. split; [reflexivity |]. split; [left; reflexivity |].
    intros z [<- | []]. lia.
  - destruct IH as (m & -> & Hin & Hmin); [discriminate |].
    exists (Z.min x m). split; [reflexivity |]. split.
    + destruct (Z.min_spec x m) as [[_ ->] | [_ ->]];
        [left; reflexivity | right; assumption].
    + intros z [<- | Hz]; [lia |]. specialize (Hmin z Hz). lia.
Qed.

(** [minP < n] holds exactly when some arm has fewer than [n] pulls. *)
Lemma ltNum_minPulls (arms : list Arm) (n : Z) :
  arms <> [] ->
  (ltNum (minPulls arms) n = true <-> exists a, In a arms /\ (pulls a < n)%Z).
Proof.
  intros Hne. unfold minPulls.
  destruct (mathMin_spec (map pulls arms)) as (m & Hm & Hin & Hmin).
  { destruct arms; [contradiction | discriminate]. }
  rewrite Hm. simpl. rewrite Z.ltb_lt. split.
  - intros Hlt. apply in_map_iff in Hin. destruct Hin as (a & <- & Ha).
    exists a. split; assumption.
  - intros (a & Ha & Hlt).
    specialize (Hmin (pulls a) (in_map pulls arms a Ha)). lia.
Qed.

Lemma ltNum_minPulls_false (arms : list Arm) (n : Z) :
  arms <> [] ->
  (ltNum (minPulls arms) n = false <-> forall a, In a arms -> (n <= pulls a)%Z).
Proof.
  intros Hne. pose proof (ltNum_minPulls arms n Hne) as H.
  destruct (ltNum (minPulls arms) n); split; intros H'; try reflexivity.
  - discriminate.
  - destruct (proj1 H eq_refl) as (a & Ha & Hlt). specialize (H' a Ha). lia.
  - intros a Ha. destruct (Z.le_gt_cases n (pulls a)) as [Hle | Hgt]; [assumption |].
    assert (C : false = true) by (apply H; exists a; split; [assumption | lia]).
    discriminate C.
Qed.

(** The loop answers [true] exactly when no arm other than [best] is below
    the threshold. *)
Lemma shouldStop_loop_true (arms : list Arm) (best : nat) (thresh : R)
    (rest : list Arm) :
  forall i,
    shouldStop_loop arms best thresh i rest = true <->
    forall k a, nth_error rest k = Some a -> (i + k)%nat <> best ->
                belowThreshold arms best a thresh = false.
Proof.
  induction rest as [| x rest IH]; intros i; simpl.
  - split; [| reflexivity]. intros _ k a Hk. destruct k; discriminate.
  - destruct (Nat.eqb_spec i best) as [E | N].
    + rewrite IH. split.
      * intros H [| k] a Hk Hne; [lia |].
        apply (H k a Hk). lia.
      * intros H k a Hk Hne. apply (H (S k) a Hk). lia.
    + destruct (belowThreshold arms best x thresh) eqn:B.
      * split; [discriminate |]. intros H.
        specialize (H 0%nat x eq_refl ltac:(lia)). congruence.
      * rewrite IH. split.
        -- intros H [| k] a Hk Hne.
           ++ injection Hk as <-. assumption.
           ++ apply (H k a Hk). lia.
        -- intros H k a Hk Hne. apply (H (S k) a Hk). lia.
Qed.

Lemma totalPulls_from (l : list Arm) :
  forall (i : nat) (acc : Z),
    reduce_from (fun s a _ => (s + pulls a)%Z) i l acc
    = (acc + fold_right Z.add 0 (map pulls l))%Z.
Proof.
  induction l as [| a l IH]; intros i acc; simpl; [lia |].
  rewrite IH. lia.
Qed.

(** [totalPulls] is the sum of the pull counts. *)
Lemma totalPulls_sum (arms : list Arm) :
  totalPulls arms = fold_right Z.add 0%Z (map pulls arms).
Proof. unfold totalPulls, reduce. rewrite totalPulls_from. lia. Qed.

(** C1: on a non-empty list of valid arms, [shouldStop] answers [false]
    when some arm has fewer than 12 pulls (the minimum is below 12); when
    every arm has at least 12, it answers [true] if and only if every arm
    other than the best has a GLRT statistic against the best arm at or
    above [ln ((ln (t + e) + 1) / DELTA)], [t] the sum of the pull counts. *)
Theorem shouldStop_spec (arms : list Arm) :
  arms <> [] -> Forall valid arms ->
  ((exists a, In a arms /\ (pulls a < 12)%Z) -> shouldStop arms = false) /\
  ((forall a, In a arms -> (12 <= pulls a)%Z) ->
   exists ab t,
     nth_error arms (bestArmIdx arms) = Some ab /\
     t = IZR (fold_right Z.add 0%Z (map pulls arms)) /\
     (shouldStop arms = true <->
      forall i a, i <> bestArmIdx arms -> nth_error arms i = Some a ->
                  ln ((ln (t + exp 1) + 1) / DELTA) <= glrtStat ab a)).
Proof.
  intros Hne _. split.
  - intros Hex. unfold shouldStop.
    rewrite (proj2 (ltNum_minPulls arms 12 Hne) Hex). reflexivity.
  - intros Hall.
    destruct (bestArmIdx_leads arms Hne) as (ab & Hb & _).
    exists ab, (IZR (fold_right Z.add 0%Z (map pulls arms))).
    split; [assumption |]. split; [reflexivity |].
    unfold shouldStop.
    rewrite (proj2 (ltNum_minPulls_false arms 12 Hne) Hall).
    rewrite shouldStop_loop_true, totalPulls_sum.
    unfold belowThreshold. rewrite Hb.
    unfold stoppingThreshold, stoppingThresholdAt.
    split.
    + intros H i a Hi Ha. apply Rltb_false. apply (H i a Ha). simpl. lia.
    + intros H k a Ha Hk. apply Rltb_false. apply (H k a); [simpl in Hk; lia | assumption].
Qed.

Lemma shouldStop_spec_witness :
  sampleArms <> [] /\ Forall valid sampleArms /\
  ((exists a, In a sampleArms /\ (pulls a < 12)%Z) -> shouldStop sampleArms = false) /\
  ((forall a, In a sampleArms -> (12 <= pulls a)%Z) ->
   exists ab t,
     nth_error sampleArms (bestArmIdx sampleArms) = Some ab /\
     t = IZR (fold_right Z.add 0%Z (map pulls sampleArms)) /\
     (shouldStop sampleArms = true <->
      forall i a, i <> bestArmIdx sampleArms -> nth_error sampleArms i = Some a ->
                  ln ((ln (t + exp 1) + 1) / DELTA) <= glrtStat ab a)).
Proof.
  assert (Hne : sampleArms <> []) by discriminate.
  assert (Hv : Forall valid sampleArms)
    by (repeat constructor; unfold valid; simpl; lia).
  split; [exact Hne |]. split; [exact Hv |].
  exact (shouldStop_spec sampleArms Hne Hv).
Defined.

(** ** Allocator *)

Lemma nth_error_map_from {A B : Type} (f : A -> nat -> B) (l : list A) :
  forall i j, nth_error (map_from f i l) j
              = option_map (fun x => f x (i + j)%nat) (nth_error l j).
Proof.
  induction l as [| x l IH]; intros i [| j]; simpl; try reflexivity.
  - rewrite Nat.add_0_r. reflexivity.
  - rewrite IH. replace (S i + j)%nat with (i + S j)%nat by lia. reflexivity.
Qed.

Lemma length_map_from {A B : Type} (f : A -> nat -> B) (l : list A) :
  forall i, length (map_from f i l) = length l.
Proof. induction l as [| x l IH]; intros i; simpl; [| rewrite IH]; reflexivity. Qed.

Lemma length_assign {A : Type} (l : list A) :
  forall i v, length (assign l i v) = length l.
Proof.
  induction l as [| x l IH]; intros [| i] v; simpl; try reflexivity.
  rewrite IH. reflexivity.
Qed.

Lemma nth_error_assign_same {A : Type} (l : list A) :
  forall i v, (i < length l)%nat -> nth_error (assign l i v) i = Some v.
Proof.
  induction l as [| x l IH]; intros [| i] v Hi; simpl in *; try lia; try reflexivity.
  apply IH. lia.
Qed.

Lemma nth_error_assign_other {A : Type} (l : list A) :
  forall i j v, i <> j -> nth_error (assign l i v) j = nth_error l j.
Proof.
  induction l as [| x l IH]; intros [| i] [| j] v Hne; simpl; try reflexivity;
    try contradiction.
  apply IH. lia.
Qed.

(** Sums *)

Lemma fold_left_Rplus_acc (l : list R) :
  forall acc, fold_left Rplus l acc = acc + fold_left Rplus l 0.
Proof.
  induction l as [| x l IH]; intros acc; simpl; [lra |].
  rewrite (IH (acc + x)), (IH (0 + x)). lra.
Qed.

Lemma total_cons (x : R) (l : list R) : total (x :: l) = x + total l.
Proof. unfold total. simpl. rewrite fold_left_Rplus_acc. lra. Qed.

Lemma total_scaled (c : R) (l : list R) :
  total (map (fun x => x / c) l) = total l / c.
Proof.
  induction l as [| x l IH]; simpl.
  - unfold total; simpl. lra.
  - rewrite !total_cons, IH. lra.
Qed.

Lemma total_pos (l : list R) : l <> [] -> Forall (fun x => 0 < x) l -> 0 < total l.
Proof.
  induction l as [| x l IH]; intros Hne Hall; [contradiction |].
  rewrite total_cons. inversion Hall as [| ? ? Hx Hl]; subst.
  destruct l as [| y l'].
  - unfold total; simpl. lra.
  - assert (0 < total (y :: l')) by (apply IH; [discriminate | assumption]). lra.
Qed.

Lemma total_const (c : R) {A : Type} (l : list A) :
  total (map (fun _ => c) l) = INR (length l) * c.
Proof.
  induction l as [| x l IH]; [unfold total; simpl; lra |].
  change (map (fun _ : A => c) (x :: l)) with (c :: map (fun _ : A => c) l).
  rewrite total_cons, IH. change (length (x :: l)) with (S (length l)).
  rewrite S_INR. lra.
Qed.

Lemma reduce_sum_from (w : list (option R)) :
  forall i acc,
    reduce_from (fun s v _ => s + num v) i w acc = fold_left Rplus (map num w) acc.
Proof.
  induction w as [| v w IH]; intros i acc; simpl; [reflexivity | apply IH].
Qed.

(** The reduction that sums the weights is the sum of their numbers. *)
Lemma reduce_sum (w : list (option R)) :
  reduce (fun s v _ => s + num v) w 0 = total (map num w).
Proof. apply reduce_sum_from. Qed.

Lemma total_nonneg (l : list R) : Forall (fun x => 0 <= x) l -> 0 <= total l.
Proof.
  induction 1 as [| x l Hx Hl IH]; [unfold total; simpl; lra |].
  rewrite total_cons. lra.
Qed.

Lemma total_ge_entry (l : list R) :
  Forall (fun x => 0 <= x) l ->
  forall j x, nth_error l j = Some x -> x <= total l.
Proof.
  induction 1 as [| y l Hy Hl IH]; intros [| j] x Hx; simpl in Hx; try discriminate.
  - injection Hx as <-. rewrite total_cons.
    pose proof (total_nonneg l Hl). lra.
  - rewrite total_cons. specialize (IH j x Hx). lra.
Qed.

(** Skipping an index whose entry counts for 0 does not change the sum. *)
Lemma reduce_skip_from (best : nat) (l : list (option R)) :
  forall i acc,
    (forall j v, nth_error l j = Some v -> (i + j)%nat = best -> num v = 0) ->
    reduce_from (fun s v k => if (k =? best)%nat then s else s + num v) i l acc
    = fold_left Rplus (map num l) acc.
Proof.
  induction l as [| v l IH]; intros i acc Hb; simpl; [reflexivity |].
  rewrite IH.
  - destruct (Nat.eqb_spec i best) as [E | N]; [| reflexivity].
    rewrite (Hb 0%nat v eq_refl) by lia. f_equal. lra.
  - intros j u Hu Hj. apply (Hb (S j) u Hu). lia.
Qed.

Lemma total_assign (l : list (option R)) :
  forall b v old,
    nth_error l b = Some old ->
    total (map num (assign l b v)) = total (map num l) - num old + num v.
Proof.
  induction l as [| x l IH]; intros [| b] v old Hb; simpl in Hb; try discriminate.
  - injection Hb as <-. simpl. rewrite !total_cons. lra.
  - simpl. rewrite !total_cons, (IH b v old Hb). lra.
Qed.

Section Weights.
(** The weights as [computeAdaptiveAlloc] has them before it fills in the
    entry of the best arm: [null] at [best], a positive number
    elsewhere. *)
Variable w0 : list (option R).
Variable best : nat.
Hypothesis best_null : nth_error w0 best = Some None.
Hypothesis others_pos :
  forall i v, i <> best -> nth_error w0 i = Some v -> exists x, v = Some x /\ 0 < x.

Let sumOthers : R :=
  reduce (fun s v i => if (i =? best)%nat then s else s + num v) w0 0.
Let w : list (option R) := assign w0 best (Some (Rmax sumOthers 0.01)).

Lemma w0_nonneg : Forall (fun x => 0 <= x) (map num w0).
Proof.
  apply Forall_forall. intros x Hx.
  apply In_nth_error in Hx. destruct Hx as [j Hj].
  rewrite nth_error_map in Hj.
  destruct (nth_error w0 j) as [v |] eqn:Ev; [| discriminate].
  simpl in Hj. injection Hj as <-.
  destruct (Nat.eq_dec j best) as [-> | Hne].
  - rewrite best_null in Ev. injection Ev as <-. simpl. lra.
  - destruct (others_pos j v Hne Ev) as (x & -> & Hx). simpl. lra.
Qed.

Lemma sumOthers_total : sumOthers = total (map num w0).
Proof.
  unfold sumOthers, reduce, total. apply reduce_skip_from.
  intros j v Hv Hj. simpl in Hj. subst j.
  rewrite best_null in Hv. injection Hv as <-. reflexivity.
Qed.

Lemma sumOthers_nonneg : 0 <= sumOthers.
Proof. rewrite sumOthers_total. apply total_nonneg, w0_nonneg. Qed.

Lemma weights_total : total (map num w) = sumOthers + Rmax sumOthers 0.01.
Proof.
  unfold w. rewrite (total_assign w0 best _ None best_null).
  rewrite <- sumOthers_total. simpl. lra.
Qed.

Lemma weights_pos : Forall (fun x => 0 < x) (map num w).
Proof.
  assert (Hlt : (best < length w0)%nat)
    by (apply nth_error_Some; rewrite best_null; discriminate).
  apply Forall_forall. intros x Hx.
  apply In_nth_error in Hx. destruct Hx as [j Hj].
  rewrite nth_error_map in Hj. unfold w in Hj.
  destruct (Nat.eq_dec best j) as [<- | Hne].
  - rewrite nth_error_assign_same in Hj by assumption.
    simpl in Hj. injection Hj as <-.
    pose proof (Rmax_r sumOthers 0.01). lra.
  - rewrite nth_error_assign_other in Hj by assumption.
    destruct (nth_error w0 j) as [v |] eqn:Ev; [| discriminate].
    simpl in Hj. injection Hj as <-.
    destruct (others_pos j v ltac:(auto) Ev) as (x & -> & Hx). assumption.
Qed.

Lemma weights_length : length w = length w0.
Proof. apply length_assign. Qed.

(** With a challenger of weight at least 1 the floor 0.01 is inactive and
    the best arm weighs as much as all the others together. *)
Lemma sumOthers_ge_challenger (j : nat) (x : R) :
  j <> best -> nth_error w0 j = Some (Some x) -> x <= sumOthers.
Proof.
  intros Hne Hj. rewrite sumOthers_total.
  apply (total_ge_entry _ w0_nonneg j). rewrite nth_error_map, Hj. reflexivity.
Qed.
End Weights.

Lemma gapWeight_pos (bestMean : R) (arm : Arm) : 0 < gapWeight bestMean arm.
Proof.
  unfold gapWeight. pose proof (Rmax_r (bestMean - mean arm) 0.005) as Hg.
  set (gap := Rmax _ _) in *.
  apply Rdiv_lt_0_compat; [lra |]. apply Rmult_lt_0_compat; lra.
Qed.

(** A gap is at most 1 between two means of the unit interval, so the
    weight is at least 1. *)
Lemma gapWeight_ge_1 (bestMean : R) (arm : Arm) :
  bestMean <= 1 -> 0 <= mean arm -> 1 <= gapWeight bestMean arm.
Proof.
  intros Hb Hm. unfold gapWeight.
  pose proof (Rmax_r (bestMean - mean arm) 0.005) as Hg.
  assert (Hle : Rmax (bestMean - mean arm) 0.005 <= 1) by (apply Rmax_lub; lra).
  set (gap := Rmax _ _) in *.
  assert (Hgg : 0 < gap * gap) by (apply Rmult_lt_0_compat; lra).
  assert (Hgg1 : gap * gap <= 1) by nra.
  apply (Rmult_le_reg_r (gap * gap)); [assumption |].
  unfold Rdiv. rewrite Rmult_assoc, Rinv_l by lra. lra.
Qed.

Section Adaptive.
Variable arms : list Arm.
Variable ab : Arm.
Hypothesis best_arm : nth_error arms (bestArmIdx arms) = Some ab.

Let best : nat := bestArmIdx arms.
Let w0 : list (option R) :=
  mapi (fun arm i => if (i =? best)%nat then None
                     else Some (gapWeight (mean ab) arm)) arms.
Let sumOthers : R :=
  reduce (fun s v i => if (i =? best)%nat then s else s + num v) w0 0.

Lemma w0_entry (i : nat) :
  nth_error w0 i
  = option_map (fun arm => if (i =? best)%nat then None
                           else Some (gapWeight (mean ab) arm))
      (nth_error arms i).
Proof. unfold w0, mapi. rewrite nth_error_map_from. reflexivity. Qed.

Lemma w0_best_null : nth_error w0 best = Some None.
Proof.
  rewrite w0_entry. unfold best. rewrite best_arm. simpl.
  rewrite Nat.eqb_refl. reflexivity.
Qed.

Lemma w0_others_pos (i : nat) (v : option R) :
  i <> best -> nth_error w0 i = Some v -> exists x, v = Some x /\ 0 < x.
Proof.
  intros Hne Hv. rewrite w0_entry in Hv.
  destruct (nth_error arms i) as [a |]; [| discriminate].
  simpl in Hv. destruct (Nat.eqb_spec i best) as [E | _]; [contradiction |].
  injection Hv as <-. exists (gapWeight (mean ab) a).
  split; [reflexivity | apply gapWeight_pos].
Qed.

(** The allocation past the warm-up, written out. *)
Lemma computeAdaptiveAlloc_weights :
  ltNum (minPulls arms) 6 = false ->
  computeAdaptiveAlloc arms
  = Some (map (fun x => x / (sumOthers + Rmax sumOthers 0.01))
            (map num (assign w0 best (Some (Rmax sumOthers 0.01))))).
Proof.
  intros Hmin. unfold computeAdaptiveAlloc. rewrite Hmin, best_arm.
  unfold adaptiveWeights. fold best. fold w0. fold sumOthers.
  rewrite reduce_sum.
  pose proof (weights_total w0 best w0_best_null) as Htot.
  fold sumOthers in Htot. rewrite Htot, map_map. reflexivity.
Qed.

Lemma adaptive_good :
  ltNum (minPulls arms) 6 = false ->
  exists alloc,
    computeAdaptiveAlloc arms = Some alloc /\
    length alloc = length arms /\
    Forall (fun x => 0 < x) alloc /\
    total alloc = 1.
Proof.
  intros Hmin. rewrite (computeAdaptiveAlloc_weights Hmin).
  eexists. split; [reflexivity |].
  pose proof (weights_pos w0 best w0_best_null w0_others_pos) as Hpos.
  pose proof (weights_total w0 best w0_best_null) as Htot.
  fold sumOthers in Hpos, Htot.
  set (w := map num (assign w0 best (Some (Rmax sumOthers 0.01)))) in *.
  assert (Hlen : length w = length arms).
  { unfold w. rewrite length_map, length_assign. unfold w0, mapi.
    apply length_map_from. }
  assert (Hne : w <> []).
  { intros E. rewrite E in Hlen. simpl in Hlen.
    symmetry in Hlen. apply length_zero_iff_nil in Hlen.
    rewrite Hlen in best_arm. destruct (bestArmIdx []); discriminate. }
  pose proof (total_pos w Hne Hpos) as HT. rewrite Htot in HT.
  split; [rewrite length_map; assumption |]. split.
  - apply Forall_map. revert Hpos. apply Forall_impl.
    intros x Hx. apply Rdiv_lt_0_compat; assumption.
  - rewrite total_scaled, Htot. field. lra.
Qed.

(** Every challenger weighs at least 1 when the means lie in the unit
    interval. *)
Lemma challenger_weight_ge_1 (i : nat) (a : Arm) :
  Forall valid arms -> i <> best -> nth_error arms i = Some a ->
  nth_error w0 i = Some (Some (gapWeight (mean ab) a)) /\
  1 <= gapWeight (mean ab) a.
Proof.
  intros Hv Hne Ha. split.
  - rewrite w0_entry, Ha. simpl.
    destruct (Nat.eqb_spec i best); [contradiction | reflexivity].
  - rewrite Forall_forall in Hv.
    apply gapWeight_ge_1.
    + apply mean_bounds, Hv. apply (nth_error_In _ _ best_arm).
    + apply mean_bounds, Hv. apply (nth_error_In _ _ Ha).
Qed.

(** The share of the best arm once a challenger exists. *)
Lemma best_share_half :
  Forall valid arms -> (2 <= length arms)%nat ->
  ltNum (minPulls arms) 6 = false ->
  1 <= sumOthers /\
  Rmax sumOthers 0.01 = sumOthers /\
  exists alloc,
    computeAdaptiveAlloc arms = Some alloc /\
    nth_error alloc best = Some (1 / 2).
Proof.
  intros Hv HK Hmin.
  assert (Hb : (best < length arms)%nat)
    by (apply nth_error_Some; unfold best; rewrite best_arm; discriminate).
  (* a challenger: index 0 or index 1 *)
  assert (Hex : exists j a, j <> best /\ nth_error arms j = Some a).
  { destruct (Nat.eq_dec best 0) as [E | N].
    - destruct (nth_error arms 1) as [a |] eqn:E1.
      + exists 1%nat, a. split; [lia | assumption].
      + apply nth_error_None in E1. lia.
    - destruct (nth_error arms 0) as [a |] eqn:E0.
      + exists 0%nat, a. split; [lia | assumption].
      + apply nth_error_None in E0. lia. }
  destruct Hex as (j & a & Hj & Ha).
  destruct (challenger_weight_ge_1 j a Hv Hj Ha) as [Hw Hge].
  pose proof (sumOthers_ge_challenger w0 best w0_best_null w0_others_pos
                j _ Hj Hw) as Hsum.
  fold sumOthers in Hsum.
  assert (HS : 1 <= sumOthers) by lra.
  assert (Hmax : Rmax sumOthers 0.01 = sumOthers) by (apply Rmax_left; lra).
  split; [assumption |]. split; [assumption |].
  rewrite (computeAdaptiveAlloc_weights Hmin). eexists. split; [reflexivity |].
  rewrite !nth_error_map, nth_error_assign_same.
  - simpl. f_equal. rewrite Hmax. field. lra.
  - unfold w0, mapi. rewrite length_map_from. assumption.
Qed.
End Adaptive.

Lemma uniform_good (arms : list Arm) :
  arms <> [] ->
  length (uniformAlloc arms) = length arms /\
  Forall (fun x => 0 < x) (uniformAlloc arms) /\
  total (uniformAlloc arms) = 1.
Proof.
  intros Hne. unfold uniformAlloc.
  assert (HK : 0 < INR (length arms)).
  { apply lt_0_INR. destruct arms; [contradiction | simpl; lia]. }
  split; [apply length_map |]. split.
  - apply Forall_map, Forall_forall. intros a _.
    apply Rdiv_lt_0_compat; lra.
  - rewrite total_const. field. lra.
Qed.

Lemma single_share (alloc : list R) :
  length alloc = 1%nat -> total alloc = 1 -> alloc = [1].
Proof.
  destruct alloc as [| x [| y l]]; simpl; intros Hlen Htot; try discriminate.
  unfold total in Htot; simpl in Htot. f_equal. lra.
Qed.

Lemma modeAlloc_good (m : Mode) (arms : list Arm) :
  arms <> [] ->
  exists alloc,
    modeAlloc m arms = Some alloc /\
    length alloc = length arms /\
    Forall (fun x => 0 < x) alloc /\
    total alloc = 1.
Proof.
  intros Hne. destruct m; simpl.
  - destruct (ltNum (minPulls arms) 6) eqn:Hmin.
    + unfold computeAdaptiveAlloc. rewrite Hmin.
      eexists. split; [reflexivity | apply uniform_good; assumption].
    + destruct (bestArmIdx_leads arms Hne) as (ab & Hb & _).
      apply (adaptive_good arms ab Hb Hmin).
  - eexists. split; [reflexivity | apply uniform_good; assumption].
Qed.

(** C2: for [K >= 1] valid arms, in uniform and in adaptive mode, the
    allocation is computed (nothing throws), has length [K], has only
    strictly positive entries, and sums to 1 within 1e-9 (in exact
    arithmetic the sum is 1); with [K = 1] it is [[1]]. *)
Theorem allocation_is_distribution (m : Mode) (arms : list Arm) :
  arms <> [] -> Forall valid arms ->
  exists alloc,
    modeAlloc m arms = Some alloc /\
    length alloc = length arms /\
    Forall (fun x => 0 < x) alloc /\
    Rabs (total alloc - 1) <= 1e-9 /\
    (length arms = 1%nat -> alloc = [1]).
Proof.
  intros Hne _.
  destruct (modeAlloc_good m arms Hne) as (alloc & Hm & Hlen & Hpos & Htot).
  exists alloc. repeat split; try assumption.
  - rewrite Htot. replace (1 - 1) with 0 by lra. rewrite Rabs_R0. lra.
  - intros HK. apply single_share; [rewrite Hlen; assumption | assumption].
Qed.

Lemma allocation_is_distribution_witness :
  sampleArms <> [] /\ Forall valid sampleArms /\
  exists alloc,
    modeAlloc adaptive sampleArms = Some alloc /\
    length alloc = length sampleArms /\
    Forall (fun x => 0 < x) alloc /\
    Rabs (total alloc - 1) <= 1e-9 /\
    (length sampleArms = 1%nat -> alloc = [1]).
Proof.
  assert (Hne : sampleArms <> []) by discriminate.
  assert (Hv : Forall valid sampleArms)
    by (repeat constructor; unfold valid; simpl; lia).
  split; [exact Hne |]. split; [exact Hv |].
  exact (allocation_is_distribution adaptive sampleArms Hne Hv).
Defined.

(** C8, in exact arithmetic: for [K >= 2] valid arms with at least 6 pulls
    each, every challenger's weight [1/gap^2] is at least 1, the weight of
    the best arm is the sum of the challengers' weights (the floor 0.01 is
    inactive: the weights add up to twice the best arm's), and the adaptive
    allocation gives the best arm one half.  The binary64 quotient of the
    code can differ from 0.5 by rounding, see
    [binary64_best_share_below_half]. *)
Theorem adaptive_best_share_half (arms : list Arm) :
  (2 <= length arms)%nat -> Forall valid arms ->
  (forall a, In a arms -> (6 <= pulls a)%Z) ->
  exists ab wbest alloc,
    nth_error arms (bestArmIdx arms) = Some ab /\
    (forall i a, i <> bestArmIdx arms -> nth_error arms i = Some a ->
                 nth_error (adaptiveWeights arms (bestArmIdx arms) (mean ab)) i
                 = Some (Some (gapWeight (mean ab) a)) /\
                 1 <= gapWeight (mean ab) a) /\
    nth_error (adaptiveWeights arms (bestArmIdx arms) (mean ab)) (bestArmIdx arms)
    = Some (Some wbest) /\
    total (map num (adaptiveWeights arms (bestArmIdx arms) (mean ab)))
    = wbest + wbest /\
    computeAdaptiveAlloc arms = Some alloc /\
    nth_error alloc (bestArmIdx arms) = Some (1 / 2).
Proof.
  intros HK Hv Hall.
  assert (Hne : arms <> []) by (destruct arms; [simpl in HK; lia | discriminate]).
  assert (Hmin : ltNum (minPulls arms) 6 = false)
    by (apply ltNum_minPulls_false; assumption).
  destruct (bestArmIdx_leads arms Hne) as (ab & Hb & _).
  destruct (best_share_half arms ab Hb Hv HK Hmin) as (HS & Hmax & alloc & Ha & Hshare).
  pose proof (w0_best_null arms ab Hb) as Hnull.
  pose proof (w0_others_pos arms ab) as Hothers.
  pose proof (weights_total _ _ Hnull) as Htot.
  assert (Hlt : (bestArmIdx arms < length arms)%nat)
    by (apply bestArmIdx_lt; assumption).
  exists ab. eexists. exists alloc.
  split; [assumption |]. split; [| split; [| split; [| split; assumption]]].
  - intros i a Hi Hia.
    destruct (challenger_weight_ge_1 arms ab Hb i a Hv Hi Hia) as [Hw Hge].
    split; [| assumption].
    unfold adaptiveWeights. rewrite nth_error_assign_other by auto. exact Hw.
  - unfold adaptiveWeights. rewrite nth_error_assign_same.
    + rewrite Hmax. reflexivity.
    + unfold mapi. rewrite length_map_from. assumption.
  - unfold adaptiveWeights. rewrite Htot, Hmax. reflexivity.
Qed.

Lemma adaptive_best_share_half_witness :
  (2 <= length sampleArms)%nat /\ Forall valid sampleArms /\
  (forall a, In a sampleArms -> (6 <= pulls a)%Z) /\
  exists alloc,
    computeAdaptiveAlloc sampleArms = Some alloc /\
    nth_error alloc (bestArmIdx sampleArms) = Some (1 / 2).
Proof.
  assert (HK : (2 <= length sampleArms)%nat) by (simpl; lia).
  assert (Hv : Forall valid sampleArms)
    by (repeat constructor; unfold valid; simpl; lia).
  assert (Hp : forall a, In a sampleArms -> (6 <= pulls a)%Z).
  { intros a [<- | [<- | [<- | []]]]; simpl; lia. }
  split; [exact HK |]. split; [exact Hv |]. split; [exact Hp |].
  destruct (adaptive_best_share_half sampleArms HK Hv Hp)
    as (ab & wbest & alloc & _ & _ & _ & _ & Ha & Hs).
  exists alloc. split; [exact Ha | exact Hs].
Defined.

(** C8 as stated, with "exactly", fails on the binary64 numbers of the
    code.  On [roundingArms] the best arm is
    arm 2 (mean 1); the challengers weigh 1, 4 and 8.999999999999998 (the
    gap [1 - 4/6] is rounded), their sum is 13.999999999999998, the total of
    the four weights is rounded to 28, and the share of the best arm is the
    float just below one half. *)
Lemma binary64_best_share_below_half :
  (2 <= length roundingArms)%nat /\ Forall valid roundingArms /\
  (forall a, In a roundingArms -> (6 <= pulls a)%Z) /\
  Binary64.bestArmIdx roundingArms = 2%nat /\
  Binary64.adaptiveWeights roundingArms 2 1%float
  = [Some 1%float; Some 4%float; Some 13.999999999999998%float;
     Some 8.999999999999998%float] /\
  exists alloc share,
    Binary64.computeAdaptiveAlloc roundingArms = Some alloc /\
    nth_error alloc (Binary64.bestArmIdx roundingArms) = Some share /\
    share = PrimFloat.next_down 0.5%float /\
    PrimFloat.ltb share 0.5%float = true /\
    PrimFloat.eqb share 0.5%float = false.
Proof.
  split; [simpl; lia |]. split.
  { repeat constructor; unfold valid; simpl; lia. }
  split.
  { intros a [<- | [<- | [<- | [<- | []]]]]; simpl; lia. }
  split; [vm_compute; reflexivity |]. split; [vm_compute; reflexivity |].
  eexists. eexists. split; [vm_compute; reflexivity |].
  split; [vm_compute; reflexivity |].
  split; [vm_compute; reflexivity |]. split; vm_compute; reflexivity.
Qed.

(** With a single arm the binary64 allocation is [[1]], in both modes. *)
Lemma binary64_single_arm :
  Binary64.computeAdaptiveAlloc [mkArm 0 0.55 7 3] = Some [1%float] /\
  Binary64.uniformAlloc [mkArm 0 0.55 7 3] = [1%float].
Proof. split; vm_compute; reflexivity. Qed.

(** ** Simulation driver *)

Lemma totalPulls_assign (l : list Arm) :
  forall i a a',
    nth_error l i = Some a ->
    totalPulls (assign l i a') = (totalPulls l - pulls a + pulls a')%Z.
Proof.
  intros i a a' Hi. rewrite !totalPulls_sum. revert i Hi.
  induction l as [| x l IH]; intros [| i] Hi; simpl in Hi; try discriminate.
  - injection Hi as <-. simpl. lia.
  - simpl. rewrite (IH i Hi). lia.
Qed.

Lemma pulls_pull (u : R) (a : Arm) : pulls (fst (pull u a)) = (pulls a + 1)%Z.
Proof. unfold pull. destruct (Rltb u (trueRate a)); reflexivity. Qed.

Lemma assign_nonempty {A : Type} (l : list A) (i : nat) (v : A) :
  l <> [] -> assign l i v <> [].
Proof. destruct l, i; simpl; intros H; try contradiction; discriminate. Qed.

(** A step on a non-empty list of arms does not throw: it pulls one arm
    once, and sets [simDone] and [simWinner] when the stopping rule fires. *)
Lemma simStep_spec (s : Sim) :
  arms s <> [] ->
  exists s',
    simStep s = Some s' /\
    arms s' <> [] /\
    totalPulls (arms s') = (totalPulls (arms s) + 1)%Z /\
    simMode s' = simMode s /\ simRunning s' = simRunning s /\
    simTimer s' = simTimer s /\ stepsPerTick s' = stepsPerTick s /\
    winnerBar s' = winnerBar s /\
    simDone s' = (if shouldStop (arms s') then true else simDone s) /\
    simWinner s' = (if shouldStop (arms s') then Some (bestArmIdx (arms s'))
                    else simWinner s).
Proof.
  intros Hne. unfold simStep.
  destruct (modeAlloc_good (simMode s) (arms s) Hne) as (alloc & -> & Hlen & _).
  assert (Hane : alloc <> []).
  { intros E. rewrite E in Hlen. simpl in Hlen. symmetry in Hlen.
    apply length_zero_iff_nil in Hlen. contradiction. }
  destruct (selectArm_spec (random s 0%nat) alloc Hane) as (i & -> & Hi & _).
  unfold pullAt.
  destruct (Z.ltb_spec (Z.of_nat i) 0) as [Hneg | _]; [lia |].
  rewrite Nat2Z.id.
  destruct (nth_error (arms s) i) as [a |] eqn:Ea.
  - eexists. split; [reflexivity |]. simpl.
    split; [apply assign_nonempty; assumption |].
    split; [rewrite (totalPulls_assign _ _ _ _ Ea), pulls_pull; lia |].
    repeat split; reflexivity.
  - apply nth_error_None in Ea. lia.
Qed.

(** Steps are taken from states that are not done: the step sets
    [simDone] to the answer of the stopping rule on the arms it leaves, and
    [simWinner] with it. *)
Lemma simStep_consistent (s s' : Sim) :
  consistent s -> simDone s = false -> simStep s = Some s' -> consistent s'.
Proof.
  intros (Hne & Hw & _) Hnd Hs.
  destruct (simStep_spec s Hne)
    as (s1 & Hs1 & Hne1 & _ & _ & _ & _ & _ & _ & Hd & Hwin).
  rewrite Hs in Hs1. injection Hs1 as <-.
  split; [assumption |]. rewrite Hd, Hwin, Hw, Hnd.
  destruct (shouldStop (arms s')); split; reflexivity.
Qed.

Lemma finished_false (s : Sim) :
  finished s = false ->
  simDone s = false /\ (totalPulls (arms s) < MAX_STEPS)%Z.
Proof.
  unfold finished. intros H. apply orb_false_iff in H. destruct H as [Hd Hc].
  split; [assumption |]. apply Z.leb_gt. assumption.
Qed.

(** The loop of a batch: it runs without throwing, executes no step once the
    run is finished, and otherwise stops finished or after [n] steps. *)
Lemma runBatch_loop_spec (n : nat) :
  forall s,
    consistent s ->
    exists s',
      runBatch_loop n s = Some s' /\
      consistent s' /\
      simTimer s' = simTimer s /\ simRunning s' = simRunning s /\
      stepsPerTick s' = stepsPerTick s /\
      winnerBar s' = winnerBar s /\
      (finished s = true -> s' = s) /\
      (finished s' = true \/
       totalPulls (arms s') = (totalPulls (arms s) + Z.of_nat n)%Z).
Proof.
  induction n as [| n IH]; intros s Hc.
  - exists s. simpl.
    repeat (split; [solve [assumption | reflexivity | intros; reflexivity] |]).
    right. lia.
  - simpl. destruct (finished s) eqn:Hf.
    + exists s.
      repeat (split; [solve [assumption | reflexivity | intros; reflexivity] |]).
      left. assumption.
    + destruct (finished_false s Hf) as [Hnd _].
      destruct (simStep_spec s (proj1 Hc))
        as (s1 & Hs1 & _ & Ht & _ & Hr & Htm & Hsp & Hbar & _).
      rewrite Hs1.
      destruct (IH s1 (simStep_consistent s s1 Hc Hnd Hs1))
        as (s' & Hl & Hc' & Htm' & Hr' & Hsp' & Hbar' & _ & Hend).
      exists s'. split; [assumption |]. split; [assumption |].
      repeat (split; [congruence |]).
      destruct Hend as [Hfin | Hcount]; [left; assumption | right].
      rewrite Hcount, Ht. lia.
Qed.

(** A batch from a consistent state: either the run goes on, nothing shown
    and the timer as it was, or the run is finished, the timer is cleared
    and the winner bar shows the best arm and the number of pulls. *)
Lemma runBatch_spec (s : Sim) :
  consistent s ->
  exists s',
    runBatch s = Some s' /\ consistent s' /\
    stepsPerTick s' = stepsPerTick s /\
    (finished s = true -> arms s' = arms s) /\
    ((finished s' = false /\ simTimer s' = simTimer s /\
      winnerBar s' = winnerBar s /\
      (totalPulls (arms s') = totalPulls (arms s) + Z.of_nat (stepsPerTick s))%Z)
     \/ ended (winnerBar s) s').
Proof.
  intros Hc. unfold runBatch.
  destruct (runBatch_loop_spec (stepsPerTick s) s Hc)
    as (s1 & -> & Hc1 & Htm & Hr & Hsp & Hbar & Hsame & Hend).
  destruct (finished s1) eqn:Hf.
  - exists (showWinner (stopSim s1)).
    split; [reflexivity |]. split; [exact Hc1 |]. split; [exact Hsp |].
    split; [intros Hfs; simpl; rewrite (Hsame Hfs); reflexivity |].
    right. split; [exact Hf |]. split; [reflexivity |]. split; [reflexivity |].
    unfold showWinner. simpl. rewrite <- Hbar.
    destruct Hc1 as (_ & Hw & _). rewrite Hw.
    destruct (simDone s1); reflexivity.
  - exists s1. split; [reflexivity |]. split; [exact Hc1 |]. split; [exact Hsp |].
    split; [intros Hfs; rewrite (Hsame Hfs); reflexivity |].
    left. split; [exact Hf |]. split; [exact Htm |]. split; [exact Hbar |].
    destruct Hend as [Hfin | Hcount]; [discriminate | exact Hcount].
Qed.

Lemma ticks_timer_off (s : Sim) :
  simTimer s = false -> forall m, ticks m s = Some s.
Proof.
  intros Hoff m. induction m as [| m IH]; simpl; [reflexivity |].
  unfold tick. rewrite Hoff. assumption.
Qed.

Lemma runBatch_loop_finished (s : Sim) :
  finished s = true -> forall k, runBatch_loop k s = Some s.
Proof. intros Hf [| k]; simpl; [| rewrite Hf]; reflexivity. Qed.

(** One firing of the timer during a run. *)
Lemma tick_running (shown : list SimulationOutcome) (s : Sim) :
  consistent s -> simTimer s = true -> winnerBar s = shown ->
  exists s',
    tick s = Some s' /\ consistent s' /\ stepsPerTick s' = stepsPerTick s /\
    ((running shown s' /\
      (totalPulls (arms s') = totalPulls (arms s) + Z.of_nat (stepsPerTick s))%Z)
     \/ ended shown s').
Proof.
  intros Hc Hon Hbar. unfold tick. rewrite Hon.
  destruct (runBatch_spec s Hc) as (s' & Hs & Hc' & Hsp & _ & Hcase).
  exists s'. split; [assumption |]. split; [assumption |]. split; [assumption |].
  rewrite Hbar in Hcase.
  destruct Hcase as [(Hf & Htm & Hb & Ht) | He]; [left | right; assumption].
  split; [| assumption]. split; [assumption |]. split; [congruence | assumption].
Qed.

(** Any number of firings: the run goes on or has ended, and nothing
    changes after it has ended. *)
Lemma ticks_running (shown : list SimulationOutcome) (n : nat) :
  forall s,
    consistent s -> simTimer s = true -> winnerBar s = shown ->
    exists s',
      ticks (S n) s = Some s' /\ consistent s' /\
      (running shown s' \/ ended shown s').
Proof.
  induction n as [| n IH]; intros s Hc Hon Hbar.
  - destruct (tick_running shown s Hc Hon Hbar) as (s' & Hs & Hc' & _ & Hcase).
    exists s'. simpl. rewrite Hs. split; [reflexivity |]. split; [assumption |].
    destruct Hcase as [[Hr _] | He]; [left | right]; assumption.
  - destruct (tick_running shown s Hc Hon Hbar) as (s1 & Hs & Hc1 & _ & Hcase).
    change (ticks (S (S n)) s) with
      (match tick s with None => None | Some s' => ticks (S n) s' end).
    rewrite Hs.
    destruct Hcase as [[(Hf & Htm & Hb) _] | He].
    + apply IH; assumption.
    + exists s1. rewrite (ticks_timer_off s1 (proj1 (proj2 He))).
      split; [reflexivity |]. split; [assumption | right; assumption].
Qed.

(** With at least one step per batch the run has ended once the timer has
    fired as often as there were pulls left to the cap. *)
Lemma ticks_end (shown : list SimulationOutcome) (n : nat) :
  forall s,
    consistent s -> simTimer s = true -> winnerBar s = shown ->
    (1 <= stepsPerTick s)%nat ->
    (MAX_STEPS - totalPulls (arms s) <= Z.of_nat n)%Z ->
    exists s', ticks (S n) s = Some s' /\ consistent s' /\ ended shown s'.
Proof.
  induction n as [| n IH]; intros s Hc Hon Hbar Hsp Hleft;
    destruct (tick_running shown s Hc Hon Hbar) as (s1 & Hs & Hc1 & Hsp1 & Hcase);
    change (ticks (S ?k) s) with
      (match tick s with None => None | Some s' => ticks k s' end);
    rewrite Hs;
    (destruct Hcase as [[(Hf & Htm & Hb) Ht] | He];
     [| exists s1; rewrite (ticks_timer_off s1 (proj1 (proj2 He)));
        split; [reflexivity |]; split; assumption]).
  - destruct (finished_false s1 Hf) as [_ Hlt]. lia.
  - apply IH; try assumption; [lia |].
    destruct (finished_false s1 Hf) as [_ Hlt]. lia.
Qed.

Lemma startSim_consistent (s : Sim) : consistent s -> consistent (startSim s).
Proof. intros H. exact H. Qed.

(** The rule does not fire on arms without pulls. *)
Lemma shouldStop_reset (l : list Arm) : l <> [] -> shouldStop (map reset l) = false.
Proof.
  intros Hne. unfold shouldStop.
  assert (Hm : map reset l <> []) by (destruct l; [contradiction | discriminate]).
  rewrite (proj2 (ltNum_minPulls (map reset l) 12 Hm)); [reflexivity |].
  destruct l as [| a l]; [contradiction |].
  exists (reset a). split; [left; reflexivity | simpl; lia].
Qed.

Lemma resetSim_consistent (s : Sim) : arms s <> [] -> consistent (resetSim s).
Proof.
  intros Hne. split; [| split; [reflexivity |]].
  - simpl. destruct (arms s); [contradiction | discriminate].
  - simpl. symmetry. apply shouldStop_reset. assumption.
Qed.

(** The page starts in a consistent state. *)
Lemma initialSim_consistent (rnd : nat -> R) : consistent (initialSim rnd).
Proof. split; [discriminate |]. split; reflexivity. Qed.

Lemma ended_cause (shown : list SimulationOutcome) (s : Sim) :
  consistent s -> ended shown s ->
  (simDone s = true /\ shouldStop (arms s) = true /\
   simWinner s = Some (bestArmIdx (arms s)))
  \/ (simDone s = false /\ shouldStop (arms s) = false /\ simWinner s = None /\
      (MAX_STEPS <= totalPulls (arms s))%Z).
Proof.
  intros (_ & Hw & Hstop) (Hf & _). unfold finished in Hf.
  destruct (simDone s) eqn:Hd.
  - left. split; [reflexivity |]. split; [symmetry; assumption | assumption].
  - right. split; [reflexivity |]. split; [symmetry; assumption |].
    split; [assumption |]. simpl in Hf. apply Z.leb_le. assumption.
Qed.

(** ** The code on the sample inputs *)

Ltac decide_cmp :=
  repeat match goal with
    | |- context [Rltb ?x ?y] =>
        first [ rewrite (proj2 (Rltb_true x y)) by lra
              | rewrite (proj2 (Rltb_false x y)) by lra ]
    | |- context [Rleb ?x ?y] =>
        first [ rewrite (proj2 (Rleb_true x y)) by lra
              | rewrite (proj2 (Rleb_false x y)) by lra ]
    end.

(** Arms 1 and 2 tie at 3/4: the lower index wins. *)
Example bestArmIdx_tie : bestArmIdx sampleArms = 1%nat.
Proof.
  unfold bestArmIdx, reduce, sampleArms. simpl.
  unfold bestStep, beats, Rgtb, mean. repeat (progress (simpl; decide_cmp)).
  reflexivity.
Qed.

Example selectArm_middle : selectArm 0.4 sampleAlloc = 1%Z.
Proof. unfold selectArm, sampleAlloc. simpl. decide_cmp. reflexivity. Qed.

Example selectArm_on_boundary : selectArm 0.25 sampleAlloc = 0%Z.
Proof. unfold selectArm, sampleAlloc. simpl. decide_cmp. reflexivity. Qed.

(** A draw no running sum reaches falls back to the last index. *)
Example selectArm_fallback : selectArm 0.9 [0.25; 0.25] = 1%Z.
Proof. unfold selectArm. simpl. decide_cmp. reflexivity. Qed.

(** On an empty allocation the fallback is [-1]. *)
Example selectArm_empty (r : R) : selectArm r [] = (-1)%Z.
Proof. reflexivity. Qed.

Example glrtStat_tie : glrtStat (mkArm 1 0.45 12 9) (mkArm 2 0.72 12 9) = 0.
Proof. unfold glrtStat, mean. simpl. decide_cmp. reflexivity. Qed.

Lemma stoppingThreshold_pos (t : R) : 0 <= t -> 0 < stoppingThreshold t.
Proof.
  intros Ht. unfold stoppingThreshold, stoppingThresholdAt, DELTA.
  pose proof exp_1_gt_1 as He.
  assert (Hl : 0 < ln (t + exp 1)) by (rewrite <- ln_1; apply ln_increasing; lra).
  rewrite <- ln_1. apply ln_increasing; [lra |].
  apply (Rmult_lt_reg_r 0.05); [lra |].
  unfold Rdiv. rewrite Rmult_assoc, Rinv_l by lra. lra.
Qed.

(** With two arms tied for the best mean the rule does not fire: the
    statistic of the tied challenger is 0, below any threshold. *)
Example shouldStop_tie : shouldStop sampleArms = false.
Proof.
  destruct (shouldStop sampleArms) eqn:E; [exfalso | reflexivity].
  unfold shouldStop in E.
  change (ltNum (minPulls sampleArms) 12) with false in E. cbv iota zeta in E.
  rewrite bestArmIdx_tie, shouldStop_loop_true in E.
  specialize (E 2%nat (mkArm 2 0.72 12 9) eq_refl ltac:(simpl; lia)).
  unfold belowThreshold in E.
  change (nth_error sampleArms 1) with (Some (mkArm 1 0.45 12 9)) in E.
  cbv iota beta in E. rewrite glrtStat_tie in E. apply Rltb_false in E.
  assert (Hpos : 0 < stoppingThreshold (IZR (totalPulls sampleArms))).
  { apply stoppingThreshold_pos. rewrite totalPulls_sum. simpl. lra. }
  lra.
Qed.

(** The play button after the end of a run.  When the stopping rule has
    fired it resets the simulation.  At the cap [simDone] is not set: the
    button arms the timer again, and the batch that follows executes no
    step and shows the same outcome once more. *)
Lemma play_after_stop (s : Sim) :
  simDone s = true -> togglePlay s = resetSim s.
Proof. intros Hd. unfold togglePlay. rewrite Hd. reflexivity. Qed.

Lemma play_after_cap (shown : list SimulationOutcome) (s : Sim) :
  consistent s -> ended shown s -> simDone s = false ->
  exists s',
    tick (togglePlay s) = Some s' /\
    arms s' = arms s /\ simDone s' = false /\ simWinner s' = None /\
    simTimer s' = false /\
    winnerBar s'
    = mkOutcome (bestArmIdx (arms s)) (totalPulls (arms s)) :: winnerBar s.
Proof.
  intros (_ & Hw & _) (Hf & _ & Hr & _) Hd.
  unfold togglePlay. rewrite Hd, Hr.
  unfold tick, runBatch. simpl simTimer. cbv iota.
  rewrite (runBatch_loop_finished (startSim s) Hf).
  change (finished (startSim s)) with (finished s). rewrite Hf.
  rewrite Hd in Hw.
  eexists. split; [reflexivity |]. simpl. rewrite Hw, Hd.
  repeat (split; [reflexivity |]). reflexivity.
Qed.

(** The mean 0.5 is the value without pulls, and also that of an arm with
    as many successes as failures. *)
Example mean_half_with_pulls : mean (mkArm 0 0.55 2 1) = 0.5.
Proof. unfold mean. simpl. lra. Qed.

(** * Further properties of the code *)

(** ** Arm *)

(** X1: [pull] counts one more pull, counts one more success exactly when
    the draw is below the true rate (the flag it returns), leaves [idx] and
    [trueRate] alone and keeps [0 <= successes <= pulls]. *)
Theorem pull_keeps_valid (u : R) (a : Arm) :
  valid a ->
  valid (fst (pull u a)) /\
  pulls (fst (pull u a)) = (pulls a + 1)%Z /\
  successes (fst (pull u a))
  = (if snd (pull u a) then successes a + 1 else successes a)%Z /\
  (snd (pull u a) = true <-> u < trueRate a) /\
  idx (fst (pull u a)) = idx a /\ trueRate (fst (pull u a)) = trueRate a.
Proof.
  intros [H0 H1]. unfold pull, valid.
  destruct (Rltb u (trueRate a)) eqn:E; simpl.
  - apply Rltb_true in E.
    split; [lia |]. split; [reflexivity |]. split; [reflexivity |].
    split; [tauto |]. split; reflexivity.
  - apply Rltb_false in E.
    split; [lia |]. split; [reflexivity |]. split; [reflexivity |].
    split; [| split; reflexivity].
    split; [discriminate | intros H; lra].
Qed.

Lemma pull_keeps_valid_witness :
  valid (mkArm 2 0.72 12 9) /\
  valid (fst (pull 0.3 (mkArm 2 0.72 12 9))) /\
  pulls (fst (pull 0.3 (mkArm 2 0.72 12 9))) = 13%Z.
Proof.
  assert (Hv : valid (mkArm 2 0.72 12 9)) by (unfold valid; simpl; lia).
  destruct (pull_keeps_valid 0.3 (mkArm 2 0.72 12 9) Hv) as (H1 & H2 & _).
  split; [exact Hv |]. split; [exact H1 | exact H2].
Defined.

(** ** Divergence and GLRT *)

Lemma ln_lt_pred (x : R) : 0 < x -> x <> 1 -> ln x < x - 1.
Proof.
  intros Hx Hne. pose proof (exp_ineq1 (ln x) (ln_neq_0 x Hne Hx)) as H.
  rewrite exp_ln in H by assumption. lra.
Qed.

Lemma kl_pos (a b : R) :
  0 < a < 1 -> 0 < b < 1 -> a <> b ->
  0 < a * ln (a / b) + (1 - a) * ln ((1 - a) / (1 - b)).
Proof.
  intros Ha Hb Hne.
  assert (H1 : a * ln (b / a) < b - a).
  { assert (Hq : 0 < b / a) by (apply Rdiv_lt_0_compat; lra).
    assert (Hq1 : b / a <> 1).
    { intros E. apply Hne. apply (Rmult_eq_compat_r a) in E.
      unfold Rdiv in E. rewrite Rmult_assoc, Rinv_l in E by lra. lra. }
    pose proof (ln_lt_pred (b / a) Hq Hq1) as H.
    apply Rlt_le_trans with (a * (b / a - 1)).
    - apply Rmult_lt_compat_l; lra.
    - right. field. lra. }
  assert (H2 : (1 - a) * ln ((1 - b) / (1 - a)) <= a - b).
  { pose proof (ln_le_pred ((1 - b) / (1 - a))) as H.
    assert (Hq : 0 < (1 - b) / (1 - a)) by (apply Rdiv_lt_0_compat; lra).
    specialize (H Hq).
    apply Rle_trans with ((1 - a) * ((1 - b) / (1 - a) - 1)).
    - apply Rmult_le_compat_l; lra.
    - right. field. lra. }
  assert (E1 : ln (a / b) = - ln (b / a)).
  { unfold Rdiv. rewrite !ln_mult, !ln_Rinv; try lra;
      apply Rinv_0_lt_compat; lra. }
  assert (E2 : ln ((1 - a) / (1 - b)) = - ln ((1 - b) / (1 - a))).
  { unfold Rdiv. rewrite !ln_mult, !ln_Rinv; try lra;
      apply Rinv_0_lt_compat; lra. }
  rewrite E1, E2. lra.
Qed.

Lemma klBern_clamped (p q : R) :
  klBern p q
  = clampProb p * ln (clampProb p / clampProb q)
    + (1 - clampProb p) * ln ((1 - clampProb p) / (1 - clampProb q)).
Proof. reflexivity. Qed.

Lemma klBern_pos (p q : R) : clampProb p <> clampProb q -> 0 < klBern p q.
Proof.
  intros Hne. rewrite klBern_clamped.
  pose proof (clamp_bounds p). pose proof (clamp_bounds q).
  apply kl_pos; unfold clampProb in *; solve [lra | assumption].
Qed.

(** X2: the divergence separates what the clamp separates: [klBern p q] is
    0 exactly when [p] and [q] have the same clamped value; in particular
    two arguments of [[1e-9, 1 - 1e-9]] have divergence 0 only when they are
    equal. *)
Theorem klBern_zero_iff (p q : R) :
  (klBern p q = 0 <-> clampProb p = clampProb q) /\
  (1e-9 <= p <= 1 - 1e-9 -> 1e-9 <= q <= 1 - 1e-9 ->
   (klBern p q = 0 <-> p = q)).
Proof.
  assert (Hiff : klBern p q = 0 <-> clampProb p = clampProb q).
  { split.
    - intros Hz. destruct (Req_dec (clampProb p) (clampProb q)) as [E | N];
        [assumption |].
      pose proof (klBern_pos p q N). lra.
    - intros E. rewrite klBern_clamped, E.
      pose proof (clamp_bounds q) as Hq. fold (clampProb q) in Hq.
      unfold Rdiv. rewrite !Rinv_r by lra. rewrite ln_1. ring. }
  split; [exact Hiff |].
  intros Hp Hq. rewrite Hiff. unfold clampProb.
  rewrite (clamp_id p Hp), (clamp_id q Hq). tauto.
Qed.

Lemma klBern_zero_iff_witness :
  1e-9 <= 0.75 <= 1 - 1e-9 /\ 1e-9 <= 0.5 <= 1 - 1e-9 /\
  (klBern 0.75 0.5 = 0 <-> 0.75 = 0.5).
Proof.
  assert (Hp : 1e-9 <= 0.75 <= 1 - 1e-9) by lra.
  assert (Hq : 1e-9 <= 0.5 <= 1 - 1e-9) by lra.
  split; [exact Hp |]. split; [exact Hq |].
  exact (proj2 (klBern_zero_iff 0.75 0.5) Hp Hq).
Defined.

Lemma glrtStat_nonneg (a b : Arm) : 0 <= glrtStat a b.
Proof.
  unfold glrtStat.
  destruct (Z.ltb_spec (pulls a) 1) as [Ha | Ha]; simpl; [lra |].
  destruct (Z.ltb_spec (pulls b) 1) as [Hb | Hb]; simpl; [lra |].
  destruct (Rleb (mean a) (mean b)); [lra |].
  assert (0 < IZR (pulls a)) by (apply IZR_lt; lia).
  assert (0 < IZR (pulls b)) by (apply IZR_lt; lia).
  pose proof (klBern_nonneg (mean a) (mean b)).
  pose proof (klBern_nonneg (mean b) (mean a)).
  apply Rplus_le_le_0_compat; apply Rmult_le_pos; lra.
Qed.

(** X3: in exact arithmetic the GLRT statistic is never negative, whatever
    the arms hold; and it is one-sided: when [glrtStat a b] is not 0,
    [glrtStat b a] is 0. *)
Theorem glrtStat_one_sided (a b : Arm) :
  0 <= glrtStat a b /\ (glrtStat a b <> 0 -> glrtStat b a = 0).
Proof.
  split; [apply glrtStat_nonneg |].
  unfold glrtStat.
  destruct (Z.ltb_spec (pulls a) 1) as [Ha | Ha]; simpl; [intros H; lra |].
  destruct (Z.ltb_spec (pulls b) 1) as [Hb | Hb]; simpl; [intros H; lra |].
  destruct (Rleb (mean a) (mean b)) eqn:E; [intros H; lra |].
  intros _. apply Rleb_false in E.
  rewrite (proj2 (Rleb_true (mean b) (mean a))) by lra. reflexivity.
Qed.

Lemma mean_ge_inv_pulls (a : Arm) :
  (1 <= successes a)%Z -> (1 <= pulls a)%Z -> / IZR (pulls a) <= mean a.
Proof.
  intros Hs Hp. rewrite mean_pulled by lia.
  assert (0 < IZR (pulls a)) by (apply IZR_lt; lia).
  assert (1 <= IZR (successes a)) by (apply IZR_le; lia).
  unfold Rdiv. rewrite <- (Rmult_1_l (/ IZR (pulls a))) at 1.
  apply Rmult_le_compat_r; [left; apply Rinv_0_lt_compat; assumption | assumption].
Qed.

Lemma mean_le_pred_pulls (a : Arm) :
  (successes a <= pulls a - 1)%Z -> (1 <= pulls a)%Z ->
  mean a <= 1 - / IZR (pulls a).
Proof.
  intros Hs Hp. rewrite mean_pulled by lia.
  assert (Hpos : 0 < IZR (pulls a)) by (apply IZR_lt; lia).
  assert (Hle : IZR (successes a) <= IZR (pulls a) - 1).
  { rewrite <- minus_IZR. apply IZR_le. assumption. }
  apply (Rmult_le_reg_r (IZR (pulls a))); [assumption |].
  unfold Rdiv. rewrite Rmult_assoc, Rinv_l by lra.
  rewrite Rmult_minus_distr_r, Rinv_l by lra. lra.
Qed.

Lemma inv_pulls_above_floor (p : Z) :
  (1 <= p < 1000000000)%Z -> 1e-9 < / IZR p.
Proof.
  intros Hp.
  assert (Hpos : 0 < IZR p) by (apply IZR_lt; lia).
  assert (Hlt : IZR p < 1000000000) by (apply IZR_lt; lia).
  replace 1e-9 with (/ 1000000000) by lra.
  apply Rinv_lt_contravar; [apply Rmult_lt_0_compat; lra | assumption].
Qed.

Lemma mean_lt_successes (a b : Arm) :
  valid a -> valid b -> (1 <= pulls a)%Z -> (1 <= pulls b)%Z ->
  mean b < mean a ->
  (1 <= successes a)%Z /\ (successes b <= pulls b - 1)%Z.
Proof.
  intros Ha Hb Hpa Hpb Hlt.
  pose proof (mean_bounds a Ha) as Ba. pose proof (mean_bounds b Hb) as Bb.
  destruct Ha as [Ha0 Ha1]. destruct Hb as [Hb0 Hb1]. split.
  - destruct (Z.eq_dec (successes a) 0) as [E | N]; [| lia].
    rewrite (mean_pulled a) in Hlt by lia. rewrite E in Hlt.
    unfold Rdiv in Hlt. rewrite Rmult_0_l in Hlt. lra.
  - destruct (Z.eq_dec (successes b) (pulls b)) as [E | N]; [| lia].
    rewrite (mean_pulled b) in Hlt by lia. rewrite E in Hlt.
    assert (0 < IZR (pulls b)) by (apply IZR_lt; lia).
    unfold Rdiv in Hlt. rewrite Rinv_r in Hlt by lra. lra.
Qed.

(** Two different means of arms with fewer than 10^9 pulls stay different
    under the clamp. *)
Lemma clamp_separates_means (a b : Arm) :
  valid a -> valid b ->
  (1 <= pulls a < 1000000000)%Z -> (1 <= pulls b < 1000000000)%Z ->
  mean b < mean a -> clampProb (mean b) < clampProb (mean a).
Proof.
  intros Ha Hb Hpa Hpb Hlt.
  destruct (mean_lt_successes a b Ha Hb ltac:(lia) ltac:(lia) Hlt) as [Hs Hf].
  pose proof (mean_ge_inv_pulls a Hs ltac:(lia)) as H1.
  pose proof (mean_le_pred_pulls b Hf ltac:(lia)) as H2.
  pose proof (inv_pulls_above_floor (pulls a) Hpa) as H3.
  pose proof (inv_pulls_above_floor (pulls b) Hpb) as H4.
  unfold clampProb, Rmax, Rmin.
  repeat destruct (Rle_dec _ _); lra.
Qed.

(** X4: in exact arithmetic, for two valid arms with at least one and fewer
    than 10^9 pulls each, the GLRT statistic of [a] against [b] is positive
    exactly when [a] has the strictly larger mean. *)
Theorem glrtStat_pos_iff (a b : Arm) :
  valid a -> valid b ->
  (1 <= pulls a < 1000000000)%Z -> (1 <= pulls b < 1000000000)%Z ->
  (0 < glrtStat a b <-> mean b < mean a).
Proof.
  intros Ha Hb Hpa Hpb. split.
  - intros Hpos. unfold glrtStat in Hpos.
    destruct ((pulls a <? 1)%Z || (pulls b <? 1)%Z)%bool; [lra |].
    destruct (Rleb (mean a) (mean b)) eqn:E; [lra |].
    apply Rleb_false in E. assumption.
  - intros Hlt. unfold glrtStat.
    destruct (Z.ltb_spec (pulls a) 1) as [C | _]; [lia |].
    destruct (Z.ltb_spec (pulls b) 1) as [C | _]; [lia |]. simpl.
    rewrite (proj2 (Rleb_false (mean a) (mean b))) by assumption.
    pose proof (clamp_separates_means a b Ha Hb Hpa Hpb Hlt) as Hc.
    assert (0 < klBern (mean a) (mean b)) by (apply klBern_pos; lra).
    assert (0 < klBern (mean b) (mean a)) by (apply klBern_pos; lra).
    assert (0 < IZR (pulls a)) by (apply IZR_lt; lia).
    assert (0 < IZR (pulls b)) by (apply IZR_lt; lia).
    apply Rplus_lt_0_compat; apply Rmult_lt_0_compat; assumption.
Qed.

Lemma glrtStat_pos_iff_witness :
  0 < glrtStat (mkArm 2 0.72 12 9) (mkArm 0 0.55 12 6) <->
  mean (mkArm 0 0.55 12 6) < mean (mkArm 2 0.72 12 9).
Proof.
  apply glrtStat_pos_iff; unfold valid; simpl; lia.
Defined.

(** ** Stopping rule *)

Lemma ln_e_shift_ge_1 (t : R) : 0 <= t -> 1 <= ln (t + exp 1).
Proof.
  intros Ht. rewrite <- (ln_exp 1) at 1.
  apply ln_le_mono; [apply exp_pos | lra].
Qed.

Lemma ln_40_pos : 0 < ln 40.
Proof. rewrite <- ln_1. apply ln_increasing; lra. Qed.

Lemma stoppingThreshold_ge (t : R) : 0 <= t -> ln 40 <= stoppingThreshold t.
Proof.
  intros Ht. unfold stoppingThreshold, stoppingThresholdAt, DELTA.
  pose proof (ln_e_shift_ge_1 t Ht) as H1.
  apply ln_le_mono; [lra |].
  apply (Rmult_le_reg_r 0.05); [lra |].
  unfold Rdiv. rewrite Rmult_assoc, Rinv_l by lra. lra.
Qed.

(** X5: the stopping threshold grows with the number of pulls and is never
    below [ln 40]: for [0 <= t1 <= t2],
    [ln 40 <= stoppingThreshold t1 <= stoppingThreshold t2]. *)
Theorem stoppingThreshold_grows (t1 t2 : R) :
  0 <= t1 -> t1 <= t2 ->
  ln 40 <= stoppingThreshold t1 /\ stoppingThreshold t1 <= stoppingThreshold t2.
Proof.
  intros H1 H12. split; [apply stoppingThreshold_ge; assumption |].
  unfold stoppingThreshold, stoppingThresholdAt, DELTA.
  pose proof exp_1_gt_1 as He.
  pose proof (log_term_pos t1 H1) as Hp1.
  assert (Hl : ln (t1 + exp 1) <= ln (t2 + exp 1)) by (apply ln_le_mono; lra).
  apply ln_le_mono.
  - apply Rdiv_lt_0_compat; lra.
  - unfold Rdiv. apply Rmult_le_compat_r; lra.
Qed.

Lemma stoppingThreshold_grows_witness :
  ln 40 <= stoppingThreshold 48 /\ stoppingThreshold 48 <= stoppingThreshold 5000.
Proof. apply stoppingThreshold_grows; lra. Defined.

Lemma sum_pulls_ge (n : Z) (arms : list Arm) :
  (forall a, In a arms -> (n <= pulls a)%Z) ->
  (n * Z.of_nat (length arms) <= fold_right Z.add 0 (map pulls arms))%Z.
Proof.
  induction arms as [| a arms IH]; intros Hall; simpl fold_right; simpl length.
  - lia.
  - assert (n <= pulls a)%Z by (apply Hall; left; reflexivity).
    assert (forall x, In x arms -> (n <= pulls x)%Z)
      by (intros x Hx; apply Hall; right; assumption).
    specialize (IH H0). lia.
Qed.

(** X6: what a firing of the stopping rule means.  When [shouldStop] answers
    [true], every arm has at least 12 pulls, so there are at least [12 K]
    pulls in all, and the best arm leads alone: every other arm has a
    strictly smaller mean, and its GLRT statistic against the best arm is at
    least [ln 40].  The rule does not fire while two arms tie for the best
    mean. *)
Theorem shouldStop_clear_leader (arms : list Arm) :
  shouldStop arms = true ->
  (forall a, In a arms -> (12 <= pulls a)%Z) /\
  (12 * Z.of_nat (length arms) <= totalPulls arms)%Z /\
  (forall i a, i <> bestArmIdx arms -> nth_error arms i = Some a ->
     exists ab, nth_error arms (bestArmIdx arms) = Some ab /\
                mean a < mean ab /\ ln 40 <= glrtStat ab a).
Proof.
  intros Hstop.
  assert (Hall : forall a, In a arms -> (12 <= pulls a)%Z).
  { destruct arms as [| a0 l] eqn:E; [intros a [] |].
    rewrite <- E in *. assert (Hne : arms <> []) by (rewrite E; discriminate).
    apply ltNum_minPulls_false; [assumption |].
    unfold shouldStop in Hstop.
    destruct (ltNum (minPulls arms) 12); [discriminate | reflexivity]. }
  split; [assumption |].
  assert (Htot : (12 * Z.of_nat (length arms) <= totalPulls arms)%Z)
    by (rewrite totalPulls_sum; apply sum_pulls_ge; assumption).
  split; [assumption |].
  intros i a Hi Ha.
  assert (Hne : arms <> []) by (intros E; rewrite E in Ha; destruct i; discriminate).
  destruct (bestArmIdx_leads arms Hne) as (ab & Hb & Hle & _).
  exists ab. split; [assumption |].
  unfold shouldStop in Hstop.
  destruct (ltNum (minPulls arms) 12); [discriminate |].
  rewrite shouldStop_loop_true in Hstop.
  specialize (Hstop i a Ha ltac:(simpl; assumption)).
  unfold belowThreshold in Hstop. rewrite Hb in Hstop.
  apply Rltb_false in Hstop.
  assert (Hthr : ln 40 <= stoppingThreshold (IZR (totalPulls arms))).
  { apply stoppingThreshold_ge. apply IZR_le. lia. }
  split; [| lra].
  pose proof ln_40_pos as H40.
  destruct (Rle_or_lt (mean ab) (mean a)) as [Hge | Hlt]; [| assumption].
  exfalso. unfold glrtStat in Hstop.
  destruct ((pulls ab <? 1)%Z || (pulls a <? 1)%Z)%bool; [lra |].
  rewrite (proj2 (Rleb_true (mean ab) (mean a))) in Hstop by assumption. lra.
Qed.

Lemma bestArmIdx_single (a : Arm) : bestArmIdx [a] = 0%nat.
Proof.
  unfold bestArmIdx, reduce. simpl. unfold bestStep.
  destruct (beats [a] a 0); reflexivity.
Qed.

Lemma shouldStop_single (a : Arm) :
  shouldStop [a] = negb (pulls a <? 12)%Z.
Proof.
  unfold shouldStop, minPulls. simpl.
  destruct (pulls a <? 12)%Z; [reflexivity |].
  rewrite bestArmIdx_single. reflexivity.
Qed.

Lemma ln_div_swap (x y : R) : 0 < x -> 0 < y -> ln (x / y) = - ln (y / x).
Proof.
  intros Hx Hy. unfold Rdiv.
  rewrite !ln_mult, !ln_Rinv; try lra; apply Rinv_0_lt_compat; lra.
Qed.

Lemma ln_2_le_1 : ln 2 <= 1.
Proof. pose proof (ln_le_pred 2). lra. Qed.

Lemma ln_pow2 (n : nat) : ln (2 ^ n) = INR n * ln 2.
Proof. apply ln_pow. lra. Qed.

Lemma decided_threshold : stoppingThreshold (IZR (totalPulls decidedArms)) <= 7.
Proof.
  unfold stoppingThreshold, stoppingThresholdAt, DELTA.
  rewrite totalPulls_sum. simpl fold_right.
  pose proof exp_le_3 as He. pose proof exp_1_gt_1 as He1.
  pose proof ln_2_le_1 as H2.
  assert (H32 : ln (24 + exp 1) <= 5).
  { apply Rle_trans with (ln (2 ^ 5)).
    - apply ln_le_mono; lra.
    - rewrite ln_pow2. simpl INR. lra. }
  assert (Hpos : 0 < ln (24 + exp 1)) by (rewrite <- ln_1; apply ln_increasing; lra).
  apply Rle_trans with (ln (2 ^ 7)).
  - apply ln_le_mono.
    + apply Rdiv_lt_0_compat; lra.
    + apply (Rmult_le_reg_r 0.05); [lra |].
      unfold Rdiv. rewrite Rmult_assoc, Rinv_l by lra. lra.
  - rewrite ln_pow2. simpl INR. lra.
Qed.

Lemma decided_statistic :
  7 <= glrtStat (mkArm 0 0.55 12 12) (mkArm 1 0.45 12 0).
Proof.
  unfold glrtStat, mean. simpl. decide_cmp.
  pose proof (klBern_nonneg (0 / 12) (12 / 12)) as Hn.
  assert (Hk : 1 <= klBern (12 / 12) (0 / 12)); [| lra].
  rewrite klBern_clamped.
  assert (Ep : clampProb (12 / 12) = 1 - 1e-9).
  { unfold clampProb, Rmax, Rmin. repeat destruct (Rle_dec _ _); lra. }
  assert (Eq : clampProb (0 / 12) = 1e-9).
  { unfold clampProb, Rmax, Rmin. repeat destruct (Rle_dec _ _); lra. }
  rewrite Ep, Eq.
  replace (1 - (1 - 1e-9)) with 1e-9 by lra.
  rewrite (ln_div_swap 1e-9 (1 - 1e-9)) by lra.
  assert (HL : 2 <= ln ((1 - 1e-9) / 1e-9)).
  { apply Rle_trans with (ln (2 ^ 4)).
    - rewrite ln_pow2. simpl INR. pose proof ln_lt_2. lra.
    - apply ln_le_mono; [lra |].
      apply (Rmult_le_reg_r 1e-9); [lra |].
      unfold Rdiv. rewrite Rmult_assoc, Rinv_l by lra. lra. }
  nra.
Qed.

(** The rule fires on [decidedArms]. *)
Lemma shouldStop_decided : shouldStop decidedArms = true.
Proof.
  assert (Hb : bestArmIdx decidedArms = 0%nat).
  { unfold bestArmIdx, reduce, decidedArms. simpl.
    unfold bestStep, beats, Rgtb, mean. repeat (progress (simpl; decide_cmp)).
    reflexivity. }
  unfold shouldStop.
  change (ltNum (minPulls decidedArms) 12) with false. cbv iota zeta.
  rewrite shouldStop_loop_true, Hb.
  intros [| [| k]] a Hk Hne; simpl in *; try lia; try discriminate.
  - injection Hk as <-. unfold belowThreshold. simpl nth_error. cbv iota beta.
    apply Rltb_false.
    pose proof decided_threshold. pose proof decided_statistic. lra.
  - destruct k; discriminate.
Qed.

Lemma shouldStop_clear_leader_witness :
  shouldStop decidedArms = true /\
  (forall a, In a decidedArms -> (12 <= pulls a)%Z) /\
  (12 * 2 <= totalPulls decidedArms)%Z /\
  (forall i a, i <> bestArmIdx decidedArms -> nth_error decidedArms i = Some a ->
     exists ab, nth_error decidedArms (bestArmIdx decidedArms) = Some ab /\
                mean a < mean ab /\ ln 40 <= glrtStat ab a).
Proof.
  split; [exact shouldStop_decided |].
  exact (shouldStop_clear_leader decidedArms shouldStop_decided).
Defined.

(** X7: without a challenger the rule has nothing to test: with no arm it
    answers [true], and with a single arm it answers [true] exactly when
    that arm has at least 12 pulls. *)
Theorem shouldStop_no_challenger (a : Arm) :
  shouldStop [] = true /\
  (shouldStop [a] = true <-> (12 <= pulls a)%Z).
Proof.
  split; [reflexivity |]. rewrite shouldStop_single.
  destruct (Z.ltb_spec (pulls a) 12) as [Hlt | Hge]; simpl.
  - split; [discriminate | lia].
  - split; [intros _; assumption | reflexivity].
Qed.

(** ** Allocator *)

Lemma exists_below_of_total (n : Z) (arms : list Arm) :
  (totalPulls arms < n * Z.of_nat (length arms))%Z ->
  exists a, In a arms /\ (pulls a < n)%Z.
Proof.
  rewrite totalPulls_sum.
  induction arms as [| a arms IH]; simpl fold_right; simpl length; intros H.
  - lia.
  - destruct (Z.lt_ge_cases (pulls a) n) as [Hlt | Hge].
    + exists a. split; [left; reflexivity | assumption].
    + destruct IH as (x & Hx & Hlt); [lia |].
      exists x. split; [right; assumption | assumption].
Qed.

(** X8: the warm-up.  While some arm has fewer than 6 pulls, and so for as
    long as there are fewer than [6 K] pulls in all, the adaptive allocation
    is the uniform one: both modes compute the same allocation, every entry
    being [1/K]. *)
Theorem warmup_is_uniform (arms : list Arm) :
  arms <> [] ->
  (exists a, In a arms /\ (pulls a < 6)%Z) \/
  (totalPulls arms < 6 * Z.of_nat (length arms))%Z ->
  computeAdaptiveAlloc arms = Some (uniformAlloc arms) /\
  modeAlloc adaptive arms = modeAlloc uniform arms /\
  (forall i x, nth_error (uniformAlloc arms) i = Some x ->
               x = 1 / INR (length arms)).
Proof.
  intros Hne Hw.
  assert (Hex : exists a, In a arms /\ (pulls a < 6)%Z).
  { destruct Hw as [H | H]; [assumption | apply exists_below_of_total; assumption]. }
  assert (E : computeAdaptiveAlloc arms = Some (uniformAlloc arms)).
  { unfold computeAdaptiveAlloc.
    rewrite (proj2 (ltNum_minPulls arms 6 Hne) Hex). reflexivity. }
  split; [exact E |]. split; [exact E |].
  intros i x Hx. unfold uniformAlloc in Hx. rewrite nth_error_map in Hx.
  destruct (nth_error arms i); simpl in Hx; [| discriminate].
  injection Hx as <-. reflexivity.
Qed.

Lemma warmup_is_uniform_witness :
  roundingArms <> [] /\
  (totalPulls (map reset roundingArms) < 6 * 4)%Z /\
  computeAdaptiveAlloc (map reset roundingArms)
  = Some (uniformAlloc (map reset roundingArms)).
Proof.
  assert (Hne : map reset roundingArms <> []) by discriminate.
  assert (Ht : (totalPulls (map reset roundingArms) < 6 * 4)%Z)
    by (rewrite totalPulls_sum; simpl; lia).
  split; [discriminate |]. split; [exact Ht |].
  exact (proj1 (warmup_is_uniform (map reset roundingArms) Hne (or_intror Ht))).
Defined.

Lemma gapWeight_le_40000 (bestMean : R) (arm : Arm) :
  gapWeight bestMean arm <= 40000.
Proof.
  unfold gapWeight. pose proof (Rmax_r (bestMean - mean arm) 0.005) as Hg.
  set (gap := Rmax _ _) in *.
  assert (Hgg : 0.000025 <= gap * gap) by nra.
  apply (Rmult_le_reg_r (gap * gap)); [lra |].
  unfold Rdiv. rewrite Rmult_assoc, Rinv_l by lra. lra.
Qed.

(** An arm closer to the best mean weighs at least as much. *)
Lemma gapWeight_mono (bestMean : R) (a b : Arm) :
  mean a <= mean b -> gapWeight bestMean a <= gapWeight bestMean b.
Proof.
  intros Hle. unfold gapWeight.
  pose proof (Rmax_r (bestMean - mean a) 0.005) as Ha.
  pose proof (Rmax_r (bestMean - mean b) 0.005) as Hb.
  assert (Hg : Rmax (bestMean - mean b) 0.005 <= Rmax (bestMean - mean a) 0.005).
  { apply Rmax_lub; [| assumption].
    apply Rle_trans with (bestMean - mean a); [lra | apply Rmax_l]. }
  set (ga := Rmax (bestMean - mean a) 0.005) in *.
  set (gb := Rmax (bestMean - mean b) 0.005) in *.
  unfold Rdiv. rewrite !Rmult_1_l.
  apply Rinv_le_contravar; [apply Rmult_lt_0_compat; lra | nra].
Qed.

Lemma total_le_skip (c : R) (l : list R) :
  0 <= c -> Forall (fun x => x <= c) l ->
  forall b, nth_error l b = Some 0 -> total l <= c * (INR (length l) - 1).
Proof.
  intros Hc Hall. induction Hall as [| x l Hx Hl IH]; intros [| b] Hb;
    simpl in Hb; try discriminate.
  - injection Hb as ->. rewrite total_cons.
    change (length (0 :: l)) with (S (length l)). rewrite S_INR.
    assert (total l <= c * INR (length l)).
    { clear IH. induction Hl as [| y l Hy Hl IH]; [unfold total; simpl; lra |].
      rewrite total_cons. change (length (y :: l)) with (S (length l)).
      rewrite S_INR. lra. }
    lra.
  - rewrite total_cons. change (length (x :: l)) with (S (length l)).
    rewrite S_INR. specialize (IH b Hb). lra.
Qed.

Section AdaptiveShares.
Variable arms : list Arm.
Variable ab : Arm.
Hypothesis best_arm : nth_error arms (bestArmIdx arms) = Some ab.
Hypothesis warm : ltNum (minPulls arms) 6 = false.

Let best : nat := bestArmIdx arms.
Let w0 : list (option R) :=
  mapi (fun arm i => if (i =? best)%nat then None
                     else Some (gapWeight (mean ab) arm)) arms.
Let sumOthers : R :=
  reduce (fun s v i => if (i =? best)%nat then s else s + num v) w0 0.
Let wbest : R := Rmax sumOthers 0.01.

Lemma shares_alloc :
  computeAdaptiveAlloc arms
  = Some (map (fun x => x / (sumOthers + wbest))
            (map num (assign w0 best (Some wbest)))).
Proof. exact (computeAdaptiveAlloc_weights arms ab best_arm warm). Qed.

Lemma shares_total_pos : 0 < sumOthers + wbest.
Proof.
  pose proof (sumOthers_nonneg w0 best (w0_best_null arms ab best_arm)
                (w0_others_pos arms ab)) as H.
  fold sumOthers in H. pose proof (Rmax_r sumOthers 0.01). unfold wbest. lra.
Qed.

Lemma best_lt_length : (best < length arms)%nat.
Proof. apply nth_error_Some. unfold best. rewrite best_arm. discriminate. Qed.

Lemma share_of_best (alloc : list R) :
  computeAdaptiveAlloc arms = Some alloc ->
  nth_error alloc best = Some (wbest / (sumOthers + wbest)).
Proof.
  rewrite shares_alloc. intros E. injection E as <-.
  rewrite !nth_error_map, nth_error_assign_same; [reflexivity |].
  unfold w0, mapi. rewrite length_map_from. apply best_lt_length.
Qed.

Lemma share_of_challenger (alloc : list R) (i : nat) (a : Arm) :
  computeAdaptiveAlloc arms = Some alloc ->
  i <> best -> nth_error arms i = Some a ->
  nth_error alloc i = Some (gapWeight (mean ab) a / (sumOthers + wbest)).
Proof.
  rewrite shares_alloc. intros E Hi Ha. injection E as <-.
  rewrite !nth_error_map, nth_error_assign_other by auto.
  fold best in w0. unfold w0, mapi. rewrite nth_error_map_from, Ha. simpl.
  destruct (Nat.eqb_spec i best); [contradiction | reflexivity].
Qed.

Lemma challenger_le_sumOthers (i : nat) (a : Arm) :
  i <> best -> nth_error arms i = Some a ->
  gapWeight (mean ab) a <= sumOthers.
Proof.
  intros Hi Ha.
  apply (sumOthers_ge_challenger w0 best (w0_best_null arms ab best_arm)
           (w0_others_pos arms ab) i); [assumption |].
  unfold w0, mapi. rewrite nth_error_map_from, Ha. simpl.
  destruct (Nat.eqb_spec i best); [contradiction | reflexivity].
Qed.

Lemma sumOthers_le :
  sumOthers <= 40000 * (INR (length arms) - 1).
Proof.
  unfold sumOthers.
  rewrite (sumOthers_total w0 best (w0_best_null arms ab best_arm)).
  replace (length arms) with (length (map num w0))
    by (rewrite length_map; unfold w0, mapi; apply length_map_from).
  apply (total_le_skip 40000 (map num w0) ltac:(lra)) with (b := best).
  - apply Forall_forall. intros x Hx. apply In_nth_error in Hx.
    destruct Hx as [j Hj]. rewrite nth_error_map in Hj.
    unfold w0, mapi in Hj. rewrite nth_error_map_from in Hj.
    destruct (nth_error arms j) as [a |]; simpl in Hj; [| discriminate].
    injection Hj as <-.
    destruct (j =? best)%nat; simpl; [lra | apply gapWeight_le_40000].
  - pose proof (w0_best_null arms ab best_arm) as Hn.
    rewrite nth_error_map. unfold w0, best. rewrite Hn. reflexivity.
Qed.
End AdaptiveShares.

(** X9: closer competitors get more traffic.  Past the warm-up, of two
    arms other than the best the one with the larger mean (the smaller gap
    to the best) gets at least as large a share, and no arm gets a larger
    share than the best arm. *)
Theorem adaptive_closer_gets_more (arms : list Arm) :
  arms <> [] -> (forall a, In a arms -> (6 <= pulls a)%Z) ->
  exists alloc,
    computeAdaptiveAlloc arms = Some alloc /\
    (forall i j a b xi xj,
        i <> bestArmIdx arms -> j <> bestArmIdx arms ->
        nth_error arms i = Some a -> nth_error arms j = Some b ->
        nth_error alloc i = Some xi -> nth_error alloc j = Some xj ->
        mean a <= mean b -> xi <= xj) /\
    (forall i xi xb,
        nth_error alloc i = Some xi ->
        nth_error alloc (bestArmIdx arms) = Some xb -> xi <= xb).
Proof.
  intros Hne Hall.
  assert (Hmin : ltNum (minPulls arms) 6 = false)
    by (apply ltNum_minPulls_false; assumption).
  destruct (bestArmIdx_leads arms Hne) as (ab & Hb & _).
  destruct (adaptive_good arms ab Hb Hmin) as (alloc & Ha & Hlen & _).
  exists alloc. split; [assumption |].
  pose proof (shares_total_pos arms ab Hb) as HD.
  pose proof (share_of_best arms ab Hb Hmin alloc Ha) as Hbest.
  pose proof (share_of_challenger arms ab Hb Hmin alloc) as Hch.
  pose proof (challenger_le_sumOthers arms ab Hb) as Hsum.
  match type of HD with 0 < ?s + _ => set (S := s) in * end.
  set (W := Rmax S 0.01) in *.
  assert (HW : S <= W) by apply Rmax_l.
  assert (Hinv : 0 < / (S + W)) by (apply Rinv_0_lt_compat; assumption).
  split.
  - intros i j a b xi xj Hi Hj Hia Hjb Hxi Hxj Hle.
    rewrite (Hch i a Ha Hi Hia) in Hxi. injection Hxi as <-.
    rewrite (Hch j b Ha Hj Hjb) in Hxj. injection Hxj as <-.
    unfold Rdiv. apply Rmult_le_compat_r; [lra |].
    apply gapWeight_mono. assumption.
  - intros i xi xb Hxi Hxb. rewrite Hbest in Hxb. injection Hxb as <-.
    destruct (Nat.eq_dec i (bestArmIdx arms)) as [-> | Hi].
    + rewrite Hbest in Hxi. injection Hxi as <-. lra.
    + destruct (nth_error arms i) as [a |] eqn:Hia.
      * rewrite (Hch i a Ha Hi Hia) in Hxi. injection Hxi as <-.
        specialize (Hsum i a Hi Hia).
        unfold Rdiv. apply Rmult_le_compat_r; lra.
      * apply nth_error_None in Hia.
        assert (nth_error alloc i = None) by (apply nth_error_None; lia).
        congruence.
Qed.

Lemma adaptive_closer_gets_more_witness :
  sampleArms <> [] /\ (forall a, In a sampleArms -> (6 <= pulls a)%Z) /\
  exists alloc, computeAdaptiveAlloc sampleArms = Some alloc.
Proof.
  assert (Hne : sampleArms <> []) by discriminate.
  assert (Hp : forall a, In a sampleArms -> (6 <= pulls a)%Z).
  { intros a [<- | [<- | [<- | []]]]; simpl; lia. }
  split; [exact Hne |]. split; [exact Hp |].
  destruct (adaptive_closer_gets_more sampleArms Hne Hp) as (alloc & Ha & _).
  exists alloc. exact Ha.
Defined.

(** X10: no arm is starved.  Past the warm-up, with [K >= 2] valid arms,
    every share of the adaptive allocation is at least
    [1 / (80000 (K - 1))] and at most one half. *)
Theorem adaptive_no_starvation (arms : list Arm) :
  (2 <= length arms)%nat -> Forall valid arms ->
  (forall a, In a arms -> (6 <= pulls a)%Z) ->
  exists alloc,
    computeAdaptiveAlloc arms = Some alloc /\
    forall i x, nth_error alloc i = Some x ->
                1 / (80000 * (INR (length arms) - 1)) <= x <= 1 / 2.
Proof.
  intros HK Hv Hall.
  assert (Hne : arms <> []) by (destruct arms; [simpl in HK; lia | discriminate]).
  assert (Hmin : ltNum (minPulls arms) 6 = false)
    by (apply ltNum_minPulls_false; assumption).
  destruct (bestArmIdx_leads arms Hne) as (ab & Hb & _).
  destruct (adaptive_good arms ab Hb Hmin) as (alloc & Ha & Hlen & _).
  exists alloc. split; [assumption |].
  destruct (best_share_half arms ab Hb Hv HK Hmin) as (HS1 & Hmax & _).
  pose proof (share_of_best arms ab Hb Hmin alloc Ha) as Hbest.
  pose proof (share_of_challenger arms ab Hb Hmin alloc) as Hch.
  pose proof (challenger_le_sumOthers arms ab Hb) as Hsum.
  pose proof (sumOthers_le arms ab Hb) as Hup.
  match type of HS1 with 1 <= ?s => set (S := s) in * end.
  rewrite Hmax in Hbest, Hch.
  assert (HKR : 2 <= INR (length arms)) by (apply (le_INR 2); assumption).
  assert (Hlow : 1 / (80000 * (INR (length arms) - 1)) <= 1 / (S + S)).
  { unfold Rdiv. rewrite !Rmult_1_l.
    apply Rinv_le_contravar; lra. }
  assert (Hinv : 0 < / (S + S)) by (apply Rinv_0_lt_compat; lra).
  assert (Hhalf : S / (S + S) = 1 / 2) by (field; lra).
  intros i x Hx.
  destruct (Nat.eq_dec i (bestArmIdx arms)) as [-> | Hi].
  - rewrite Hbest in Hx. injection Hx as <-. rewrite Hhalf.
    split; [| lra]. rewrite Hhalf in *.
    apply Rle_trans with (1 / (S + S)); [assumption |].
    unfold Rdiv. rewrite Rmult_1_l.
    apply (Rmult_le_reg_r (S + S)); [lra |].
    rewrite Rinv_l by lra. lra.
  - destruct (nth_error arms i) as [a |] eqn:Hia.
    + rewrite (Hch i a Ha Hi Hia) in Hx. injection Hx as <-.
      specialize (Hsum i a Hi Hia).
      destruct (challenger_weight_ge_1 arms ab Hb i a Hv Hi Hia) as [_ Hge].
      split.
      * apply Rle_trans with (1 / (S + S)); [assumption |].
        unfold Rdiv. apply Rmult_le_compat_r; lra.
      * rewrite <- Hhalf. unfold Rdiv. apply Rmult_le_compat_r; lra.
    + apply nth_error_None in Hia.
      assert (nth_error alloc i = None) by (apply nth_error_None; lia).
      congruence.
Qed.

Lemma adaptive_no_starvation_witness :
  (2 <= length sampleArms)%nat /\ Forall valid sampleArms /\
  (forall a, In a sampleArms -> (6 <= pulls a)%Z) /\
  exists alloc,
    computeAdaptiveAlloc sampleArms = Some alloc /\
    forall i x, nth_error alloc i = Some x ->
                1 / (80000 * (INR (length sampleArms) - 1)) <= x <= 1 / 2.
Proof.
  assert (HK : (2 <= length sampleArms)%nat) by (simpl; lia).
  assert (Hv : Forall valid sampleArms)
    by (repeat constructor; unfold valid; simpl; lia).
  assert (Hp : forall a, In a sampleArms -> (6 <= pulls a)%Z).
  { intros a [<- | [<- | [<- | []]]]; simpl; lia. }
  split; [exact HK |]. split; [exact Hv |]. split; [exact Hp |].
  exact (adaptive_no_starvation sampleArms HK Hv Hp).
Defined.

(** ** Arm selection *)

(** X11: [selectArm] is monotone in the draw: a larger draw never selects an
    earlier arm, on any allocation. *)
Theorem selectArm_monotone (r1 r2 : R) (alloc : list R) :
  r1 <= r2 -> (selectArm r1 alloc <= selectArm r2 alloc)%Z.
Proof.
  intros Hr. destruct alloc as [| a0 l] eqn:E; [reflexivity |].
  rewrite <- E. assert (Hne : alloc <> []) by (rewrite E; discriminate).
  destruct (selectArm_spec r1 alloc Hne) as (i1 & -> & Hi1 & Hb1 & _).
  destruct (selectArm_spec r2 alloc Hne) as (i2 & -> & Hi2 & _ & Hat2).
  apply inj_le. destruct (Nat.le_gt_cases i1 i2) as [Hle | Hgt]; [assumption |].
  specialize (Hb1 i2 Hgt).
  destruct Hat2 as [Hreach | [Hlast _]]; [lra | lia].
Qed.

Lemma selectArm_monotone_witness :
  0.3 <= 0.8 /\ (selectArm 0.3 sampleAlloc <= selectArm 0.8 sampleAlloc)%Z.
Proof.
  assert (H : 0.3 <= 0.8) by lra.
  split; [exact H | exact (selectArm_monotone 0.3 0.8 sampleAlloc H)].
Defined.

Lemma cumFrom_step (l : list R) :
  forall c j x, nth_error l (S j) = Some x ->
                cumFrom c l (S j) = cumFrom c l j + x.
Proof.
  induction l as [| a l IH]; intros c j x Hx; [discriminate |].
  rewrite cumFrom_cons. simpl in Hx. destruct j as [| j].
  - destruct l as [| b l']; [discriminate |]. simpl in Hx. injection Hx as <-.
    rewrite !cumFrom_head. reflexivity.
  - rewrite (IH (c + a) j x Hx), cumFrom_cons. reflexivity.
Qed.

Lemma cumFrom_all (l : list R) :
  forall c, l <> [] -> cumFrom c l (length l - 1) = fold_left Rplus l c.
Proof.
  intros c Hne. unfold cumFrom.
  replace (S (length l - 1)) with (length l)
    by (destruct l; [contradiction | simpl; lia]).
  rewrite firstn_all. reflexivity.
Qed.

Lemma cumWeight_mono (alloc : list R) :
  Forall (fun x => 0 <= x) alloc ->
  forall i j, (i <= j)%nat -> (j < length alloc)%nat ->
              cumWeight alloc i <= cumWeight alloc j.
Proof.
  intros Hpos i j Hij. induction Hij as [| j Hij IH]; intros Hj; [lra |].
  destruct (nth_error alloc (S j)) as [x |] eqn:Hx.
  - unfold cumWeight. rewrite (cumFrom_step alloc 0 j x Hx).
    assert (0 <= x).
    { rewrite Forall_forall in Hpos. apply Hpos. apply (nth_error_In _ _ Hx). }
    specialize (IH ltac:(lia)). unfold cumWeight in IH. lra.
  - apply nth_error_None in Hx. lia.
Qed.

Lemma cumWeight_split (alloc : list R) (i : nat) (x : R) :
  nth_error alloc i = Some x -> cumWeight alloc i = cumBefore alloc i + x.
Proof.
  intros Hx. destruct i as [| j].
  - destruct alloc as [| a l]; [discriminate |]. simpl in Hx.
    injection Hx as <-. unfold cumWeight. rewrite cumFrom_head. reflexivity.
  - unfold cumWeight, cumBefore. apply cumFrom_step. assumption.
Qed.

(** X12: each arm is drawn on an interval of draws as long as its weight.
    On an allocation without negative entries and for a draw [r] with
    [0 < r <= total], [selectArm] returns [i] exactly when [r] lies above
    the cumulative weight before [i] and at or below the cumulative weight
    of [i]; the two differ by the weight of [i], and the fallback to the
    last index is not needed. *)
Theorem selectArm_interval (r : R) (alloc : list R) (i : nat) (x : R) :
  Forall (fun x => 0 <= x) alloc -> 0 < r <= total alloc ->
  nth_error alloc i = Some x ->
  (selectArm r alloc = Z.of_nat i <-> cumBefore alloc i < r <= cumWeight alloc i) /\
  cumWeight alloc i - cumBefore alloc i = x /\
  selectArm_loop r alloc 0 0 <> None.
Proof.
  intros Hpos [Hr0 Hr1] Hx.
  assert (Hi : (i < length alloc)%nat) by (apply nth_error_Some; congruence).
  assert (Hne : alloc <> []) by (intros E; rewrite E in Hi; simpl in Hi; lia).
  assert (Hlast : cumWeight alloc (length alloc - 1) = total alloc)
    by (apply cumFrom_all; assumption).
  split; [| split].
  - destruct (selectArm_spec r alloc Hne) as (k & Hk & Hklt & Hbefore & Hat).
    rewrite Hk. split.
    + intros E. apply Nat2Z.inj in E. subst k. split.
      * destruct i as [| j]; [exact Hr0 | apply Hbefore; lia].
      * destruct Hat as [Hreach | [_ Hnone]]; [assumption |].
        specialize (Hnone (length alloc - 1)%nat ltac:(lia)). lra.
    + intros [Hlo Hhi]. f_equal.
      destruct (Nat.lt_trichotomy k i) as [Hlt | [E | Hgt]]; [| assumption |].
      * exfalso. destruct Hat as [Hreach | [Hk' _]]; [| lia].
        destruct i as [| j]; [lia |]. simpl in Hlo.
        pose proof (cumWeight_mono alloc Hpos k j ltac:(lia) ltac:(lia)). lra.
      * exfalso. specialize (Hbefore i Hgt). lra.
  - rewrite (cumWeight_split alloc i x Hx). ring.
  - pose proof (selectArm_loop_spec r alloc 0 0) as H.
    destruct (selectArm_loop r alloc 0 0); [discriminate |].
    specialize (H (length alloc - 1)%nat ltac:(lia)).
    fold (cumWeight alloc (length alloc - 1)) in H. lra.
Qed.

Lemma selectArm_interval_witness :
  Forall (fun x => 0 <= x) sampleAlloc /\ 0 < 0.4 <= total sampleAlloc /\
  nth_error sampleAlloc 1 = Some 0.25 /\
  (selectArm 0.4 sampleAlloc = 1%Z <->
   cumBefore sampleAlloc 1 < 0.4 <= cumWeight sampleAlloc 1).
Proof.
  assert (Hpos : Forall (fun x => 0 <= x) sampleAlloc)
    by (repeat constructor; lra).
  assert (Hr : 0 < 0.4 <= total sampleAlloc) by (unfold total; simpl; lra).
  assert (Hx : nth_error sampleAlloc 1 = Some 0.25) by reflexivity.
  split; [exact Hpos |]. split; [exact Hr |]. split; [exact Hx |].
  exact (proj1 (selectArm_interval 0.4 sampleAlloc 1 0.25 Hpos Hr Hx)).
Defined.

(** ** Simulation driver: edge cases and invariants *)

(** X13: without arms a step throws, in both modes, and so does a batch
    that has a step to take. *)
Theorem simStep_no_arms (s : Sim) :
  arms s = [] ->
  simStep s = None /\
  (simDone s = false -> (1 <= stepsPerTick s)%nat -> runBatch s = None).
Proof.
  intros He.
  assert (Hstep : simStep s = None).
  { unfold simStep, modeAlloc. rewrite He. destruct (simMode s); reflexivity. }
  split; [exact Hstep |].
  intros Hd Hsp. unfold runBatch.
  destruct (stepsPerTick s) as [| n]; [lia |]. simpl.
  unfold finished. rewrite Hd, He. simpl. rewrite Hstep. reflexivity.
Qed.

Lemma simStep_no_arms_witness :
  arms (mkSim uniform false false 15 [] [] false None (fun _ => 0) []) = [] /\
  simStep (mkSim uniform false false 15 [] [] false None (fun _ => 0) []) = None.
Proof.
  split; [reflexivity |].
  exact (proj1 (simStep_no_arms
                  (mkSim uniform false false 15 [] [] false None (fun _ => 0) [])
                  eq_refl)).
Defined.

Lemma pull_keeps_valid_aux (u : R) (a : Arm) : valid a -> valid (fst (pull u a)).
Proof.
  intros [H0 H1]. unfold pull, valid.
  destruct (Rltb u (trueRate a)); simpl; lia.
Qed.

Lemma Forall_assign {A : Type} (P : A -> Prop) (l : list A) :
  forall i v, Forall P l -> P v -> Forall P (assign l i v).
Proof.
  induction l as [| x l IH]; intros [| i] v Hl Hv; simpl;
    inversion Hl; subst; constructor; auto.
Qed.

(** A step, written out: the allocation of the mode, the index drawn from
    it, the pull of that arm, the snapshot and the stopping test. *)
Lemma simStep_unfold (s : Sim) :
  arms s <> [] ->
  exists alloc i a,
    modeAlloc (simMode s) (arms s) = Some alloc /\
    length alloc = length (arms s) /\
    Forall (fun x => 0 < x) alloc /\ total alloc = 1 /\
    selectArm (random s 0%nat) alloc = Z.of_nat i /\
    nth_error (arms s) i = Some a /\
    simStep s
    = Some (mkSim (simMode s) (simRunning s) (simTimer s) (stepsPerTick s)
              (assign (arms s) i (fst (pull (random s 1%nat) a)))
              (if (totalPulls (assign (arms s) i (fst (pull (random s 1%nat) a)))
                   mod CHART_SAMPLE =? 0)%Z
               then allocHistory s
                    ++ [(totalPulls (assign (arms s) i
                                       (fst (pull (random s 1%nat) a))), alloc)]
               else allocHistory s)
              (if shouldStop (assign (arms s) i (fst (pull (random s 1%nat) a)))
               then true else simDone s)
              (if shouldStop (assign (arms s) i (fst (pull (random s 1%nat) a)))
               then Some (bestArmIdx
                            (assign (arms s) i (fst (pull (random s 1%nat) a))))
               else simWinner s)
              (fun n => random s (S (S n)))
              (winnerBar s)).
Proof.
  intros Hne. unfold simStep.
  destruct (modeAlloc_good (simMode s) (arms s) Hne)
    as (alloc & Hm & Hlen & Hpos & Htot).
  rewrite Hm.
  assert (Hane : alloc <> []).
  { intros E. rewrite E in Hlen. simpl in Hlen. symmetry in Hlen.
    apply length_zero_iff_nil in Hlen. contradiction. }
  destruct (selectArm_spec (random s 0%nat) alloc Hane) as (i & Hi & Hlt & _).
  rewrite Hi. unfold pullAt.
  destruct (Z.ltb_spec (Z.of_nat i) 0) as [Hneg | _]; [lia |].
  rewrite Nat2Z.id.
  destruct (nth_error (arms s) i) as [a |] eqn:Ea.
  - exists alloc, i, a. repeat (split; [assumption || reflexivity |]). reflexivity.
  - apply nth_error_None in Ea. lia.
Qed.

(** X14: a step pulls exactly one arm once.  On non-empty valid arms it
    does not throw; the arm at the index [selectArm] draws from the
    allocation of the mode is replaced by its pulled version, every other
    arm is left as it was, the arms stay valid and as many, and there is
    one pull more in all. *)
Theorem simStep_pulls_one_arm (s : Sim) :
  arms s <> [] -> Forall valid (arms s) ->
  exists s' alloc i a,
    simStep s = Some s' /\
    modeAlloc (simMode s) (arms s) = Some alloc /\
    selectArm (random s 0%nat) alloc = Z.of_nat i /\
    nth_error (arms s) i = Some a /\
    nth_error (arms s') i = Some (fst (pull (random s 1%nat) a)) /\
    (forall j, j <> i -> nth_error (arms s') j = nth_error (arms s) j) /\
    Forall valid (arms s') /\
    length (arms s') = length (arms s) /\
    totalPulls (arms s') = (totalPulls (arms s) + 1)%Z.
Proof.
  intros Hne Hv.
  destruct (simStep_unfold s Hne)
    as (alloc & i & a & Hm & _ & _ & _ & Hsel & Ha & Hs).
  eexists. exists alloc, i, a.
  split; [exact Hs |]. split; [exact Hm |]. split; [exact Hsel |].
  split; [exact Ha |]. simpl.
  assert (Hi : (i < length (arms s))%nat) by (apply nth_error_Some; congruence).
  split; [apply nth_error_assign_same; assumption |].
  split; [intros j Hj; apply nth_error_assign_other; auto |].
  split.
  - apply Forall_assign; [assumption |].
    apply pull_keeps_valid_aux.
    rewrite Forall_forall in Hv. apply Hv. apply (nth_error_In _ _ Ha).
  - split; [apply length_assign |].
    rewrite (totalPulls_assign _ _ _ _ Ha), pulls_pull. lia.
Qed.

Lemma simStep_pulls_one_arm_witness :
  arms sampleSim <> [] /\ Forall valid (arms sampleSim) /\
  exists s', simStep sampleSim = Some s' /\
             totalPulls (arms s') = (totalPulls (arms sampleSim) + 1)%Z.
Proof.
  assert (Hne : arms sampleSim <> []) by discriminate.
  assert (Hv : Forall valid (arms sampleSim))
    by (repeat constructor; unfold valid; simpl; lia).
  split; [exact Hne |]. split; [exact Hv |].
  destruct (simStep_pulls_one_arm sampleSim Hne Hv)
    as (s' & alloc & i & a & Hs & _ & _ & _ & _ & _ & _ & _ & Ht).
  exists s'. split; [exact Hs | exact Ht].
Defined.

Lemma simStep_pulls_one_arm_aux (s : Sim) :
  arms s <> [] -> Forall valid (arms s) ->
  exists s',
    simStep s = Some s' /\ arms s' <> [] /\ Forall valid (arms s') /\
    length (arms s') = length (arms s) /\
    totalPulls (arms s') = (totalPulls (arms s) + 1)%Z.
Proof.
  intros Hne Hv.
  destruct (simStep_unfold s Hne)
    as (alloc & i & a & _ & _ & _ & _ & _ & Ha & Hs).
  eexists. split; [exact Hs |]. simpl.
  split; [apply assign_nonempty; assumption |]. split.
  - apply Forall_assign; [assumption |]. apply pull_keeps_valid_aux.
    rewrite Forall_forall in Hv. apply Hv. apply (nth_error_In _ _ Ha).
  - split; [apply length_assign |].
    rewrite (totalPulls_assign _ _ _ _ Ha), pulls_pull. lia.
Qed.

Section DriverInvariant.
(** An invariant [P] that the steps the batch loop takes preserve, and that
    does not depend on the flags, the timer and the winner bar. *)
Variable P : Sim -> Prop.
Hypothesis P_nonempty : forall s, P s -> arms s <> [].
Hypothesis P_step :
  forall s s', P s -> finished s = false -> simStep s = Some s' -> P s'.
Hypothesis P_end : forall s, P s -> P (showWinner (stopSim s)).

Lemma runBatch_loop_invariant (n : nat) :
  forall s, P s -> exists s', runBatch_loop n s = Some s' /\ P s'.
Proof.
  induction n as [| n IH]; intros s Hs; simpl.
  - exists s. split; [reflexivity | assumption].
  - destruct (finished s) eqn:Hf.
    + exists s. split; [reflexivity | assumption].
    + destruct (simStep_spec s (P_nonempty s Hs)) as (s1 & Hs1 & _).
      rewrite Hs1. apply IH. apply (P_step s s1 Hs Hf Hs1).
Qed.

Lemma runBatch_invariant (s : Sim) :
  P s -> exists s', runBatch s = Some s' /\ P s'.
Proof.
  intros Hs. unfold runBatch.
  destruct (runBatch_loop_invariant (stepsPerTick s) s Hs) as (s1 & -> & H1).
  eexists. split; [reflexivity |].
  destruct (finished s1); [apply P_end |]; assumption.
Qed.

Lemma ticks_invariant (n : nat) :
  forall s, P s -> exists s', ticks n s = Some s' /\ P s'.
Proof.
  induction n as [| n IH]; intros s Hs; simpl.
  - exists s. split; [reflexivity | assumption].
  - unfold tick. destruct (simTimer s).
    + destruct (runBatch_invariant s Hs) as (s1 & -> & H1). apply IH. assumption.
    + apply IH. assumption.
Qed.
End DriverInvariant.

Lemma StronglySorted_snoc (l : list Z) (t : Z) :
  StronglySorted Z.lt l -> Forall (fun x => (x < t)%Z) l ->
  StronglySorted Z.lt (l ++ [t]).
Proof.
  induction 1 as [| x l Hs IH Hx]; intros Hlt; simpl.
  - constructor; constructor.
  - inversion Hlt as [| ? ? Hxt Hl]; subst. constructor.
    + apply IH. assumption.
    + apply Forall_app. split; [assumption | constructor; [assumption | constructor]].
Qed.

Lemma historyOK_step (s s' : Sim) :
  arms s <> [] -> historyOK s -> simStep s = Some s' -> historyOK s'.
Proof.
  intros Hne (Hsnap & Hsort & Hle) Hs.
  destruct (simStep_unfold s Hne)
    as (alloc & i & a & _ & Hlen & Hpos & Htot & _ & Ha & Hs').
  rewrite Hs in Hs'. injection Hs' as ->.
  set (arms' := assign (arms s) i (fst (pull (random s 1%nat) a))).
  assert (Ht : totalPulls arms' = (totalPulls (arms s) + 1)%Z).
  { unfold arms'. rewrite (totalPulls_assign _ _ _ _ Ha), pulls_pull. lia. }
  assert (HK : length arms' = length (arms s)) by apply length_assign.
  unfold historyOK. simpl. fold arms'. rewrite HK.
  destruct (Z.eqb_spec (totalPulls arms' mod CHART_SAMPLE) 0) as [Hmod | _].
  - split; [| split].
    + apply Forall_app. split; [assumption |].
      constructor; [| constructor].
      split; [exact Hmod |]. split; [exact Hlen |]. split; assumption.
    + rewrite map_app. simpl. apply StronglySorted_snoc; [assumption |].
      apply Forall_map. revert Hle. apply Forall_impl. intros e He. lia.
    + apply Forall_app. split.
      * revert Hle. apply Forall_impl. intros e He. lia.
      * constructor; [simpl; lia | constructor].
  - split; [assumption |]. split; [assumption |].
    revert Hle. apply Forall_impl. intros e He. lia.
Qed.

Lemma historyOK_reset (s : Sim) : historyOK (resetSim s).
Proof. repeat split; simpl; constructor. Qed.

(** X15: the history stays well formed.  From a state with arms and a
    well-formed history (the state after [resetSim] is one), any number of
    timer firings runs without throwing and leaves a history whose
    snapshots were taken at multiples of 15 pulls, in strictly increasing
    order, none later than the current pull count, each holding [K]
    positive shares that sum to 1. *)
Theorem history_stays_well_formed (n : nat) (s : Sim) :
  arms s <> [] -> historyOK s ->
  exists s', ticks n s = Some s' /\ arms s' <> [] /\ historyOK s'.
Proof.
  intros Hne Hh.
  destruct (ticks_invariant (fun x => arms x <> [] /\ historyOK x)) with (n := n) (s := s)
    as (s' & Hs & Hne' & Hh').
  - intros x [H _]. exact H.
  - intros x x' [Hx Hhx] _ Hstep. split.
    + destruct (simStep_spec x Hx) as (x1 & Hx1 & Hne1 & _). congruence.
    + apply (historyOK_step x x' Hx Hhx Hstep).
  - intros x [Hx Hhx]. split; [exact Hx | exact Hhx].
  - split; assumption.
  - exists s'. split; [assumption |]. split; assumption.
Qed.

Lemma history_stays_well_formed_witness :
  arms (startSim (resetSim sampleSim)) <> [] /\
  historyOK (startSim (resetSim sampleSim)) /\
  exists s', ticks 3 (startSim (resetSim sampleSim)) = Some s' /\ historyOK s'.
Proof.
  assert (Hne : arms (startSim (resetSim sampleSim)) <> []) by discriminate.
  assert (Hh : historyOK (startSim (resetSim sampleSim)))
    by exact (historyOK_reset sampleSim).
  split; [exact Hne |]. split; [exact Hh |].
  destruct (history_stays_well_formed 3 _ Hne Hh) as (s' & Hs & _ & Hh').
  exists s'. split; [exact Hs | exact Hh'].
Defined.

(** X16: the run never passes the cap and never loses data.  From non-empty
    valid arms with at most [MAX_STEPS] pulls, any number of timer firings
    runs without throwing and leaves as many arms, still valid, with a
    total of pulls that has not decreased and is at most [MAX_STEPS]. *)
Theorem run_stays_under_cap (n : nat) (s : Sim) :
  arms s <> [] -> Forall valid (arms s) ->
  (totalPulls (arms s) <= MAX_STEPS)%Z ->
  exists s',
    ticks n s = Some s' /\
    length (arms s') = length (arms s) /\
    Forall valid (arms s') /\
    (totalPulls (arms s) <= totalPulls (arms s') <= MAX_STEPS)%Z.
Proof.
  intros Hne Hv Hcap.
  destruct (ticks_invariant
              (fun x => arms x <> [] /\ length (arms x) = length (arms s) /\
                        Forall valid (arms x) /\
                        (totalPulls (arms s) <= totalPulls (arms x) <= MAX_STEPS)%Z))
    with (n := n) (s := s) as (s' & Hs & _ & HK & Hv' & Ht').
  - intros x [H _]. exact H.
  - intros x x' (Hx & HKx & Hvx & Htx) Hf Hstep.
    destruct (simStep_pulls_one_arm_aux x Hx Hvx)
      as (x1 & Hx1 & Hne1 & Hv1 & HK1 & Ht1).
    rewrite Hstep in Hx1. injection Hx1 as <-.
    destruct (finished_false x Hf) as [_ Hlt].
    split; [assumption |]. split; [congruence |]. split; [assumption |]. lia.
  - intros x H. exact H.
  - split; [assumption |]. split; [reflexivity |]. split; [assumption |]. lia.
  - exists s'. split; [assumption |]. split; [assumption |]. split; assumption.
Qed.

Lemma run_stays_under_cap_witness :
  arms (startSim sampleSim) <> [] /\ Forall valid (arms (startSim sampleSim)) /\
  (totalPulls (arms (startSim sampleSim)) <= MAX_STEPS)%Z /\
  exists s', ticks 400 (startSim sampleSim) = Some s' /\
             (totalPulls (arms s') <= MAX_STEPS)%Z.
Proof.
  assert (Hne : arms (startSim sampleSim) <> []) by discriminate.
  assert (Hv : Forall valid (arms (startSim sampleSim)))
    by (repeat constructor; unfold valid; simpl; lia).
  assert (Hc : (totalPulls (arms (startSim sampleSim)) <= MAX_STEPS)%Z)
    by (unfold MAX_STEPS; rewrite totalPulls_sum; simpl; lia).
  split; [exact Hne |]. split; [exact Hv |]. split; [exact Hc |].
  destruct (run_stays_under_cap 400 _ Hne Hv Hc) as (s' & Hs & _ & _ & Ht).
  exists s'. split; [exact Hs | lia].
Defined.

(** ** Runs of the driver loop *)

Lemma bestArmIdx_decided : bestArmIdx decidedArms = 0%nat.
Proof.
  unfold bestArmIdx, reduce, decidedArms. simpl.
  unfold bestStep, beats, Rgtb, mean. repeat (progress (simpl; decide_cmp)).
  reflexivity.
Qed.

(** The step of [decidingSim]: the second arm is drawn and fails, the arms
    become [decidedArms], the rule fires. *)
Lemma decidingSim_step :
  simStep (startSim decidingSim)
  = Some (mkSim uniform true true 15 decidedArms [] true (Some 0%nat)
            (fun _ => 0.9) []).
Proof.
  unfold simStep.
  change (modeAlloc (simMode (startSim decidingSim)) (arms (startSim decidingSim)))
    with (Some [1 / INR 2; 1 / INR 2]).
  cbv iota beta zeta.
  change (random (startSim decidingSim) 0%nat) with 0.9.
  change (random (startSim decidingSim) 1%nat) with 0.9.
  assert (Hsel : selectArm 0.9 [1 / INR 2; 1 / INR 2] = 1%Z).
  { unfold selectArm. simpl. decide_cmp. reflexivity. }
  rewrite Hsel.
  assert (Hpull : pullAt 0.9 (arms (startSim decidingSim)) 1 = Some decidedArms).
  { unfold pullAt. simpl. unfold pull. simpl. decide_cmp. reflexivity. }
  rewrite Hpull. cbv iota beta zeta.
  rewrite shouldStop_decided, bestArmIdx_decided.
  reflexivity.
Qed.

(** The batch of [decidingSim] takes that one step and shows the outcome. *)
Lemma decidingSim_tick : ticks 1 (startSim decidingSim) = Some decidedSim.
Proof.
  unfold ticks, tick. change (simTimer (startSim decidingSim)) with true.
  cbv iota. unfold runBatch.
  change (stepsPerTick (startSim decidingSim)) with 15%nat.
  change (runBatch_loop 15 (startSim decidingSim))
    with (if finished (startSim decidingSim) then Some (startSim decidingSim)
          else match simStep (startSim decidingSim) with
               | None => None
               | Some s' => runBatch_loop 14 s'
               end).
  change (finished (startSim decidingSim)) with false. cbv iota.
  rewrite decidingSim_step.
  rewrite runBatch_loop_finished by reflexivity.
  reflexivity.
Qed.

Lemma totalPulls_firstArmOnly (k : Z) : totalPulls (firstArmOnly k) = k.
Proof. rewrite totalPulls_sum. simpl. lia. Qed.

Lemma firstArmOnly_warmup (k n : Z) :
  (0 < n)%Z -> ltNum (minPulls (firstArmOnly k)) n = true.
Proof.
  intros Hn. apply ltNum_minPulls; [discriminate |].
  exists (mkArm 1 0.45 0 0). split; [right; left; reflexivity | simpl; lia].
Qed.

Lemma bestArmIdx_firstArmOnly (k : Z) :
  (0 < k)%Z -> bestArmIdx (firstArmOnly k) = 0%nat.
Proof.
  intros Hk. unfold bestArmIdx, reduce, firstArmOnly. simpl.
  assert (Hm : mean (mkArm 0 0.55 k k) = 1).
  { rewrite mean_pulled by (simpl; lia). simpl.
    assert (0 < IZR k) by (apply IZR_lt; assumption).
    unfold Rdiv. apply Rinv_r. lra. }
  assert (H0 : forall i r, mean (mkArm i r 0 0) = 0.5) by reflexivity.
  unfold bestStep, beats, Rgtb. simpl. rewrite Hm, !H0.
  repeat (progress (simpl; decide_cmp)). reflexivity.
Qed.

(** With every draw 0 a step selects the first arm, which succeeds. *)
Lemma zeroDraws_step (s s' : Sim) :
  zeroDraws s -> finished s = false -> simStep s = Some s' -> zeroDraws s'.
Proof.
  intros (k & Hk & Ha & Hm & Hd & Hw & Hr) Hf Hs.
  destruct (finished_false s Hf) as [_ Hlt].
  rewrite Ha, totalPulls_firstArmOnly in Hlt.
  unfold simStep in Hs. rewrite Hm, Ha, !Hr in Hs.
  unfold modeAlloc, computeAdaptiveAlloc in Hs.
  rewrite (firstArmOnly_warmup k 6) in Hs by lia.
  assert (Hsel : selectArm 0 (uniformAlloc (firstArmOnly k)) = 0%Z).
  { unfold selectArm. simpl. decide_cmp. reflexivity. }
  rewrite Hsel in Hs.
  assert (Hpull : pullAt 0 (firstArmOnly k) 0 = Some (firstArmOnly (k + 1))).
  { unfold pullAt. simpl. unfold pull. simpl. decide_cmp. reflexivity. }
  rewrite Hpull in Hs. cbv iota beta zeta in Hs.
  assert (Hstop : shouldStop (firstArmOnly (k + 1)) = false).
  { unfold shouldStop. rewrite (firstArmOnly_warmup (k + 1) 12) by lia.
    reflexivity. }
  rewrite Hstop in Hs. injection Hs as <-.
  exists (k + 1)%Z. simpl.
  split; [lia |]. split; [reflexivity |]. split; [reflexivity |].
  split; [assumption |]. split; [assumption |]. intros n. apply Hr.
Qed.

(** The run of the page with every draw 0 ends at the cap, the first arm
    pulled [MAX_STEPS] times. *)
Lemma zeroDraws_run :
  exists s',
    ticks (S 5000) (startSim sampleSim) = Some s' /\
    consistent s' /\ ended [] s' /\
    arms s' = firstArmOnly MAX_STEPS /\ simDone s' = false.
Proof.
  assert (Hc0 : consistent (startSim sampleSim))
    by apply (initialSim_consistent (fun _ => 0)).
  assert (Hsp : (1 <= stepsPerTick (startSim sampleSim))%nat) by (simpl; lia).
  assert (Hleft : (MAX_STEPS - totalPulls (arms (startSim sampleSim))
                   <= Z.of_nat 5000)%Z).
  { unfold MAX_STEPS. rewrite totalPulls_sum. simpl. lia. }
  destruct (ticks_end [] 5000 (startSim sampleSim) Hc0 eq_refl eq_refl Hsp Hleft)
    as (s' & Hs & Hc & He).
  destruct (ticks_invariant zeroDraws) with (n := S 5000) (s := startSim sampleSim)
    as (s2 & Hs2 & k & Hk & Ha & _ & Hd & _).
  - intros x (k & _ & Ha & _). rewrite Ha. discriminate.
  - exact zeroDraws_step.
  - intros x H. exact H.
  - exists 0%Z. unfold MAX_STEPS. split; [lia |].
    split; [reflexivity |]. split; [reflexivity |]. split; [reflexivity |].
    split; reflexivity.
  - rewrite Hs in Hs2. injection Hs2 as <-.
    exists s'. split; [assumption |]. split; [assumption |].
    split; [assumption |]. split; [| assumption].
    destruct He as (Hf & _). unfold finished in Hf. rewrite Hd in Hf.
    simpl in Hf. apply Z.leb_le in Hf.
    rewrite Ha, totalPulls_firstArmOnly in Hf.
    rewrite Ha. f_equal. lia.
Qed.

(** C4, as stated, fails at the cap.  On the run of the page on which every
    call of [Math.random()] returns 0 the first arm is pulled [MAX_STEPS]
    times and the cap ends the run: one outcome is shown, but [simDone] is
    not set and [simWinner] is still [null], so the winner is not captured
    (the index shown is computed by [showWinner]); and the state is not
    terminal: without a reset the play button starts another batch, which
    takes no step and shows the outcome a second time. *)
Lemma cap_outcome_shown_again :
  exists s',
    ticks (S 5000) (startSim sampleSim) = Some s' /\
    ended [] s' /\
    arms s' = firstArmOnly 5000 /\
    simDone s' = false /\ simWinner s' = None /\
    winnerBar s' = [mkOutcome 0 5000] /\
    exists s'',
      tick (togglePlay s') = Some s'' /\
      arms s'' = arms s' /\
      winnerBar s'' = [mkOutcome 0 5000; mkOutcome 0 5000].
Proof.
  destruct zeroDraws_run as (s' & Hs & Hc & He & Ha & Hd).
  assert (Hbar : winnerBar s' = [mkOutcome 0 5000]).
  { destruct He as (_ & _ & _ & Hb). rewrite Hb, Ha.
    rewrite totalPulls_firstArmOnly, bestArmIdx_firstArmOnly by (unfold MAX_STEPS; lia).
    reflexivity. }
  exists s'. split; [assumption |]. split; [assumption |].
  split; [assumption |]. split; [assumption |].
  split; [destruct Hc as (_ & Hw & _); rewrite Hd in Hw; assumption |].
  split; [assumption |].
  destruct (play_after_cap [] s' Hc He Hd) as (s2 & Ht & Ha2 & _ & _ & _ & Hb2).
  exists s2. split; [assumption |]. split; [assumption |].
  rewrite Hb2, Hbar, Ha.
  rewrite totalPulls_firstArmOnly, bestArmIdx_firstArmOnly by (unfold MAX_STEPS; lia).
  reflexivity.
Qed.

(** What a step does when the stopping rule fires on the arms it leaves. *)
Lemma simStep_fires (s s' : Sim) :
  simStep s = Some s' -> shouldStop (arms s') = true ->
  simDone s' = true /\ simWinner s' = Some (bestArmIdx (arms s')) /\
  finished s' = true.
Proof.
  unfold simStep. intros Hs Hstop.
  destruct (modeAlloc (simMode s) (arms s)) as [alloc |]; [| discriminate].
  destruct (pullAt _ _ _) as [arms' |]; [| discriminate].
  injection Hs as <-. simpl in *. unfold finished. simpl.
  rewrite Hstop. repeat split; reflexivity.
Qed.

(** C4, amended: a run of the driver loop, started by [startSim] from a
    consistent state with at least one step per batch.  A step on which the
    stopping rule fires sets [simDone], captures the best arm in
    [simWinner], and no batch executes a step after it.  After any number
    of firings of the timer [simDone] tells whether the rule holds, and the
    run either goes on, the rule not holding, the pulls below [MAX_STEPS]
    and no outcome shown, or has ended: then the rule has fired ([simDone],
    with [simWinner] the best arm) or, the rule not holding, the pulls have
    reached [MAX_STEPS] ([simDone] unset, [simWinner] still [null]);
    exactly one outcome has been added to the winner bar, its winner index
    is the current best arm and its count the total of pulls in both cases,
    the timer is cleared, later firings change nothing and no later batch
    executes a step.  The run has ended at the latest when the timer has
    fired once per pull that was left to the cap. *)
Theorem run_ends_with_one_outcome (s : Sim) :
  consistent s -> (1 <= stepsPerTick s)%nat ->
  (forall s1 s2,
      simStep s1 = Some s2 -> shouldStop (arms s2) = true ->
      simDone s2 = true /\ simWinner s2 = Some (bestArmIdx (arms s2)) /\
      forall k, runBatch_loop k s2 = Some s2) /\
  (forall n, exists s',
      ticks (S n) (startSim s) = Some s' /\
      simDone s' = shouldStop (arms s') /\
      ((running (winnerBar s) s' /\ shouldStop (arms s') = false /\
        (totalPulls (arms s') < MAX_STEPS)%Z)
       \/
       (ended (winnerBar s) s' /\
        ((simDone s' = true /\ shouldStop (arms s') = true /\
          simWinner s' = Some (bestArmIdx (arms s')))
         \/ (simDone s' = false /\ shouldStop (arms s') = false /\
             simWinner s' = None /\
             (MAX_STEPS <= totalPulls (arms s'))%Z)) /\
        (forall m, ticks m s' = Some s') /\
        (forall k, runBatch_loop k s' = Some s')))) /\
  (forall n, (MAX_STEPS - totalPulls (arms s) <= Z.of_nat n)%Z ->
             exists s', ticks (S n) (startSim s) = Some s' /\
                        ended (winnerBar s) s').
Proof.
  intros Hc Hsp. split; [| split].
  - intros s1 s2 Hs Hstop.
    destruct (simStep_fires s1 s2 Hs Hstop) as (Hd & Hw & Hf).
    split; [assumption |]. split; [assumption |].
    apply runBatch_loop_finished. assumption.
  - intros n.
    destruct (ticks_running (winnerBar s) n (startSim s)
                (startSim_consistent s Hc) eq_refl eq_refl)
      as (s' & Hs & Hc' & Hcase).
    exists s'. split; [assumption |].
    split; [exact (proj2 (proj2 Hc')) |].
    destruct Hcase as [Hr | He]; [left | right].
    + split; [assumption |].
      destruct Hr as (Hf & _). destruct (finished_false s' Hf) as [Hd Hlt].
      split; [| assumption]. rewrite <- (proj2 (proj2 Hc')). assumption.
    + split; [assumption |]. split; [apply (ended_cause _ _ Hc' He) |].
      destruct He as (Hf & Hoff & _). split.
      * apply ticks_timer_off. assumption.
      * apply runBatch_loop_finished. assumption.
  - intros n Hn.
    destruct (ticks_end (winnerBar s) n (startSim s)
                (startSim_consistent s Hc) eq_refl eq_refl Hsp Hn)
      as (s' & Hs & _ & He).
    exists s'. split; assumption.
Qed.

Lemma run_ends_with_one_outcome_witness :
  consistent decidingSim /\ (1 <= stepsPerTick decidingSim)%nat /\
  exists s',
    ticks 1 (startSim decidingSim) = Some s' /\
    ended [] s' /\ arms s' = decidedArms /\
    shouldStop (arms s') = true /\ simDone s' = true /\
    simWinner s' = Some 0%nat /\ winnerBar s' = [mkOutcome 0 24].
Proof.
  assert (Hc : consistent decidingSim).
  { split; [discriminate |]. split; [reflexivity |]. reflexivity. }
  assert (Hsp : (1 <= stepsPerTick decidingSim)%nat) by (simpl; lia).
  split; [exact Hc |]. split; [exact Hsp |].
  destruct (run_ends_with_one_outcome decidingSim Hc Hsp) as (_ & Hrun & _).
  destruct (Hrun 0%nat) as (s' & Hs & Hd & Hcase).
  exists s'. split; [exact Hs |].
  rewrite decidingSim_tick in Hs. injection Hs as <-.
  destruct Hcase as [(_ & Hno & _) | (He & _)].
  - rewrite <- Hd in Hno. discriminate Hno.
  - split; [exact He |]. split; [reflexivity |].
    split; [rewrite <- Hd; reflexivity |].
    split; [reflexivity |]. split; reflexivity.
Defined.

(** ** Controls *)

(** X17: pausing and resuming.  While the run is not done and the timer is
    armed exactly when [simRunning] is set, the play button pressed twice
    gives the state back; and as long as the simulation stays paused timer
    firings change nothing. *)
Theorem togglePlay_round_trip (s : Sim) :
  simDone s = false -> simTimer s = simRunning s ->
  togglePlay (togglePlay s) = s /\
  (simRunning s = true -> forall m, ticks m (togglePlay s) = Some (togglePlay s)).
Proof.
  intros Hd Ht. destruct s as [m r t sp a h d w rnd bar]. simpl in *. subst.
  unfold togglePlay. simpl. destruct r; simpl.
  - split; [reflexivity |]. intros _ k. apply ticks_timer_off. reflexivity.
  - split; [reflexivity |]. discriminate.
Qed.

Lemma togglePlay_round_trip_witness :
  simDone sampleSim = false /\ simTimer sampleSim = simRunning sampleSim /\
  togglePlay (togglePlay sampleSim) = sampleSim.
Proof.
  split; [reflexivity |]. split; [reflexivity |].
  exact (proj1 (togglePlay_round_trip sampleSim eq_refl eq_refl)).
Defined.

Lemma reset_reset (a : Arm) : reset (reset a) = reset a.
Proof. reflexivity. Qed.

Lemma totalPulls_reset (l : list Arm) : totalPulls (map reset l) = 0%Z.
Proof.
  rewrite totalPulls_sum. induction l as [| a l IH]; simpl; [reflexivity |].
  rewrite IH. reflexivity.
Qed.

(** X18: [resetSim] gives a fresh run and is idempotent.  Resetting twice
    is resetting once; after a reset there is no pull left, every mean is
    the prior 0.5, the history is empty, the run is neither done nor
    finished, the arms keep their number, indices and true rates, and with
    at least one arm the allocation is uniform in both modes. *)
Theorem resetSim_fresh (s : Sim) :
  resetSim (resetSim s) = resetSim s /\
  totalPulls (arms (resetSim s)) = 0%Z /\
  (forall a, In a (arms (resetSim s)) -> pulls a = 0%Z /\ mean a = 0.5) /\
  allocHistory (resetSim s) = [] /\
  simDone (resetSim s) = false /\ simWinner (resetSim s) = None /\
  finished (resetSim s) = false /\
  map idx (arms (resetSim s)) = map idx (arms s) /\
  map trueRate (arms (resetSim s)) = map trueRate (arms s) /\
  (arms s <> [] ->
   forall m, modeAlloc m (arms (resetSim s)) = Some (uniformAlloc (arms s))).
Proof.
  split.
  { unfold resetSim. simpl. rewrite map_map. reflexivity. }
  split; [apply totalPulls_reset |].
  split.
  { simpl. intros a Ha. apply in_map_iff in Ha. destruct Ha as (b & <- & _).
    split; reflexivity. }
  split; [reflexivity |]. split; [reflexivity |]. split; [reflexivity |].
  split.
  { unfold finished. simpl. rewrite totalPulls_reset. reflexivity. }
  split; [simpl; rewrite map_map; reflexivity |].
  split; [simpl; rewrite map_map; reflexivity |].
  intros Hne m. simpl.
  assert (Hu : uniformAlloc (map reset (arms s)) = uniformAlloc (arms s)).
  { unfold uniformAlloc. rewrite length_map, map_map. reflexivity. }
  destruct m; simpl; [| rewrite Hu; reflexivity].
  unfold computeAdaptiveAlloc.
  assert (Hw : ltNum (minPulls (map reset (arms s))) 6 = true).
  { apply ltNum_minPulls.
    - destruct (arms s); [contradiction | discriminate].
    - destruct (arms s) as [| a l]; [contradiction |].
      exists (reset a). split; [left; reflexivity | simpl; lia]. }
  rewrite Hw, Hu. reflexivity.
Qed.

Lemma resetSim_fresh_witness :
  arms sampleSim <> [] /\
  forall m, modeAlloc m (arms (resetSim sampleSim))
            = Some (uniformAlloc (arms sampleSim)).
Proof.
  assert (Hne : arms sampleSim <> []) by discriminate.
  split; [exact Hne |].
  destruct (resetSim_fresh sampleSim) as (_ & _ & _ & _ & _ & _ & _ & _ & _ & H).
  exact (H Hne).
Defined.

(** ** Duration estimator *)

Lemma mathRound_bounds (x : R) :
  x - 0.5 < IZR (mathRound x) <= x + 0.5.
Proof.
  unfold mathRound. destruct (base_Int_part (x + 0.5)) as [H1 H2]. lra.
Qed.

Lemma mathRound_mono (x y : R) : x <= y -> (mathRound x <= mathRound y)%Z.
Proof.
  intros Hxy. pose proof (mathRound_bounds x) as Hx.
  pose proof (mathRound_bounds y) as Hy.
  assert (H : IZR (mathRound x) < IZR (mathRound y + 1)).
  { rewrite plus_IZR. lra. }
  apply lt_IZR in H. lia.
Qed.

Lemma mathRound_IZR (z : Z) : mathRound (IZR z) = z.
Proof.
  pose proof (mathRound_bounds (IZR z)) as [H1 H2].
  assert (Ha : IZR (z - 1) < IZR (mathRound (IZR z))) by (rewrite minus_IZR; lra).
  assert (Hb : IZR (mathRound (IZR z)) < IZR (z + 1)) by (rewrite plus_IZR; lra).
  apply lt_IZR in Ha, Hb. lia.
Qed.

Lemma epsScale_pos (eps : R) :
  0 < (if Rgtb eps 0.001 then (0.05 / eps) * 0.8 + 0.2 else 3.5).
Proof.
  destruct (Rgtb eps 0.001) eqn:E; [| lra].
  apply Rgtb_true in E.
  assert (0 < 0.05 / eps) by (apply Rdiv_lt_0_compat; lra). lra.
Qed.

Lemma ln_20_pos : 0 < ln (1 / 0.05).
Proof. rewrite <- ln_1. apply ln_increasing; lra. Qed.

(** The uniform estimate as a function of the adaptive one. *)
Lemma uniform_from_adaptive (a : Z) :
  (80 <= a)%Z ->
  let u := Z.max 120 (mathRound (IZR a * 1.45 / 50) * 50) in
  1.2 * IZR a <= IZR u <= 1.7625 * IZR a.
Proof.
  intros Ha u.
  assert (HaR : 80 <= IZR a) by (apply IZR_le; assumption).
  pose proof (mathRound_bounds (IZR a * 1.45 / 50)) as [H1 H2].
  set (r := mathRound (IZR a * 1.45 / 50)) in *.
  assert (Hr : IZR (r * 50) = IZR r * 50) by apply mult_IZR.
  unfold u. destruct (Z.max_spec 120 (r * 50)) as [[Hlt ->] | [Hge ->]].
  - assert (120 < IZR (r * 50)) by (apply IZR_lt; assumption).
    rewrite Hr in *. lra.
  - assert (IZR (r * 50) <= 120) by (apply IZR_le; assumption).
    rewrite Hr in *. lra.
Qed.

(** X19: the estimates are in a fixed relation.  For [delta > 0] and any
    [eps], the adaptive estimate is at least 80, the uniform estimate is at
    least 120 and between 1.2 and 1.7625 times the adaptive one, and the
    savings shown lie between 17 and 43 per cent. *)
Theorem estimate_ranges (delta eps : R) :
  0 < delta ->
  let e := Estimator.estimateDuration delta eps in
  (80 <= Estimator.adaptive e)%Z /\ (120 <= Estimator.uniform e)%Z /\
  1.2 * IZR (Estimator.adaptive e) <= IZR (Estimator.uniform e)
    <= 1.7625 * IZR (Estimator.adaptive e) /\
  (Estimator.adaptive e < Estimator.uniform e)%Z /\
  (17 <= Estimator.savings e <= 43)%Z.
Proof.
  intros _ e. unfold e, Estimator.estimateDuration. simpl.
  set (a := Z.max 80 _).
  assert (Ha : (80 <= a)%Z) by apply Z.le_max_l.
  pose proof (uniform_from_adaptive a Ha) as Hu. simpl in Hu.
  set (u := Z.max 120 _) in *.
  assert (HaR : 80 <= IZR a) by (apply IZR_le; assumption).
  split; [assumption |]. split; [apply Z.le_max_l |]. split; [assumption |].
  split; [apply lt_IZR; lra |].
  pose proof (mathRound_bounds ((1 - IZR a / IZR u) * 100)) as [H1 H2].
  assert (Hq : 1 / 1.7625 <= IZR a / IZR u <= 1 / 1.2).
  { assert (Hupos : 0 < IZR u) by lra.
    split.
    - apply (Rmult_le_reg_r (IZR u)); [assumption |].
      unfold Rdiv at 2. rewrite Rmult_assoc, Rinv_l by lra. lra.
    - apply (Rmult_le_reg_r (IZR u)); [assumption |].
      unfold Rdiv at 1. rewrite Rmult_assoc, Rinv_l by lra. lra. }
  set (sv := mathRound ((1 - IZR a / IZR u) * 100)) in *.
  assert (Hlo : IZR 16 < IZR sv) by lra.
  assert (Hhi : IZR sv < IZR 44) by lra.
  apply lt_IZR in Hlo, Hhi. lia.
Qed.

Lemma estimate_ranges_witness :
  0 < 0.05 /\
  (17 <= Estimator.savings (Estimator.estimateDuration 0.05 0.05) <= 43)%Z.
Proof.
  assert (H : 0 < 0.05) by lra.
  split; [exact H |].
  destruct (estimate_ranges 0.05 0.05 H) as (_ & _ & _ & _ & Hs). exact Hs.
Defined.

Lemma adaptive_mono_raw (x y : R) :
  x <= y ->
  (Z.max 80 (mathRound (x / 50) * 50) <= Z.max 80 (mathRound (y / 50) * 50))%Z.
Proof.
  intros Hxy.
  assert (H : (mathRound (x / 50) <= mathRound (y / 50))%Z)
    by (apply mathRound_mono; lra).
  lia.
Qed.

Lemma uniform_mono (a b : Z) :
  (a <= b)%Z ->
  (Z.max 120 (mathRound (IZR a * 1.45 / 50) * 50)
   <= Z.max 120 (mathRound (IZR b * 1.45 / 50) * 50))%Z.
Proof.
  intros Hab. assert (IZR a <= IZR b) by (apply IZR_le; assumption).
  assert (H' : (mathRound (IZR a * 1.45 / 50) <= mathRound (IZR b * 1.45 / 50))%Z)
    by (apply mathRound_mono; lra).
  lia.
Qed.

(** X20: a stricter error tolerance never shortens the estimate: for
    [0 < d1 <= d2] and any [eps], the adaptive and the uniform estimate at
    [d2] are at most those at [d1]. *)
Theorem estimate_antitone_in_delta (d1 d2 eps : R) :
  0 < d1 -> d1 <= d2 ->
  (Estimator.adaptive (Estimator.estimateDuration d2 eps)
   <= Estimator.adaptive (Estimator.estimateDuration d1 eps))%Z /\
  (Estimator.uniform (Estimator.estimateDuration d2 eps)
   <= Estimator.uniform (Estimator.estimateDuration d1 eps))%Z.
Proof.
  intros H1 H12. unfold Estimator.estimateDuration. simpl.
  pose proof (epsScale_pos eps) as He. pose proof ln_20_pos as H20.
  set (es := if Rgtb eps 0.001 then _ else _) in *.
  assert (Hl : ln (1 / d2) <= ln (1 / d1)).
  { apply ln_le_mono.
    - apply Rdiv_lt_0_compat; lra.
    - unfold Rdiv. rewrite !Rmult_1_l. apply Rinv_le_contravar; assumption. }
  assert (Hs : ln (1 / d2) / ln (1 / 0.05) <= ln (1 / d1) / ln (1 / 0.05)).
  { unfold Rdiv at 1 3. apply Rmult_le_compat_r; [| assumption].
    left. apply Rinv_0_lt_compat. assumption. }
  assert (Hraw : Estimator.EST_BASE * Estimator.EST_ARMS_SCALE
                 * (ln (1 / d2) / ln (1 / 0.05)) * es
                 <= Estimator.EST_BASE * Estimator.EST_ARMS_SCALE
                    * (ln (1 / d1) / ln (1 / 0.05)) * es).
  { unfold Estimator.EST_BASE, Estimator.EST_ARMS_SCALE.
    apply Rmult_le_compat_r; [lra |].
    apply Rmult_le_compat_l; [lra | assumption]. }
  pose proof (adaptive_mono_raw _ _ Hraw) as Ha.
  split; [exact Ha | apply uniform_mono; exact Ha].
Qed.

Lemma estimate_antitone_in_delta_witness :
  0 < 0.01 /\ 0.01 <= 0.10 /\
  (Estimator.adaptive (Estimator.estimateDuration 0.10 0.05)
   <= Estimator.adaptive (Estimator.estimateDuration 0.01 0.05))%Z.
Proof.
  assert (H1 : 0 < 0.01) by lra. assert (H2 : 0.01 <= 0.10) by lra.
  split; [exact H1 |]. split; [exact H2 |].
  exact (proj1 (estimate_antitone_in_delta 0.01 0.10 0.05 H1 H2)).
Defined.

Lemma deltaScale_nonneg (delta : R) :
  0 < delta <= 1 -> 0 <= ln (1 / delta) / ln (1 / 0.05).
Proof.
  intros [H0 H1]. pose proof ln_20_pos as H20.
  assert (0 <= ln (1 / delta)).
  { rewrite <- ln_1. apply ln_le_mono; [lra |].
    apply (Rmult_le_reg_r delta); [assumption |].
    unfold Rdiv. rewrite Rmult_assoc, Rinv_l by lra. lra. }
  apply Rmult_le_pos; [assumption | left; apply Rinv_0_lt_compat; assumption].
Qed.

Lemma adaptive_mono_scale (delta : R) (x y : R) :
  0 < delta <= 1 -> x <= y ->
  (Z.max 80 (mathRound (Estimator.EST_BASE * Estimator.EST_ARMS_SCALE
                        * (ln (1 / delta) / ln (1 / 0.05)) * x / 50) * 50)
   <= Z.max 80 (mathRound (Estimator.EST_BASE * Estimator.EST_ARMS_SCALE
                           * (ln (1 / delta) / ln (1 / 0.05)) * y / 50) * 50))%Z.
Proof.
  intros Hd Hxy. apply adaptive_mono_raw.
  pose proof (deltaScale_nonneg delta Hd) as Hs.
  unfold Estimator.EST_BASE, Estimator.EST_ARMS_SCALE.
  apply Rmult_le_compat_l; [| assumption].
  apply Rmult_le_pos; [lra | assumption].
Qed.

(** X21: the estimate as a function of [eps], for [0 < delta <= 1].  Above
    the cut-off 0.001 a larger [eps] never lengthens the adaptive estimate.
    At or below the cut-off the code uses the constant 3.5, which is less
    than the scale just above the cut-off: an [eps] of at most 0.001 gives
    an estimate no longer than any [eps] in (0.001, 0.012]. *)
Theorem estimate_in_eps (delta e1 e2 : R) :
  0 < delta <= 1 ->
  (0.001 < e1 -> e1 <= e2 ->
   (Estimator.adaptive (Estimator.estimateDuration delta e2)
    <= Estimator.adaptive (Estimator.estimateDuration delta e1))%Z) /\
  (e1 <= 0.001 -> 0.001 < e2 <= 0.012 ->
   (Estimator.adaptive (Estimator.estimateDuration delta e1)
    <= Estimator.adaptive (Estimator.estimateDuration delta e2))%Z).
Proof.
  intros Hd. split.
  - intros H1 H12. unfold Estimator.estimateDuration. simpl.
    rewrite (proj2 (Rgtb_true e1 0.001)) by lra.
    rewrite (proj2 (Rgtb_true e2 0.001)) by lra.
    apply (adaptive_mono_scale delta _ _ Hd).
    assert (/ e2 <= / e1) by (apply Rinv_le_contravar; lra).
    unfold Rdiv. nra.
  - intros H1 [H2 H3]. unfold Estimator.estimateDuration. simpl.
    rewrite (proj2 (Rgtb_false e1 0.001)) by lra.
    rewrite (proj2 (Rgtb_true e2 0.001)) by lra.
    apply (adaptive_mono_scale delta _ _ Hd).
    assert (/ 0.012 <= / e2) by (apply Rinv_le_contravar; lra).
    unfold Rdiv. lra.
Qed.

Lemma estimate_in_eps_witness :
  0 < 0.05 <= 1 /\ 0 <= 0.001 /\ 0.001 < 0.01 <= 0.012 /\
  (Estimator.adaptive (Estimator.estimateDuration 0.05 0)
   <= Estimator.adaptive (Estimator.estimateDuration 0.05 0.01))%Z.
Proof.
  assert (Hd : 0 < 0.05 <= 1) by lra. assert (H1 : 0 <= 0.001) by lra.
  assert (H2 : 0.001 < 0.01 <= 0.012) by lra.
  split; [exact Hd |]. split; [exact H1 |]. split; [exact H2 |].
  exact (proj2 (estimate_in_eps 0.05 0 0.01 Hd) H1 H2).
Defined.

(** ** Static charts *)

(** X22: the ease-in-out curve.  It takes 0 to 0, 1/2 to 1/2 and 1 to 1,
    is symmetric about the midpoint ([ease (1 - t) = 1 - ease t] for every
    [t]), and on [[0,1]] it stays in [[0,1]] and never decreases. *)
Theorem ease_curve (t u : R) :
  NerCharts.ease 0 = 0 /\ NerCharts.ease 0.5 = 0.5 /\ NerCharts.ease 1 = 1 /\
  NerCharts.ease (1 - t) = 1 - NerCharts.ease t /\
  (0 <= t <= 1 -> 0 <= NerCharts.ease t <= 1) /\
  (0 <= t -> t <= u -> u <= 1 -> NerCharts.ease t <= NerCharts.ease u).
Proof.
  unfold NerCharts.ease.
  split; [decide_cmp; lra |]. split; [decide_cmp; lra |].
  split; [decide_cmp; lra |]. split; [| split].
  - destruct (Rltb t 0.5) eqn:Et; destruct (Rltb (1 - t) 0.5) eqn:E1;
      try apply Rltb_true in Et; try apply Rltb_false in Et;
      try apply Rltb_true in E1; try apply Rltb_false in E1; try lra.
    assert (t = 0.5) by lra. subst t. lra.
  - intros [H0 H1]. destruct (Rltb t 0.5) eqn:Et;
      [apply Rltb_true in Et | apply Rltb_false in Et]; nra.
  - intros H0 Htu H1.
    destruct (Rltb t 0.5) eqn:Et; destruct (Rltb u 0.5) eqn:Eu;
      try apply Rltb_true in Et; try apply Rltb_false in Et;
      try apply Rltb_true in Eu; try apply Rltb_false in Eu; nra.
Qed.

Lemma ease_curve_witness :
  0 <= 0.25 <= 1 /\ 0 <= NerCharts.ease 0.25 <= 1.
Proof.
  assert (H : 0 <= 0.25 <= 1) by lra.
  split; [exact H |].
  destruct (ease_curve 0.25 0.25) as (_ & _ & _ & _ & Hr & _). exact (Hr H).
Defined.

Lemma ease_range (t : R) : 0 <= t <= 1 -> 0 <= NerCharts.ease t <= 1.
Proof.
  intros [H0 H1]. unfold NerCharts.ease.
  destruct (Rltb t 0.5) eqn:Et;
    [apply Rltb_true in Et | apply Rltb_false in Et]; nra.
Qed.

Lemma noise_bound (i vi : nat) : -0.025 <= NerCharts.noise i vi <= 0.025.
Proof.
  unfold NerCharts.noise.
  pose proof (SIN_bound (INR i * 13.7 + INR vi * 5.3)).
  pose proof (SIN_bound (INR i * 7.1 + INR vi)). lra.
Qed.

Lemma clamp_chart_mono (a b : R) :
  a <= b -> Rmax 0.01 (Rmin 1 a) <= Rmax 0.01 (Rmin 1 b).
Proof.
  intros Hab. unfold Rmax, Rmin. repeat destruct (Rle_dec _ _); lra.
Qed.

Lemma clamp_chart_range (a : R) : 0.01 <= Rmax 0.01 (Rmin 1 a) <= 1.
Proof. unfold Rmax, Rmin. repeat destruct (Rle_dec _ _); lra. Qed.

Lemma map_from_compose {A B C : Type} (f : B -> nat -> C) (g : A -> nat -> B)
    (l : list A) :
  forall i, map_from f i (map_from g i l) = map_from (fun x j => f (g x j) j) i l.
Proof.
  induction l as [| x l IH]; intros i; simpl; [reflexivity |].
  rewrite IH. reflexivity.
Qed.

Lemma map_from_ext {A B : Type} (f g : A -> nat -> B) (l : list A) :
  (forall x j, f x j = g x j) ->
  forall i, map_from f i l = map_from g i l.
Proof.
  intros Hfg. induction l as [| x l IH]; intros i; simpl; [reflexivity |].
  rewrite Hfg, IH. reflexivity.
Qed.

Lemma map_from_id {A : Type} (l : list A) :
  forall i, map_from (fun x _ => x) i l = l.
Proof.
  induction l as [| x l IH]; intros i; simpl; [reflexivity |].
  rewrite IH. reflexivity.
Qed.

(** What the loop of [makeNerData] has built after [k] iterations from
    [i]. *)
Lemma nerLoop_spec (n : nat) (s e : list R) (T : R) (k : nat) :
  forall i L D,
    NerCharts.nerLoop n s e T k i (L, D)
    = (L ++ map (fun j => INR j * (T / INR n)) (seq i k),
       mapi (fun d vi => d ++ map (fun j => NerCharts.dataPoint n s e j vi) (seq i k))
         D).
Proof.
  induction k as [| k IH]; intros i L D; simpl.
  - rewrite app_nil_r. f_equal. unfold mapi.
    rewrite (map_from_ext _ (fun x _ => x)) by (intros; apply app_nil_r).
    symmetry. apply map_from_id.
  - unfold NerCharts.nerStep. simpl. rewrite IH. f_equal.
    + rewrite <- app_assoc. reflexivity.
    + unfold mapi. rewrite map_from_compose. apply map_from_ext.
      intros d vi. rewrite <- app_assoc. reflexivity.
Qed.

Lemma makeNerData_eq (n : nat) (s e : list R) (T : R) :
  NerCharts.makeNerData n s e T
  = (map (fun j => INR j * (T / INR n)) (seq 0 (S n)),
     map (fun vi => map (fun j => NerCharts.dataPoint n s e j vi) (seq 0 (S n)))
       (seq 0 NerCharts.NER_VARIANTS)).
Proof.
  unfold NerCharts.makeNerData. rewrite nerLoop_spec. reflexivity.
Qed.

Lemma dataPoint_spec (n : nat) (start finish : list R) (i vi : nat) (s e : R) :
  (1 <= n)%nat -> (i <= n)%nat ->
  nth_error start vi = Some s -> nth_error finish vi = Some e ->
  exists x,
    NerCharts.dataPoint n start finish i vi = Some x /\
    0.01 <= x <= 1 /\
    Rmax 0.01 (Rmin 1 (Rmin s e - 0.025)) <= x
      <= Rmax 0.01 (Rmin 1 (Rmax s e + 0.025)).
Proof.
  intros Hn Hi Hs He. unfold NerCharts.dataPoint. rewrite Hs, He.
  eexists. split; [reflexivity |]. split; [apply clamp_chart_range |].
  assert (Hn0 : 0 < INR n) by (apply lt_0_INR; lia).
  assert (Ht : 0 <= INR i / INR n <= 1).
  { split.
    - apply Rmult_le_pos; [apply pos_INR | left; apply Rinv_0_lt_compat; assumption].
    - apply (Rmult_le_reg_r (INR n)); [assumption |].
      unfold Rdiv. rewrite Rmult_assoc, Rinv_l by lra.
      pose proof (le_INR i n Hi). lra. }
  pose proof (ease_range _ Ht) as Hease.
  pose proof (noise_bound i vi) as Hnoise.
  set (g := NerCharts.ease (INR i / INR n)) in *.
  pose proof (Rmin_l s e). pose proof (Rmin_r s e).
  pose proof (Rmax_l s e). pose proof (Rmax_r s e).
  split; apply clamp_chart_mono; nra.
Qed.

(** X23: the shape of a chart.  For [n >= 1] and allocation arrays with an
    entry for each of the four variants, [makeNerData] returns [n + 1]
    labels running from 0 to [totalInferences], and four data series of
    [n + 1] points each; every point is a number in [[0.01, 1]], no further
    than 0.025 (before clamping) outside the range between the start and
    the end allocation of its variant. *)
Theorem makeNerData_shape (n : nat) (start finish : list R) (T : R) :
  (1 <= n)%nat ->
  (NerCharts.NER_VARIANTS <= length start)%nat ->
  (NerCharts.NER_VARIANTS <= length finish)%nat ->
  length (fst (NerCharts.makeNerData n start finish T)) = S n /\
  nth_error (fst (NerCharts.makeNerData n start finish T)) 0 = Some 0 /\
  nth_error (fst (NerCharts.makeNerData n start finish T)) n = Some T /\
  length (snd (NerCharts.makeNerData n start finish T)) = NerCharts.NER_VARIANTS /\
  (forall vi data,
      nth_error (snd (NerCharts.makeNerData n start finish T)) vi = Some data ->
      length data = S n /\
      forall i p, nth_error data i = Some p ->
        exists s e x,
          nth_error start vi = Some s /\ nth_error finish vi = Some e /\
          p = Some x /\ 0.01 <= x <= 1 /\
          Rmax 0.01 (Rmin 1 (Rmin s e - 0.025)) <= x
            <= Rmax 0.01 (Rmin 1 (Rmax s e + 0.025))).
Proof.
  intros Hn Hs He. rewrite makeNerData_eq. cbv beta iota delta [fst snd].
  assert (Hn0 : 0 < INR n) by (apply lt_0_INR; lia).
  assert (Hfirst : nth_error (map (fun j => INR j * (T / INR n)) (seq 0 (S n))) 0
                   = Some 0) by (simpl; f_equal; lra).
  remember (S n) as m eqn:Hm.
  split; [rewrite length_map, length_seq; reflexivity |].
  split; [exact Hfirst |].
  split.
  { rewrite nth_error_map, nth_error_seq.
    destruct (Nat.ltb_spec n m) as [_ | C]; [| lia].
    unfold option_map. f_equal. rewrite Nat.add_0_l. field. lra. }
  split; [rewrite length_map, length_seq; reflexivity |].
  intros vi data Hd. rewrite nth_error_map, nth_error_seq in Hd.
  destruct (Nat.ltb_spec vi NerCharts.NER_VARIANTS) as [Hvi | C];
    [| discriminate].
  unfold option_map in Hd. rewrite Nat.add_0_l in Hd. injection Hd as <-.
  split; [rewrite length_map, length_seq; reflexivity |].
  intros i p Hp. rewrite nth_error_map, nth_error_seq in Hp.
  destruct (Nat.ltb_spec i m) as [Hi | C]; [| discriminate].
  unfold option_map in Hp. rewrite Nat.add_0_l in Hp. injection Hp as <-.
  destruct (nth_error start vi) as [s |] eqn:Es;
    [| apply nth_error_None in Es; lia].
  destruct (nth_error finish vi) as [e |] eqn:Ee;
    [| apply nth_error_None in Ee; lia].
  destruct (dataPoint_spec n start finish i vi s e Hn ltac:(lia) Es Ee)
    as (x & Hx & Hr & Hb).
  exists s, e, x. repeat (split; [assumption || reflexivity |]). assumption.
Qed.

Lemma makeNerData_shape_witness :
  (1 <= 40)%nat /\
  length (fst (NerCharts.makeNerData 40 [0.25; 0.25; 0.25; 0.25]
                 [0.12; 0.14; 0.18; 0.56] 960)) = 41%nat /\
  nth_error (fst (NerCharts.makeNerData 40 [0.25; 0.25; 0.25; 0.25]
                    [0.12; 0.14; 0.18; 0.56] 960)) 40 = Some 960.
Proof.
  assert (Hn : (1 <= 40)%nat) by lia.
  split; [exact Hn |].
  destruct (makeNerData_shape 40 [0.25; 0.25; 0.25; 0.25]
              [0.12; 0.14; 0.18; 0.56] 960 Hn)
    as (H1 & _ & H3 & _);
    [unfold NerCharts.NER_VARIANTS; simpl; lia
    | unfold NerCharts.NER_VARIANTS; simpl; lia |].
  split; [exact H1 | exact H3].
Defined.

(** ** The statistics are all the algorithm reads *)

Lemma mean_same (a a' : Arm) : sameStats a a' -> mean a = mean a'.
Proof. intros [Hp Hs]. unfold mean. rewrite Hp, Hs. reflexivity. Qed.

Lemma glrtStat_same (a a' b b' : Arm) :
  sameStats a a' -> sameStats b b' -> glrtStat a b = glrtStat a' b'.
Proof.
  intros Ha Hb. unfold glrtStat.
  rewrite (mean_same a a' Ha), (mean_same b b' Hb).
  destruct Ha as [-> _]. destruct Hb as [-> _]. reflexivity.
Qed.

Lemma sameStats_pulls (l l' : list Arm) :
  Forall2 sameStats l l' -> map pulls l = map pulls l'.
Proof.
  induction 1 as [| a a' r r' [Hp _] _ IH]; simpl; [reflexivity |].
  rewrite Hp, IH. reflexivity.
Qed.

Lemma sameStats_nth (l l' : list Arm) :
  Forall2 sameStats l l' ->
  forall i,
    match nth_error l i, nth_error l' i with
    | Some a, Some a' => sameStats a a'
    | None, None => True
    | _, _ => False
    end.
Proof.
  induction 1 as [| a a' r r' Ha _ IH]; intros [| i]; simpl;
    try exact I; try assumption. apply IH.
Qed.

Lemma sameStats_const {B : Type} (c : B) (l l' : list Arm) :
  Forall2 sameStats l l' -> map (fun _ => c) l = map (fun _ => c) l'.
Proof.
  induction 1 as [| a a' r r' _ _ IH]; simpl; [reflexivity |].
  f_equal. apply IH.
Qed.

Section SameStats.
Variables l l' : list Arm.
Hypothesis same : Forall2 sameStats l l'.

Lemma same_length : length l = length l'.
Proof. apply (Forall2_length same). Qed.

Lemma same_pulls : map pulls l = map pulls l'.
Proof. apply sameStats_pulls. exact same. Qed.

Lemma same_nth (i : nat) :
  match nth_error l i, nth_error l' i with
  | Some a, Some a' => sameStats a a'
  | None, None => True
  | _, _ => False
  end.
Proof. apply sameStats_nth. exact same. Qed.

Lemma same_beats (a a' : Arm) (b : nat) :
  sameStats a a' -> beats l a b = beats l' a' b.
Proof.
  intros Ha. unfold beats. pose proof (same_nth b) as Hb.
  destruct (nth_error l b), (nth_error l' b); try contradiction; [| reflexivity].
  rewrite (mean_same _ _ Ha), (mean_same _ _ Hb). reflexivity.
Qed.

Lemma same_best_from (r r' : list Arm) :
  Forall2 sameStats r r' ->
  forall i b, reduce_from (bestStep l) i r b = reduce_from (bestStep l') i r' b.
Proof.
  induction 1 as [| a a' r r' Ha _ IH]; intros i b; simpl; [reflexivity |].
  unfold bestStep at 2 4. rewrite (same_beats a a' b Ha). apply IH.
Qed.

Lemma same_bestArmIdx : bestArmIdx l = bestArmIdx l'.
Proof. apply same_best_from. exact same. Qed.

Lemma same_totalPulls : totalPulls l = totalPulls l'.
Proof. rewrite !totalPulls_sum, same_pulls. reflexivity. Qed.

Lemma same_minPulls : minPulls l = minPulls l'.
Proof. unfold minPulls. rewrite same_pulls. reflexivity. Qed.

Lemma same_below (a a' : Arm) (best : nat) (thresh : R) :
  sameStats a a' ->
  belowThreshold l best a thresh = belowThreshold l' best a' thresh.
Proof.
  intros Ha. unfold belowThreshold. pose proof (same_nth best) as Hb.
  destruct (nth_error l best), (nth_error l' best); try contradiction;
    [| reflexivity].
  rewrite (glrtStat_same _ _ _ _ Hb Ha). reflexivity.
Qed.

Lemma same_stop_loop (best : nat) (thresh : R) (r r' : list Arm) :
  Forall2 sameStats r r' ->
  forall i, shouldStop_loop l best thresh i r = shouldStop_loop l' best thresh i r'.
Proof.
  induction 1 as [| a a' r r' Ha _ IH]; intros i; simpl; [reflexivity |].
  rewrite (same_below a a' best thresh Ha), !IH. reflexivity.
Qed.

Lemma same_shouldStop : shouldStop l = shouldStop l'.
Proof.
  unfold shouldStop.
  rewrite same_minPulls, same_bestArmIdx, same_totalPulls.
  destruct (ltNum (minPulls l') 12); [reflexivity |].
  apply same_stop_loop. exact same.
Qed.

Lemma same_uniformAlloc : uniformAlloc l = uniformAlloc l'.
Proof.
  unfold uniformAlloc. rewrite same_length. apply sameStats_const. exact same.
Qed.

Lemma same_weights_from (best : nat) (bm : R) (r r' : list Arm) :
  Forall2 sameStats r r' ->
  forall i,
    map_from (fun arm j => if (j =? best)%nat then None
                           else Some (gapWeight bm arm)) i r
    = map_from (fun arm j => if (j =? best)%nat then None
                             else Some (gapWeight bm arm)) i r'.
Proof.
  induction 1 as [| a a' r r' Ha _ IH]; intros i; simpl; [reflexivity |].
  unfold gapWeight at 1 3. rewrite (mean_same a a' Ha), IH. reflexivity.
Qed.

Lemma same_computeAdaptiveAlloc :
  computeAdaptiveAlloc l = computeAdaptiveAlloc l'.
Proof.
  unfold computeAdaptiveAlloc.
  rewrite same_minPulls, same_uniformAlloc, same_bestArmIdx.
  destruct (ltNum (minPulls l') 6); [reflexivity |].
  pose proof (same_nth (bestArmIdx l')) as Hb.
  destruct (nth_error l (bestArmIdx l')) as [ab |],
           (nth_error l' (bestArmIdx l')) as [ab' |];
    try contradiction; [| reflexivity].
  unfold adaptiveWeights, mapi.
  rewrite (mean_same ab ab' Hb).
  rewrite (same_weights_from (bestArmIdx l') (mean ab') l l' same 0).
  reflexivity.
Qed.
End SameStats.

Lemma sameStats_refl (l : list Arm) : Forall2 sameStats l l.
Proof. induction l; constructor; [split; reflexivity | assumption]. Qed.

Lemma sameStats_assign (l : list Arm) :
  forall i a', (forall a, nth_error l i = Some a -> sameStats a a') ->
               Forall2 sameStats l (assign l i a').
Proof.
  induction l as [| x l IH]; intros [| i] a' H; simpl; constructor.
  - apply H. reflexivity.
  - apply sameStats_refl.
  - split; reflexivity.
  - apply IH. intros a Ha. apply H. exact Ha.
Qed.



(** ** Allocation bars *)

Lemma map_from_nth {A B : Type} (f : R -> B) (rest : list R) :
  forall (pre : list R) (l : list A),
    length l = length rest ->
    map_from (fun _ i => f (nth i (pre ++ rest) 0)) (length pre) l = map f rest.
Proof.
  induction rest as [| x rest IH]; intros pre [| a l] Hlen; simpl in Hlen;
    try discriminate; [reflexivity |].
  simpl. f_equal.
  - rewrite app_nth2 by lia. rewrite Nat.sub_diag. reflexivity.
  - replace (S (length pre)) with (length (pre ++ [x]))
      by (rewrite length_app; simpl; lia).
    replace (pre ++ x :: rest) with ((pre ++ [x]) ++ rest)
      by (rewrite <- app_assoc; reflexivity).
    apply IH. lia.
Qed.

Lemma percent_sum (l : list R) :
  100 * total l - INR (length l) * 0.5
  <= IZR (sumZ (map (fun x => mathRound (x * 100)) l))
  <= 100 * total l + INR (length l) * 0.5.
Proof.
  induction l as [| x l IH].
  - unfold total. simpl. lra.
  - rewrite total_cons. change (length (x :: l)) with (S (length l)).
    rewrite S_INR. simpl map. simpl sumZ. rewrite plus_IZR.
    pose proof (mathRound_bounds (x * 100)). fold (sumZ (map (fun x => mathRound (x * 100)) l)).
    lra.
Qed.

Lemma percent_range (x : R) :
  0 <= x <= 1 -> (0 <= mathRound (x * 100) <= 100)%Z.
Proof.
  intros Hx. pose proof (mathRound_bounds (x * 100)) as [H1 H2].
  assert (Ha : IZR (-1) < IZR (mathRound (x * 100))) by lra.
  assert (Hb : IZR (mathRound (x * 100)) < IZR 101) by lra.
  apply lt_IZR in Ha, Hb. lia.
Qed.

(** X25: the percentages on the allocation bars.  With at least one arm
    [renderAllocBars] writes one percentage per arm, each between 0 and
    100; their sum is 100 up to the rounding of each bar, that is within
    [K/2] of 100.  Past the warm-up, in adaptive mode with [K >= 2] valid
    arms, the bar of the best arm shows 50. *)
Theorem renderAllocBars_percentages (s : Sim) :
  arms s <> [] ->
  exists pcts,
    renderAllocBars s = Some pcts /\
    length pcts = length (arms s) /\
    Forall (fun p => (0 <= p <= 100)%Z) pcts /\
    (2 * Z.abs (sumZ pcts - 100) <= Z.of_nat (length (arms s)))%Z /\
    (simMode s = adaptive -> (2 <= length (arms s))%nat ->
     Forall valid (arms s) -> (forall a, In a (arms s) -> (6 <= pulls a)%Z) ->
     nth_error pcts (bestArmIdx (arms s)) = Some 50%Z).
Proof.
  intros Hne. unfold renderAllocBars.
  destruct (modeAlloc_good (simMode s) (arms s) Hne)
    as (alloc & Hm & Hlen & Hpos & Htot).
  rewrite Hm. eexists. split; [reflexivity |].
  assert (E : mapi (fun (_ : Arm) i => mathRound (nth i alloc 0 * 100)) (arms s)
              = map (fun x => mathRound (x * 100)) alloc).
  { unfold mapi.
    apply (map_from_nth (fun x => mathRound (x * 100)) alloc [] (arms s)).
    symmetry. assumption. }
  rewrite E.
  split; [rewrite length_map; assumption |].
  assert (Hnn : Forall (fun x => 0 <= x) alloc).
  { revert Hpos. apply Forall_impl. intros x Hx. lra. }
  split.
  { apply Forall_map. apply Forall_forall. intros x Hx.
    apply percent_range. split.
    - rewrite Forall_forall in Hnn. apply Hnn. assumption.
    - apply In_nth_error in Hx. destruct Hx as [j Hj].
      rewrite <- Htot. apply (total_ge_entry alloc Hnn j x Hj). }
  split.
  { pose proof (percent_sum alloc) as [H1 H2]. rewrite Htot, Hlen in H1, H2.
    set (sm := sumZ (map (fun x => mathRound (x * 100)) alloc)) in *.
    rewrite INR_IZR_INZ in H1, H2.
    set (K := Z.of_nat (length (arms s))) in *.
    assert (Ha : IZR (2 * (sm - 100)) <= IZR K)
      by (rewrite mult_IZR, minus_IZR; lra).
    assert (Hb : IZR (2 * (100 - sm)) <= IZR K)
      by (rewrite mult_IZR, minus_IZR; lra).
    apply le_IZR in Ha, Hb. lia. }
  intros Hmode HK Hv Hall. rewrite Hmode in Hm. simpl in Hm.
  assert (Hmin : ltNum (minPulls (arms s)) 6 = false)
    by (apply ltNum_minPulls_false; assumption).
  destruct (bestArmIdx_leads (arms s) Hne) as (ab & Hb & _).
  destruct (best_share_half (arms s) ab Hb Hv HK Hmin)
    as (_ & _ & alloc' & Ha' & Hshare).
  rewrite Hm in Ha'. injection Ha' as <-.
  rewrite nth_error_map, Hshare. simpl. f_equal.
  replace (1 / 2 * 100) with (IZR 50) by lra. apply mathRound_IZR.
Qed.

Lemma renderAllocBars_percentages_witness :
  arms sampleSim <> [] /\
  exists pcts,
    renderAllocBars sampleSim = Some pcts /\
    (2 * Z.abs (sumZ pcts - 100) <= 4)%Z.
Proof.
  assert (Hne : arms sampleSim <> []) by discriminate.
  split; [exact Hne |].
  destruct (renderAllocBars_percentages sampleSim Hne)
    as (pcts & Hr & _ & _ & Hs & _).
  exists pcts. split; [exact Hr | exact Hs].
Defined.

Lemma mathRound_eq (x : R) (z : Z) :
  IZR z - 0.5 <= x < IZR z + 0.5 -> mathRound x = z.
Proof.
  intros [H1 H2]. pose proof (mathRound_bounds x) as [H3 H4].
  assert (Ha : IZR (z - 1) < IZR (mathRound x)) by (rewrite minus_IZR; lra).
  assert (Hb : IZR (mathRound x) < IZR (z + 1)) by (rewrite plus_IZR; lra).
  apply lt_IZR in Ha, Hb. lia.
Qed.

(** The estimate at the default sliders, [delta = eps = 0.05]. *)
Example estimateDuration_default :
  Estimator.estimateDuration 0.05 0.05 = Estimator.mkEstimate 700 1000 30.
Proof.
  unfold Estimator.estimateDuration, Estimator.EST_BASE, Estimator.EST_ARMS_SCALE.
  pose proof ln_20_pos as H20.
  assert (E1 : ln (1 / 0.05) / ln (1 / 0.05) = 1) by (field; lra).
  rewrite E1. rewrite (proj2 (Rgtb_true 0.05 0.001)) by lra.
  assert (Ea : mathRound (400 * 1.8 * 1 * (0.05 / 0.05 * 0.8 + 0.2) / 50) = 14%Z)
    by (apply mathRound_eq; lra).
  cbv zeta. rewrite Ea. change (Z.max 80 (14 * 50)) with 700%Z.
  assert (Eu : mathRound (700 * 1.45 / 50) = 20%Z) by (apply mathRound_eq; lra).
  rewrite Eu. change (Z.max 120 (20 * 50)) with 1000%Z.
  assert (Es : mathRound ((1 - 700 / 1000) * 100) = 30%Z)
    by (apply mathRound_eq; lra).
  rewrite Es. reflexivity.
Qed.

(** ** More on the estimate, the divergence and the batch *)

(** X26: how a trial moves the mean.  For a valid arm a success never
    lowers the mean estimate and a failure never raises it, the prior 0.5
    of an arm without pulls included. *)
Theorem pull_moves_mean (u : R) (a : Arm) :
  valid a ->
  (snd (pull u a) = true -> mean a <= mean (fst (pull u a))) /\
  (snd (pull u a) = false -> mean (fst (pull u a)) <= mean a).
Proof.
  intros [H0 H1]. unfold pull.
  assert (Hp1 : 0 < IZR (pulls a + 1)) by (apply IZR_lt; lia).
  assert (Hs0 : 0 <= IZR (successes a)) by (apply IZR_le; lia).
  assert (Hsp : IZR (successes a) <= IZR (pulls a)) by (apply IZR_le; lia).
  destruct (Rltb u (trueRate a)); simpl; (split; [| ]); intros E;
    try discriminate; unfold mean; simpl;
    (destruct (Z.eqb_spec (pulls a + 1) 0) as [C | _]; [lia |]);
    destruct (Z.eqb_spec (pulls a) 0) as [Ez | Nz].
  - assert (Es : successes a = 0%Z) by lia. rewrite Ez, Es. simpl.
    unfold Rdiv. rewrite Rinv_r by lra. lra.
  - assert (Hp : 0 < IZR (pulls a)) by (apply IZR_lt; lia).
    rewrite !plus_IZR in *.
    apply (Rmult_le_reg_r (IZR (pulls a))); [assumption |].
    apply (Rmult_le_reg_r (IZR (pulls a) + 1)); [assumption |].
    unfold Rdiv. 
    replace (IZR (successes a) * / IZR (pulls a) * IZR (pulls a) * (IZR (pulls a) + 1))
      with (IZR (successes a) * (IZR (pulls a) + 1) * (/ IZR (pulls a) * IZR (pulls a)))
      by ring.
    replace ((IZR (successes a) + 1) * / (IZR (pulls a) + 1) * IZR (pulls a)
             * (IZR (pulls a) + 1))
      with ((IZR (successes a) + 1) * IZR (pulls a)
            * (/ (IZR (pulls a) + 1) * (IZR (pulls a) + 1))) by ring.
    rewrite !Rinv_l by lra. lra.
  - assert (Es : successes a = 0%Z) by lia. rewrite Ez, Es. simpl.
    unfold Rdiv. rewrite Rmult_0_l. lra.
  - assert (Hp : 0 < IZR (pulls a)) by (apply IZR_lt; lia).
    rewrite !plus_IZR in *.
    apply (Rmult_le_reg_r (IZR (pulls a))); [assumption |].
    apply (Rmult_le_reg_r (IZR (pulls a) + 1)); [assumption |].
    unfold Rdiv.
    replace (IZR (successes a) * / IZR (pulls a) * IZR (pulls a) * (IZR (pulls a) + 1))
      with (IZR (successes a) * (IZR (pulls a) + 1) * (/ IZR (pulls a) * IZR (pulls a)))
      by ring.
    replace (IZR (successes a) * / (IZR (pulls a) + 1) * IZR (pulls a)
             * (IZR (pulls a) + 1))
      with (IZR (successes a) * IZR (pulls a)
            * (/ (IZR (pulls a) + 1) * (IZR (pulls a) + 1))) by ring.
    rewrite !Rinv_l by lra. nra.
Qed.

Lemma pull_moves_mean_witness :
  valid (mkArm 2 0.72 12 9) /\
  (snd (pull 0.3 (mkArm 2 0.72 12 9)) = true ->
   mean (mkArm 2 0.72 12 9) <= mean (fst (pull 0.3 (mkArm 2 0.72 12 9)))).
Proof.
  assert (Hv : valid (mkArm 2 0.72 12 9)) by (unfold valid; simpl; lia).
  split; [exact Hv |].
  exact (proj1 (pull_moves_mean 0.3 (mkArm 2 0.72 12 9) Hv)).
Defined.

Lemma clampProb_complement (p : R) : clampProb (1 - p) = 1 - clampProb p.
Proof. unfold clampProb, Rmax, Rmin. repeat destruct (Rle_dec _ _); lra. Qed.

(** X27: the divergence does not depend on which outcome is called the
    success: [klBern (1 - p) (1 - q) = klBern p q] for all [p] and [q]. *)
Theorem klBern_complement (p q : R) : klBern (1 - p) (1 - q) = klBern p q.
Proof.
  rewrite !klBern_clamped, !clampProb_complement.
  replace (1 - (1 - clampProb p)) with (clampProb p) by ring.
  replace (1 - (1 - clampProb q)) with (clampProb q) by ring.
  ring.
Qed.

Lemma runBatch_loop_count (n : nat) :
  forall s,
    arms s <> [] ->
    exists s' k,
      runBatch_loop n s = Some s' /\ (k <= n)%nat /\
      totalPulls (arms s') = (totalPulls (arms s) + Z.of_nat k)%Z /\
      ((k < n)%nat -> finished s' = true) /\
      ((0 < k)%nat -> finished s = false).
Proof.
  induction n as [| n IH]; intros s Hne; simpl.
  - exists s, 0%nat. split; [reflexivity |]. split; [lia |]. split; [lia |].
    split; intros; lia.
  - destruct (finished s) eqn:Hf.
    + exists s, 0%nat. split; [reflexivity |]. split; [lia |]. split; [lia |].
      split; [intros _; assumption | intros; lia].
    + destruct (simStep_spec s Hne) as (s1 & Hs1 & Hne1 & Ht1 & _).
      rewrite Hs1.
      destruct (IH s1 Hne1) as (s' & k & Hl & Hk & Ht & Hfin & _).
      exists s', (S k). split; [assumption |]. split; [lia |].
      split; [lia |]. split; [intros Hlt; apply Hfin; lia | reflexivity].
Qed.

(** X28: the size of a batch.  On non-empty arms [runBatch] does not throw
    and takes at most [stepsPerTick] steps, each adding one pull; it takes
    fewer only when the run is finished at that point, and none at all when
    the run was finished before. *)
Theorem runBatch_size (s : Sim) :
  arms s <> [] ->
  exists s' k,
    runBatch s = Some s' /\ (k <= stepsPerTick s)%nat /\
    totalPulls (arms s') = (totalPulls (arms s) + Z.of_nat k)%Z /\
    ((k < stepsPerTick s)%nat -> finished s' = true) /\
    (finished s = true -> k = 0%nat /\ arms s' = arms s).
Proof.
  intros Hne. unfold runBatch.
  destruct (runBatch_loop_count (stepsPerTick s) s Hne)
    as (s1 & k & Hl & Hk & Ht & Hfin & Hpos).
  rewrite Hl. eexists. exists k. split; [reflexivity |].
  split; [assumption |].
  split; [destruct (finished s1); simpl; assumption |].
  split.
  - intros Hlt. specialize (Hfin Hlt). rewrite Hfin. exact Hfin.
  - intros Hf. assert (k = 0%nat).
    { destruct k; [reflexivity |]. rewrite Hpos in Hf by lia. discriminate. }
    split; [assumption |].
    rewrite (runBatch_loop_finished s Hf) in Hl. injection Hl as <-.
    rewrite Hf. reflexivity.
Qed.

Lemma runBatch_size_witness :
  arms sampleSim <> [] /\
  exists s' k,
    runBatch sampleSim = Some s' /\ (k <= 15)%nat /\
    totalPulls (arms s') = (totalPulls (arms sampleSim) + Z.of_nat k)%Z.
Proof.
  assert (Hne : arms sampleSim <> []) by discriminate.
  split; [exact Hne |].
  destruct (runBatch_size sampleSim Hne) as (s' & k & Hr & Hk & Ht & _).
  exists s', k. split; [exact Hr |]. split; [exact Hk | exact Ht].
Defined.
